(** * GUIDE knowledge store: location index, process graph and tool handlers

    A shallow embedding of [gemini/object_dict.py], [gemini/process_graph.py],
    [gemini/preference_service.py] and of the tool-call boundary of
    [gemini/gemini.py], followed by the properties established about them.

    Conventions.
    - A Python [dict] keeps insertion order and has unique keys; it is
      modelled as an association list ([dict_get], [dict_set], [dict_pop])
      together with the well-formedness predicate [wf_tree] (no key twice).
    - A method that mutates [self._data] in place becomes a function from
      the tree before the call to the tree after it, paired with the
      outcome of the call: a returned value or a raised exception.
    - A Python [set] of step names is a [gset string]; the adjacency
      [defaultdict(set)] is a [gmap string (gset string)]. *)

From Stdlib Require Import String Ascii List Bool Arith Lia.
From stdpp Require Import base option list strings gmap sorting.

Set Warnings "-register-all,-clear-no-such-hyp,-level-tolerance".
Local Open Scope string_scope.
Local Open Scope list_scope.

(** ** Python preliminaries *)

Module Py.

(** The exception classes the modelled code raises or catches. *)
Inductive exn : Type :=
| KeyError
| ValueError
| TypeError.

(** The result of a call: a returned value or a raised exception. *)
Inductive outcome (A : Type) : Type :=
| Ret (a : A)
| Raise (e : exn).
Arguments Ret {A} a.
Arguments Raise {A} e.

#[global] Instance exn_eq_dec : EqDecision exn.
Proof. solve_decision. Defined.

(** Insertion-ordered dictionaries with string keys. *)
Section dict.
Context {V : Type}.

Definition dict : Type := list (string * V).

(** [d.get(k)] *)
Fixpoint dict_get (k : string) (d : dict) : option V :=
  match d with
  | [] => None
  | (k', v) :: d' => if decide (k = k') then Some v else dict_get k d'
  end.

(** [d[k] = v]: an existing key keeps its position, a new one goes last. *)
Fixpoint dict_set (k : string) (v : V) (d : dict) : dict :=
  match d with
  | [] => [(k, v)]
  | (k', v') :: d' =>
      if decide (k = k') then (k', v) :: d' else (k', v') :: dict_set k v d'
  end.

(** [d.pop(k, None)] *)
Fixpoint dict_pop (k : string) (d : dict) : dict :=
  match d with
  | [] => []
  | (k', v') :: d' =>
      if decide (k = k') then d' else (k', v') :: dict_pop k d'
  end.

Definition dict_keys (d : dict) : list string := map fst d.

(** [not d] *)
Definition is_empty {A} (l : list A) : bool :=
  match l with [] => true | _ :: _ => false end.
End dict.
Arguments dict V : clear implicits.

(** [l.remove(x)]: drops the first occurrence ([None] stands for the
    [ValueError] raised when there is none). *)
Fixpoint list_remove_first (x : string) (l : list string) : option (list string) :=
  match l with
  | [] => None
  | y :: l' =>
      if decide (x = y) then Some l'
      else match list_remove_first x l' with
           | Some r => Some (y :: r)
           | None => None
           end
  end.

(** [s.split(sep)] for a non-empty [sep]: leftmost, non-overlapping
    occurrences of [sep] cut the string; [skip] counts the characters of a
    separator occurrence that are still to be dropped. *)
Fixpoint split_from (sep : string) (skip : nat) (s : string) : list string :=
  match s with
  | EmptyString => [""]
  | String c s' =>
      match skip with
      | S n => split_from sep n s'
      | O =>
          if String.prefix sep s
          then "" :: split_from sep (String.length sep - 1) s'
          else match split_from sep 0 s' with
               | seg :: segs => String c seg :: segs
               | [] => [String c ""]
               end
      end
  end.

(** [s.split(sep)]; an empty separator raises [ValueError]. *)
Definition str_split (sep s : string) : outcome (list string) :=
  match sep with
  | EmptyString => Raise ValueError
  | _ => Ret (split_from sep 0 s)
  end.

(** [filter(None, parts)] keeps the non-empty strings. *)
Definition filter_nonempty (parts : list string) : list string :=
  List.filter (fun p => negb (String.eqb p "")) parts.

(** [sep * n]: [n] copies of [sep], one after the other. *)
Fixpoint repeat_str (sep : string) (n : nat) : string :=
  match n with
  | O => ""
  | S n' => sep ++ repeat_str sep n'
  end.

(** A call on a mutable object of type [S]: the state after the call
    (also when it raises) and its outcome. *)
Definition stateful (S A : Type) : Type := S -> S * outcome A.

Definition mret {S A} (a : A) : stateful S A := fun st => (st, Ret a).
Definition mraise {S A} (e : exn) : stateful S A := fun st => (st, Raise e).
Definition bind {S A B} (m : stateful S A) (k : A -> stateful S B) : stateful S B :=
  fun st =>
    match m st with
    | (st', Ret a) => k a st'
    | (st', Raise e) => (st', Raise e)
    end.
(** An expression that cannot mutate, evaluated inside a method. *)
Definition pure {S A} (o : outcome A) : stateful S A := fun st => (st, o).

End Py.
Export Py.

Declare Scope py_scope.
Delimit Scope py_scope with py.
Notation "'let*' x := m 'in' k" := (bind m (fun x => k))
  (at level 10, x pattern, m at level 100, k at level 200) : py_scope.
Local Open Scope py_scope.

(** ** [gemini/object_dict.py] *)

Module ObjectDict.

(** [LocationValue = Union[LocationTree, List[str]]] *)
Inductive LocationValue : Type :=
| Bucket (items : list string)
| Mapping (entries : list (string * LocationValue)).

(** [LocationTree = Dict[str, LocationValue]]; [self._data] is one. *)
Definition LocationTree : Type := dict LocationValue.

(** [Path = Tuple[str, ...]] *)
Definition Path : Type := list string.

(** A path argument: [Sequence[str] | str]. *)
Inductive path_arg : Type :=
| PStr (s : string)
| PSeq (parts : list string).

(** A method of [ObjectDict]: from [self._data] to the mutated
    [self._data] and the outcome. *)
Definition method (A : Type) : Type := stateful LocationTree A.

Section methods.
(** [self._sep], fixed by the constructor. *)
Variable sep : string.

(** [_normalize_path] *)
Definition _normalize_path (path : path_arg) : outcome Path :=
  let parts :=
    match path with
    | PStr s =>
        match str_split sep s with
        | Ret segs => Ret (filter_nonempty segs)
        | Raise e => Raise e
        end
    | PSeq l => Ret l
    end in
  match parts with
  | Ret [] => Raise ValueError
  | r => r
  end.

(** [_walk]: the only exception is [KeyError]. *)
Fixpoint _walk (current : LocationValue) (path : Path) : outcome LocationValue :=
  match path with
  | [] => Ret current
  | key :: rest =>
      match current with
      | Mapping entries =>
          match dict_get key entries with
          | Some child => _walk child rest
          | None => Raise KeyError
          end
      | Bucket _ => Raise KeyError
      end
  end.

(** [has_path]: normalisation happens inside the [try], which catches
    [KeyError] only. *)
Definition has_path (path : path_arg) (data : LocationTree) : outcome bool :=
  match _normalize_path path with
  | Raise e => Raise e
  | Ret normalized =>
      match _walk (Mapping data) normalized with
      | Ret _ => Ret true
      | Raise KeyError => Ret false
      | Raise e => Raise e
      end
  end.

(** [get_path] *)
Definition get_path (path : path_arg) (default : option LocationValue)
    (data : LocationTree) : outcome (option LocationValue) :=
  match _normalize_path path with
  | Raise e => Raise e
  | Ret normalized =>
      match _walk (Mapping data) normalized with
      | Ret v => Ret (Some v)
      | Raise KeyError => Ret default
      | Raise e => Raise e
      end
  end.

(** The descent shared by [delete_path] and [_prune_empty_branch]:
    [for key in normalized[:-1]] pushes [(current, key)] on [parents] and
    moves to [current[key]]; it gives up when [key] is missing or when
    the node reached is not a mapping. On success it yields the mapping
    that holds the last key, that key, and the stack (innermost parent
    first). The stack holds the parents as they were when pushed; the
    mutated child is carried separately and written back when the walk
    returns upward, which is what aliasing does in the source. *)
Fixpoint descend (current : LocationTree) (path : Path)
    (parents : list (LocationTree * string))
    : option (LocationTree * string * list (LocationTree * string)) :=
  match path with
  | [] => None
  | [target_key] => Some (current, target_key, parents)
  | key :: rest =>
      match dict_get key current with
      | Some (Mapping child) => descend child rest ((current, key) :: parents)
      | Some (Bucket _) => None
      | None => None
      end
  end.

(** The ancestors above a [break]: each still holds its (mutated) child. *)
Fixpoint plug (child : LocationTree) (parents : list (LocationTree * string))
    : LocationTree :=
  match parents with
  | [] => child
  | (parent, key) :: up => plug (dict_set key (Mapping child) parent) up
  end.

(** [while parents: parent, key = parents.pop(); child = parent.get(key);
    if child is empty: parent.pop(key) else: break]. The child met here
    is always a mapping, since the descent went through it. *)
Fixpoint unwind (child : LocationTree) (parents : list (LocationTree * string))
    : LocationTree :=
  match parents with
  | [] => child
  | (parent, key) :: up =>
      if is_empty child then unwind (dict_pop key parent) up
      else plug (dict_set key (Mapping child) parent) up
  end.

(** [delete_path] *)
Definition delete_path (path : path_arg) : method bool := fun data =>
  match _normalize_path path with
  | Raise e => (data, Raise e)
  | Ret normalized =>
      match descend data normalized [] with
      | None => (data, Ret false)
      | Some (current, target_key, parents) =>
          match dict_get target_key current with
          | None => (data, Ret false)
          | Some _ => (unwind (dict_pop target_key current) parents, Ret true)
          end
      end
  end.

(** The walk of [_ensure_bucket] below the root, on a normalised path.
    The tree returned is [self._data] after the [setdefault]s. *)
Fixpoint ensure (create : bool) (parent : LocationTree) (path : Path)
    : LocationTree * outcome (list string) :=
  match path with
  | [] => (parent, Raise ValueError)
  | [last] =>
      match dict_get last parent with
      | None =>
          if create then (dict_set last (Bucket []) parent, Ret [])
          else (parent, Raise KeyError)
      | Some (Bucket bucket) => (parent, Ret bucket)
      | Some (Mapping _) => (parent, Raise TypeError)
      end
  | key :: rest =>
      match dict_get key parent with
      | Some (Mapping child) =>
          let '(child', r) := ensure create child rest in
          (dict_set key (Mapping child') parent, r)
      | Some (Bucket _) => (parent, Raise TypeError)
      | None =>
          if create then
            let '(child', r) := ensure create [] rest in
            (dict_set key (Mapping child') parent, r)
          else (parent, Raise KeyError)
      end
  end.

(** [_ensure_bucket]: the bucket returned is a reference to the list
    stored at the normalised path; the model returns that path together
    with the list's content. *)
Definition _ensure_bucket (path : path_arg) (create : bool)
    : method (Path * list string) := fun data =>
  match _normalize_path path with
  | Raise e => (data, Raise e)
  | Ret normalized =>
      match ensure create data normalized with
      | (data', Ret bucket) => (data', Ret (normalized, bucket))
      | (data', Raise e) => (data', Raise e)
      end
  end.

(** A mutation of the list behind a bucket reference ([bucket.append],
    [bucket.remove]): the list stored at [ref] becomes [items]. *)
Fixpoint bucket_store (ref : Path) (items : list string) (data : LocationTree)
    : LocationTree :=
  match ref with
  | [] => data
  | [last] => dict_set last (Bucket items) data
  | key :: rest =>
      match dict_get key data with
      | Some (Mapping child) =>
          dict_set key (Mapping (bucket_store rest items child)) data
      | _ => data
      end
  end.

(** [add_object] *)
Definition add_object (path : path_arg) (object_name : string)
    (allow_duplicates : bool) : method bool :=
  let* (ref, bucket) := _ensure_bucket path true in
  if negb allow_duplicates && bool_decide (object_name ∈ bucket)
  then mret false
  else fun data => (bucket_store ref (bucket ++ [object_name]) data, Ret true).

(** The loop of [extend_objects] over the bucket being filled. *)
Fixpoint extend_loop (allow_duplicates : bool) (object_names bucket : list string)
    (inserted : nat) : list string * nat :=
  match object_names with
  | [] => (bucket, inserted)
  | name :: names =>
      if negb allow_duplicates && bool_decide (name ∈ bucket)
      then extend_loop allow_duplicates names bucket inserted
      else extend_loop allow_duplicates names (bucket ++ [name]) (S inserted)
  end.

(** [extend_objects] *)
Definition extend_objects (path : path_arg) (object_names : list string)
    (allow_duplicates : bool) : method nat :=
  let* (ref, bucket) := _ensure_bucket path true in
  let '(bucket', inserted) := extend_loop allow_duplicates object_names bucket 0 in
  fun data => (bucket_store ref bucket' data, Ret inserted).

(** [_prune_empty_branch] *)
Definition _prune_empty_branch (path : path_arg) : method unit := fun data =>
  match _normalize_path path with
  | Raise e => (data, Raise e)
  | Ret normalized =>
      match descend data normalized [] with
      | None => (data, Ret tt)
      | Some (current, last, parents) =>
          let current' :=
            match dict_get last current with
            | Some (Bucket []) => dict_pop last current
            | _ => current
            end in
          (unwind current' parents, Ret tt)
      end
  end.

(** [_iter_objects]: the pairs yielded, in order. *)
Fixpoint _iter_objects (node : LocationValue) (path : Path) : list (string * Path) :=
  match node with
  | Bucket items => map (fun obj => (obj, path)) items
  | Mapping entries =>
      (fix items (es : list (string * LocationValue)) : list (string * Path) :=
         match es with
         | [] => []
         | (key, child) :: es' => _iter_objects child (path ++ [key]) ++ items es'
         end) entries
  end.

(** [iter_object_paths] *)
Definition iter_object_paths (data : LocationTree) : list (string * Path) :=
  _iter_objects (Mapping data) [].

(** The [for name, path in ...: if name == object_name: return path]
    loop of [find_object]. *)
Fixpoint first_path (object_name : string) (pairs : list (string * Path))
    : option Path :=
  match pairs with
  | [] => None
  | (name, path) :: rest =>
      if decide (name = object_name) then Some path
      else first_path object_name rest
  end.

(** [find_object] *)
Definition find_object (object_name : string) (data : LocationTree) : option Path :=
  first_path object_name (iter_object_paths data).

(** [list_objects]: [result.setdefault(name, []).append(path)]. *)
Definition list_objects (data : LocationTree) : dict (list Path) :=
  fold_left
    (fun result '(name, path) =>
       dict_set name (default [] (dict_get name result) ++ [path]) result)
    (iter_object_paths data) [].

(** [bucket.remove(object_name)] through the reference, then
    [_prune_empty_branch]; [ValueError] when the name is not there. *)
Definition remove_from (ref : Path) (bucket : list string) (object_name : string)
    (prune : path_arg) : method unit := fun data =>
  match list_remove_first object_name bucket with
  | None => (data, Raise ValueError)
  | Some bucket' => _prune_empty_branch prune (bucket_store ref bucket' data)
  end.

(** [remove_object] *)
Definition remove_object (object_name : string) (path : option path_arg)
    : method bool :=
  match path with
  | Some p => fun data =>
      match _ensure_bucket p false data with
      | (data1, Raise KeyError) => (data1, Ret false)
      | (data1, Raise e) => (data1, Raise e)
      | (data1, Ret (ref, bucket)) =>
          match list_remove_first object_name bucket with
          | None => (data1, Ret false)
          | Some bucket' =>
              (let* _ := _prune_empty_branch p in mret true)
                (bucket_store ref bucket' data1)
          end
      end
  | None => fun data =>
      match find_object object_name data with
      | None => (data, Ret false)
      | Some found =>
          (let* (ref, bucket) := _ensure_bucket (PSeq found) false in
           let* _ := remove_from ref bucket object_name (PSeq found) in
           mret true) data
      end
  end.

(** [move_object] *)
Definition move_object (object_name : string) (new_path : path_arg)
    (old_path : option path_arg) (allow_duplicates : bool) : method bool :=
  let* removed := remove_object object_name old_path in
  if negb removed then mret false
  else let* _ := add_object new_path object_name allow_duplicates in mret true.

(** [as_dict]: a deep copy; values are immutable here. *)
Definition as_dict (data : LocationTree) : LocationTree := data.

End methods.

(** Keys are unique at every level, as in any Python dictionary. *)
Fixpoint wf_value (node : LocationValue) : bool :=
  match node with
  | Bucket _ => true
  | Mapping entries =>
      bool_decide (NoDup (map fst entries)) &&
      (fix all (es : list (string * LocationValue)) : bool :=
         match es with
         | [] => true
         | (_, child) :: es' => wf_value child && all es'
         end) entries
  end.

Definition wf_tree (data : LocationTree) : Prop := wf_value (Mapping data) = true.

(** *** Notions used to state the properties *)

(** The pairs [_iter_objects] yields for the entries of a mapping. *)
Fixpoint iter_entries (entries : LocationTree) (path : Path) : list (string * Path) :=
  match entries with
  | [] => []
  | (key, child) :: es' => _iter_objects child (path ++ [key]) ++ iter_entries es' path
  end.

(** The paths paired with [object_name] in a list of yielded pairs. *)
Definition paths_of (object_name : string) (pairs : list (string * Path)) : list Path :=
  map snd (filter (fun e : string * Path => e.1 = object_name) pairs).

(** The paths under which [iter_object_paths] yields [object_name], one
    for each stored copy: the list [list_objects] files under that name. *)
Definition locations (object_name : string) (data : LocationTree) : list Path :=
  paths_of object_name (iter_object_paths data).

(** The tree [_prune_empty_branch] leaves when the path leads to a
    bucket, written as a recursion on the path: below, the bucket is
    dropped if it is empty; on the way back a child left empty is
    dropped from its parent. *)
Fixpoint detach (entries : LocationTree) (path : Path) : LocationTree :=
  match path with
  | [] => entries
  | [last] =>
      match dict_get last entries with
      | Some (Bucket []) => dict_pop last entries
      | _ => entries
      end
  | key :: rest =>
      match dict_get key entries with
      | Some (Mapping child) =>
          let child' := detach child rest in
          if is_empty child' then dict_pop key entries
          else dict_set key (Mapping child') entries
      | _ => entries
      end
  end.

(** The tree after the bucket at [normalized] was left with [items'] and
    the branch was pruned. *)
Definition removed_tree (normalized : Path) (items' : list string)
    (data : LocationTree) : LocationTree :=
  detach (bucket_store normalized items' data) normalized.

(** The mapping [entries] holds nothing but the chain of single keys
    that leads down [path]: once the node at the end of [path] is
    detached, [entries] is left empty. *)
Fixpoint left_empty (entries : LocationTree) (path : Path) : bool :=
  match path with
  | [] => false
  | [last] => bool_decide (dict_keys entries = [last])
  | key :: rest =>
      bool_decide (dict_keys entries = [key])
      && match dict_get key entries with
         | Some (Mapping child) => left_empty child rest
         | _ => false
         end
  end.

(** A type mismatch on the way to a bucket: an intermediate node that is
    a bucket, or a last node that is a mapping. *)
Definition type_mismatch (data : LocationTree) (path : Path) : Prop :=
  (∃ q r items, path = q ++ r ∧ q ≠ [] ∧ r ≠ []
                ∧ _walk (Mapping data) q = Ret (Bucket items))
  ∨ (∃ entries, path ≠ [] ∧ _walk (Mapping data) path = Ret (Mapping entries)).

(** A path argument without any segment: an empty sequence, or a string
    made of separators only. *)
Definition zero_segments (sep : string) (path : path_arg) : Prop :=
  path = PSeq [] ∨ ∃ n, path = PStr (repeat_str sep n).

(** [object_name] is not there to be removed: with no path given, no
    bucket of the index holds it; with a path, no bucket at that path
    holds it. *)
Definition absent (sep : string) (object_name : string) (path : option path_arg)
    (data : LocationTree) : Prop :=
  match path with
  | None => ∀ p, (object_name, p) ∉ iter_object_paths data
  | Some p =>
      ∃ normalized,
        _normalize_path sep p = Ret normalized
        ∧ ∀ items, _walk (Mapping data) normalized = Ret (Bucket items) →
                   object_name ∉ items
  end.

(** The entries of a mapping that come before [key]; all of them when
    [key] is not a key of the mapping (a new key goes last). *)
Fixpoint entries_before (key : string) (entries : LocationTree) : LocationTree :=
  match entries with
  | [] => []
  | (k, v) :: es => if decide (key = k) then [] else (k, v) :: entries_before key es
  end.

(** The pairs [iter_object_paths] yields before the traversal reaches the
    node at [path], or the place where [_ensure_bucket] creates it: the
    objects of the buckets that come earlier in the traversal. *)
Fixpoint earlier (entries : LocationTree) (prefix path : Path)
    : list (string * Path) :=
  match path with
  | [] => []
  | key :: rest =>
      iter_entries (entries_before key entries) prefix
      ++ match dict_get key entries with
         | Some (Mapping child) => earlier child (prefix ++ [key]) rest
         | _ => []
         end
  end.



(** The tree [delete_path] leaves when the path exists, written as a
    recursion on the path: the node at the path is dropped from its
    parent; on the way back a child left empty is dropped from its
    parent. *)
Fixpoint deleted_tree (entries : LocationTree) (path : Path) : LocationTree :=
  match path with
  | [] => entries
  | [target_key] => dict_pop target_key entries
  | key :: rest =>
      match dict_get key entries with
      | Some (Mapping child) =>
          let child' := deleted_tree child rest in
          if is_empty child' then dict_pop key entries
          else dict_set key (Mapping child') entries
      | _ => entries
      end
  end.

End ObjectDict.

(** ** [gemini/home_layout.py] *)

Module home_layout.
Import ObjectDict.

(** [DEFAULT_HOME_LAYOUT] *)
Definition DEFAULT_HOME_LAYOUT : LocationTree :=
  [("Kitchen", Mapping
     [("Benches", Mapping
        [("Island", Mapping
           [("Zones", Mapping
              [("Prep", Bucket ["knife_block"; "paper_towels"]);
               ("Appliance", Bucket ["toaster"])])]);
         ("Wall", Mapping
           [("Zones", Mapping
              [("Left_of_Sink", Bucket ["dish_soap"]);
               ("Right_of_Sink", Bucket [])])])]);
      ("Drawers", Mapping
        [("Top", Bucket ["knives"; "spoons"; "forks"]);
         ("Middle", Bucket ["tongs"; "ladle"])]);
      ("Cabinets", Mapping
        [("Upper_Left", Bucket ["mugs"; "coffee_filters"])]);
      ("Fridge", Mapping
        [("Crisper", Bucket ["apples"]);
         ("Door", Bucket ["milk"])])]);
   ("Office", Mapping
     [("Desks", Mapping
        [("Antoine", Mapping
           [("Surface", Mapping
              [("Left", Bucket ["lamp"]);
               ("Center", Bucket ["laptop_stand"])]);
            ("Drawers", Mapping
              [("Left", Bucket ["notebook"]);
               ("Right", Bucket ["stapler"])])]);
         ("Guest", Mapping
           [("Surface", Mapping [("Center", Bucket ["charging_station"])]);
            ("Drawers", Mapping [])])])])].

(** An index in which the same name is stored in two buckets, as two
    calls of [add_object] leave it. *)
Definition two_mugs : LocationTree :=
  [("Kitchen", Bucket ["mug"]); ("Office", Bucket ["mug"])].

End home_layout.

(** ** [gemini/process_graph.py] *)

Module ProcessGraph.

(** [self._adjacency : Dict[str, Set[str]]] *)
Abbreviation adjacency := (gmap string (gset string)).

Record ProcessGraph : Type := mkGraph {
  name : string;
  _adjacency : adjacency
}.

(** Python orders strings by code point. *)
Definition str_le (a b : string) : Prop := String.leb a b = true.
#[global] Instance str_le_dec : RelDecision str_le.
Proof. intros a b. unfold str_le. apply _. Defined.

(** [sorted(...)] of a set of strings. *)
Definition sorted (s : gset string) : list string := merge_sort str_le (elements s).

(** [steps]: the keys of the adjacency. *)
Definition steps (adj : adjacency) : gset string := dom adj.

(** [add_step] *)
Definition add_step (step : string) (adj : adjacency) : adjacency :=
  match adj !! step with
  | Some _ => adj
  | None => <[step := ∅]> adj
  end.

(** [remove_step] *)
Definition remove_step (step : string) (adj : adjacency) : adjacency :=
  match adj !! step with
  | Some _ => (fun neighbors : gset string => neighbors ∖ {[step]}) <$> delete step adj
  | None => adj
  end.

(** [new_step != neighbors] compares a [str] with a [set]: values of
    different types are never equal in Python, so [!=] is always true. *)
Definition str_ne_set (new_step : string) (neighbors : gset string) : bool := true.

(** The body of the [for neighbors in self._adjacency.values()] loop of
    [update_step], on one successor set. *)
Definition repoint (old_step new_step : string) (neighbors : gset string)
    : gset string :=
  if decide (old_step ∈ neighbors) then
    let discarded := neighbors ∖ {[old_step]} in
    if str_ne_set new_step discarded then discarded ∪ {[new_step]} else discarded
  else neighbors.

(** [update_step] *)
Definition update_step (old_step new_step : string) (adj : adjacency) : adjacency :=
  if decide (old_step = new_step) then adj
  else
    match adj !! old_step with
    | None => adj
    | Some _ =>
        let adj1 := add_step new_step adj in
        (* Outgoing edges *)
        let successors := default ∅ (adj1 !! old_step) in
        let adj2 := delete old_step adj1 in
        let adj3 :=
          <[new_step := default ∅ (adj2 !! new_step) ∪ (successors ∖ {[new_step]})]> adj2 in
        (* Incoming edges *)
        repoint old_step new_step <$> adj3
    end.

(** [add_transition] *)
Definition add_transition (start end_ : string) (adj : adjacency) : adjacency :=
  let adj2 := add_step end_ (add_step start adj) in
  <[start := default ∅ (adj2 !! start) ∪ {[end_]}]> adj2.

(** [remove_transition] *)
Definition remove_transition (start end_ : string) (adj : adjacency) : adjacency :=
  match adj !! start with
  | Some neighbors => <[start := neighbors ∖ {[end_]}]> adj
  | None => adj
  end.

(** The successor set behind [successors]. *)
Definition successor_set (step : string) (adj : adjacency) : gset string :=
  default ∅ (adj !! step).

(** The set behind [predecessors]. *)
Definition predecessor_set (step : string) (adj : adjacency) : gset string :=
  dom (filter (fun kv : string * gset string => step ∈ kv.2) adj).

(** [successors] *)
Definition successors (step : string) (adj : adjacency) : list string :=
  sorted (successor_set step adj).

(** [predecessors] *)
Definition predecessors (step : string) (adj : adjacency) : list string :=
  sorted (predecessor_set step adj).

(** There is a transition from [a] to [b]. *)
Definition edge (adj : adjacency) (a b : string) : Prop :=
  ∃ neighbors, adj !! a = Some neighbors ∧ b ∈ neighbors.

(** The name of a step after renaming [old_step] to [new_step]. *)
Definition renamed (old_step new_step step : string) : string :=
  if decide (step = old_step) then new_step else step.

(** Two steps with a single transition [a -> b]. *)
Definition single_edge (a b : string) : adjacency := {[ a := {[ b ]}; b := ∅ ]}.

(** Every step a transition leads to is itself a step of the graph. *)
Definition closed (adj : adjacency) : Prop :=
  ∀ a b, edge adj a b → b ∈ steps adj.

End ProcessGraph.

(** ** [gemini/preference_service.py] *)

Module PreferenceService.
Import ObjectDict ProcessGraph.

(** JSON-like values of a tool response. *)
Inductive json : Type :=
| JStr (s : string)
| JBool (b : bool)
| JList (l : list json)
| JObj (fields : list (string * json)).

(** A tool response: [Dict[str, object]]. *)
Definition envelope : Type := dict json.

Record PreferenceService : Type := mkService {
  _graphs : dict ProcessGraph;
  _object_dict : LocationTree
}.

(** A tool handler: a method of the service. *)
Definition handler : Type := stateful PreferenceService envelope.

(** [ObjectDict(...)] is built with the default [path_separator]. *)
Definition path_separator : string := "/".

(** A method of [self._object_dict] called from a handler. *)
Definition on_objects {A} (m : ObjectDict.method A) : stateful PreferenceService A :=
  fun svc =>
    let '(data, r) := m (_object_dict svc) in
    ({| _graphs := _graphs svc; _object_dict := data |}, r).

(** [repr] of a string (the choice of quote and the escapes of [repr]
    are not modelled; only messages contain it). *)
Definition repr (s : string) : string := "'" ++ s ++ "'".

(** [str] of a path argument, as an f-string prints it. *)
Definition str_of_path (path : path_arg) : string :=
  match path with
  | PStr s => s
  | PSeq l => "[" ++ String.concat ", " (map repr l) ++ "]"
  end.

Definition json_of_path (path : path_arg) : json :=
  match path with
  | PStr s => JStr s
  | PSeq l => JList (map JStr l)
  end.

(** [_serialize_path] *)
Definition _serialize_path (path : Path) : json := JList (map JStr path).

(** [_success] *)
Definition _success (payload : list (string * json)) : envelope :=
  ("status", JStr "success") :: payload.

(** [_error] *)
Definition _error (message : string) : envelope :=
  [("status", JStr "error"); ("message", JStr message)].

(** [_graph_snapshot] *)
Definition _graph_snapshot (graph : ProcessGraph) : json :=
  let steps := sorted (steps (_adjacency graph)) in
  let transitions :=
    flat_map (fun step =>
      map (fun successor => JObj [("from", JStr step); ("to", JStr successor)])
          (successors step (_adjacency graph))) steps in
  JObj [("name", JStr (name graph)); ("steps", JList (map JStr steps));
        ("transitions", JList transitions)].

Definition not_found (graph_name : string) : envelope :=
  _error ("Graph " ++ repr graph_name ++ " was not found.").

(** [tool_list_process_graphs] *)
Definition tool_list_process_graphs : handler := fun svc =>
  (svc, Ret (_success [("graphs", JList (map (fun kv => _graph_snapshot kv.2) (_graphs svc)))])).

(** [tool_create_process_graph] *)
Definition tool_create_process_graph (name : string) : handler := fun svc =>
  match dict_get name (_graphs svc) with
  | Some _ => (svc, Ret (_error ("Graph " ++ repr name ++ " already exists.")))
  | None =>
      let graph := mkGraph name ∅ in
      ({| _graphs := dict_set name graph (_graphs svc); _object_dict := _object_dict svc |},
       Ret (_success [("graph", _graph_snapshot graph)]))
  end.

(** [tool_delete_process_graph] *)
Definition tool_delete_process_graph (name : string) : handler := fun svc =>
  match dict_get name (_graphs svc) with
  | None => (svc, Ret (not_found name))
  | Some _ =>
      ({| _graphs := dict_pop name (_graphs svc); _object_dict := _object_dict svc |},
       Ret (_success [("message", JStr ("Graph " ++ name ++ " deleted."))]))
  end.

(** The common shape of the handlers that mutate one graph in place. *)
Definition with_graph (graph_name : string) (mutate : adjacency -> adjacency)
    : handler := fun svc =>
  match dict_get graph_name (_graphs svc) with
  | None => (svc, Ret (not_found graph_name))
  | Some graph =>
      let graph' := mkGraph (name graph) (mutate (_adjacency graph)) in
      ({| _graphs := dict_set graph_name graph' (_graphs svc);
          _object_dict := _object_dict svc |},
       Ret (_success [("graph", _graph_snapshot graph')]))
  end.

(** [tool_add_process_step] *)
Definition tool_add_process_step (graph_name step : string) : handler :=
  with_graph graph_name (add_step step).

(** [tool_update_process_step] *)
Definition tool_update_process_step (graph_name old_step new_step : string) : handler :=
  with_graph graph_name (update_step old_step new_step).

(** [tool_add_process_transition] *)
Definition tool_add_process_transition (graph_name start end_ : string) : handler :=
  with_graph graph_name (add_transition start end_).

(** [tool_remove_process_transition] *)
Definition tool_remove_process_transition (graph_name start end_ : string) : handler :=
  with_graph graph_name (remove_transition start end_).

(** [tool_list_object_locations]; [if object_name:] is false for [None]
    and for the empty string. *)
Definition tool_list_object_locations (object_name : option string) : handler :=
  fun svc =>
    match object_name with
    | Some (String _ _ as object_name) =>
        match find_object object_name (_object_dict svc) with
        | None => (svc, Ret (_error (repr object_name ++ " was not found.")))
        | Some path => (svc, Ret (_success [("locations", JList [_serialize_path path])]))
        end
    | _ =>
        let mapping :=
          map (fun kv : string * list Path => (kv.1, JList (map _serialize_path kv.2)))
              (list_objects (_object_dict svc)) in
        (svc, Ret (_success [("locations", JObj mapping)]))
    end.

(** [tool_add_object] *)
Definition tool_add_object (path : path_arg) (object_name : string)
    (allow_duplicates : bool) : handler :=
  let* added := on_objects (add_object path_separator path object_name allow_duplicates) in
  if negb added
  then mret (_error (repr object_name ++ " already exists at " ++ str_of_path path ++ "."))
  else mret (_success [("object", JStr object_name); ("path", json_of_path path)]).

(** [tool_move_object] *)
Definition tool_move_object (object_name : string) (new_path : path_arg)
    (old_path : option path_arg) (allow_duplicates : bool) : handler :=
  let* moved :=
    on_objects (move_object path_separator object_name new_path old_path allow_duplicates) in
  if negb moved
  then mret (_error ("Unable to move " ++ repr object_name ++ "."))
  else mret (_success [("object", JStr object_name); ("new_path", json_of_path new_path)]).

(** [tool_delete_path] *)
Definition tool_delete_path (path : path_arg) : handler :=
  let* deleted := on_objects (delete_path path_separator path) in
  if negb deleted
  then mret (_error ("Path " ++ str_of_path path ++ " does not exist."))
  else mret (_success [("message", JStr ("Removed path " ++ str_of_path path ++ "."))]).

(** The methods named by [_FUNCTION_REGISTRY]. *)
Inductive tool : Type :=
| list_process_graphs
| create_process_graph
| delete_process_graph
| add_process_step
| update_process_step
| add_process_transition
| remove_process_transition
| list_object_locations
| add_object_tool
| move_object_tool
| delete_path_tool.

(** [_FUNCTION_REGISTRY]: declaration name and method, in order. *)
Definition _FUNCTION_REGISTRY : list (string * tool) :=
  [("list_process_graphs", list_process_graphs);
   ("create_process_graph", create_process_graph);
   ("delete_process_graph", delete_process_graph);
   ("add_process_step", add_process_step);
   ("update_process_step", update_process_step);
   ("add_process_transition", add_process_transition);
   ("remove_process_transition", remove_process_transition);
   ("list_object_locations", list_object_locations);
   ("add_object", add_object_tool);
   ("move_object", move_object_tool);
   ("delete_path", delete_path_tool)].

(** [get_tool_callable] *)
Definition get_tool_callable (function_name : string) : outcome tool :=
  match dict_get function_name _FUNCTION_REGISTRY with
  | Some t => Ret t
  | None => Raise KeyError
  end.

End PreferenceService.

(** ** The tool-call boundary of [gemini/gemini.py] *)

Module Orchestrator.
Import ObjectDict ProcessGraph PreferenceService.

(** A value of [call.args], of one of the JSON types the declarations
    use: string, boolean, array of strings. *)
Inductive arg : Type :=
| AStr (s : string)
| ABool (b : bool)
| AList (l : list string).

(** [args : Dict[str, Any]] *)
Definition kwargs : Type := dict arg.

(** Python truth value. *)
Definition truthy (a : arg) : bool :=
  match a with
  | AStr s => negb (String.eqb s "")
  | ABool b => b
  | AList l => negb (is_empty l)
  end.

(** [tool( **args )] binds by keyword: an unexpected keyword or a missing
    required parameter is a [TypeError]. *)
Definition binds (params required : list string) (args : kwargs) : bool :=
  forallb (fun kv : string * arg => bool_decide (kv.1 ∈ params)) args
  && forallb (fun r => bool_decide (is_Some (dict_get r args))) required.

(** A parameter used as a string. The handlers are modelled on strings,
    as their annotations say; a value of another type is outside the
    model and is turned into [TypeError] here. *)
Definition as_str (a : option arg) : outcome string :=
  match a with
  | Some (AStr s) => Ret s
  | _ => Raise TypeError
  end.

(** A parameter used as a path: [_normalize_path] takes a string or a
    sequence; [tuple(path)] of a boolean is a [TypeError]. *)
Definition as_path (a : option arg) : outcome path_arg :=
  match a with
  | Some (AStr s) => Ret (PStr s)
  | Some (AList l) => Ret (PSeq l)
  | _ => Raise TypeError
  end.

(** A parameter used as a condition, with its default. *)
Definition as_flag (a : option arg) : bool :=
  match a with
  | Some v => truthy v
  | None => false
  end.

(** [tool( **args )] for each registered method. *)
Definition call (t : tool) (args : kwargs) : handler :=
  let str k := pure (as_str (dict_get k args)) in
  let path k := pure (as_path (dict_get k args)) in
  let bound params required (h : handler) : handler :=
    if binds params required args then h else mraise TypeError in
  match t with
  | list_process_graphs => bound [] [] tool_list_process_graphs
  | create_process_graph =>
      bound ["name"] ["name"]
        (let* name := str "name" in tool_create_process_graph name)
  | delete_process_graph =>
      bound ["name"] ["name"]
        (let* name := str "name" in tool_delete_process_graph name)
  | add_process_step =>
      bound ["graph_name"; "step"] ["graph_name"; "step"]
        (let* graph_name := str "graph_name" in
         let* step := str "step" in
         tool_add_process_step graph_name step)
  | update_process_step =>
      bound ["graph_name"; "old_step"; "new_step"] ["graph_name"; "old_step"; "new_step"]
        (let* graph_name := str "graph_name" in
         let* old_step := str "old_step" in
         let* new_step := str "new_step" in
         tool_update_process_step graph_name old_step new_step)
  | add_process_transition =>
      bound ["graph_name"; "start"; "end"] ["graph_name"; "start"; "end"]
        (let* graph_name := str "graph_name" in
         let* start := str "start" in
         let* end_ := str "end" in
         tool_add_process_transition graph_name start end_)
  | remove_process_transition =>
      bound ["graph_name"; "start"; "end"] ["graph_name"; "start"; "end"]
        (let* graph_name := str "graph_name" in
         let* start := str "start" in
         let* end_ := str "end" in
         tool_remove_process_transition graph_name start end_)
  | list_object_locations =>
      bound ["object_name"] []
        (if as_flag (dict_get "object_name" args)
         then let* object_name := str "object_name" in
              tool_list_object_locations (Some object_name)
         else tool_list_object_locations None)
  | add_object_tool =>
      bound ["path"; "object_name"; "allow_duplicates"] ["path"; "object_name"]
        (let* p := path "path" in
         let* object_name := str "object_name" in
         tool_add_object p object_name (as_flag (dict_get "allow_duplicates" args)))
  | move_object_tool =>
      bound ["object_name"; "new_path"; "old_path"; "allow_duplicates"]
            ["object_name"; "new_path"]
        (let* object_name := str "object_name" in
         let* new_path := path "new_path" in
         let* old_path :=
           match dict_get "old_path" args with
           | None => mret None
           | Some a => let* p := pure (as_path (Some a)) in mret (Some p)
           end in
         tool_move_object object_name new_path old_path
                          (as_flag (dict_get "allow_duplicates" args)))
  | delete_path_tool =>
      bound ["path"] ["path"]
        (let* p := path "path" in tool_delete_path p)
  end.

(** [_execute_tool_call]: the registry lookup, then [tool( **args )] under
    [except TypeError] and [except Exception]. ([args] is a dictionary by
    its type, so the [isinstance] test passes; the text of the caught
    exception, which the source appends to the message, is not
    modelled.) *)
Definition _execute_tool_call (name : string) (args : kwargs)
    (svc : PreferenceService) : PreferenceService * envelope :=
  match get_tool_callable name with
  | Raise _ => (svc, _error ("Tool " ++ repr name ++ " is not registered."))
  | Ret t =>
      match call t args svc with
      | (svc', Ret result) => (svc', result)
      | (svc', Raise TypeError) =>
          (svc', _error ("Invalid arguments for " ++ repr name ++ ": "))
      | (svc', Raise _) => (svc', _error ("Tool " ++ repr name ++ " failed: "))
      end
  end.



(** The service seeded with the default layout, without any graph. *)
Definition seeded_service : PreferenceService :=
  {| _graphs := []; _object_dict := home_layout.DEFAULT_HOME_LAYOUT |}.

(** A function call of a tool-call event: [name], [id] and [args] may
    each be missing. *)
Record FunctionCall : Type := mkCall {
  call_name : option string;
  call_id : option string;
  call_args : option kwargs
}.

(** [types.FunctionResponse(name=..., response=..., id=...)] *)
Record FunctionResponse : Type := mkResponse {
  response_name : string;
  response : envelope;
  response_id : string
}.

(** [not name or call_id is None]: the call is skipped. *)
Definition skipped (call : FunctionCall) : bool :=
  match call_name call, call_id call with
  | Some (String _ _), Some _ => false
  | _, _ => true
  end.

(** The body of [_handle_tool_call] under the lock: the loop over the
    function calls of one event, with the responses collected in order.
    The responses are sent as one batch when there are any; the lock and
    the awaits are not part of the model. *)
Fixpoint _handle_tool_call (function_calls : list FunctionCall)
    (svc : PreferenceService) : PreferenceService * list FunctionResponse :=
  match function_calls with
  | [] => (svc, [])
  | call :: rest =>
      match call_name call, call_id call with
      | Some (String _ _ as name), Some call_id =>
          let args := default [] (call_args call) in
          let '(svc1, tool_result) := _execute_tool_call name args svc in
          let '(svc2, responses) := _handle_tool_call rest svc1 in
          (svc2, mkResponse name tool_result call_id :: responses)
      | _, _ => _handle_tool_call rest svc
      end
  end.

(** The parameters of each registered method, as its [def] lists them,
    and those without a default. *)
Definition signature (t : tool) : list string * list string :=
  match t with
  | list_process_graphs => ([], [])
  | create_process_graph | delete_process_graph => (["name"], ["name"])
  | add_process_step => (["graph_name"; "step"], ["graph_name"; "step"])
  | update_process_step =>
      (["graph_name"; "old_step"; "new_step"], ["graph_name"; "old_step"; "new_step"])
  | add_process_transition | remove_process_transition =>
      (["graph_name"; "start"; "end"], ["graph_name"; "start"; "end"])
  | list_object_locations => (["object_name"], [])
  | add_object_tool =>
      (["path"; "object_name"; "allow_duplicates"], ["path"; "object_name"])
  | move_object_tool =>
      (["object_name"; "new_path"; "old_path"; "allow_duplicates"],
       ["object_name"; "new_path"])
  | delete_path_tool => (["path"], ["path"])
  end.

(** Every process graph of the service is closed. *)
Definition closed_service (svc : PreferenceService) : Prop :=
  Forall (fun kv : string * ProcessGraph => closed (_adjacency kv.2)) (_graphs svc).

End Orchestrator.

(** * Properties *)

(** ** Dictionaries and lists *)

Module DictFacts.
Section dict.
Context {V : Type}.
Implicit Types (d : dict V) (k : string) (v : V).

Lemma dict_get_set_eq k v d : dict_get k (dict_set k v d) = Some v.
Proof.
  induction d as [|[k' v'] d IH]; simpl.
  - by rewrite decide_True.
  - destruct (decide (k = k')) as [->|Hne]; simpl.
    + by rewrite decide_True.
    + by rewrite decide_False.
Qed.

Lemma dict_get_set_ne k k' v d :
  k ≠ k' → dict_get k' (dict_set k v d) = dict_get k' d.
Proof.
  intros Hne. induction d as [|[k0 v0] d IH]; simpl.
  - by rewrite decide_False.
  - destruct (decide (k = k0)) as [->|Hk]; simpl.
    + by rewrite !decide_False.
    + destruct (decide (k' = k0)); done.
Qed.

Lemma dict_set_id k v d : dict_get k d = Some v → dict_set k v d = d.
Proof.
  induction d as [|[k' v'] d IH]; simpl; [done|].
  destruct (decide (k = k')) as [->|Hne].
  - by intros [= ->].
  - intros H. by rewrite IH.
Qed.

Lemma dict_set_set k v v' d : dict_set k v (dict_set k v' d) = dict_set k v d.
Proof.
  induction d as [|[k0 v0] d IH]; simpl.
  - by rewrite decide_True.
  - destruct (decide (k = k0)) as [->|Hk]; simpl.
    + by rewrite decide_True.
    + rewrite decide_False by done. by rewrite IH.
Qed.

Lemma dict_pop_set k v d :
  is_Some (dict_get k d) → dict_pop k (dict_set k v d) = dict_pop k d.
Proof.
  induction d as [|[k0 v0] d IH]; simpl.
  - by intros [? ?].
  - destruct (decide (k = k0)) as [->|Hk]; simpl.
    + by rewrite decide_True.
    + rewrite decide_False by done. intros H. by rewrite IH.
Qed.

Lemma dict_get_pop_ne k k' d :
  k ≠ k' → dict_get k' (dict_pop k d) = dict_get k' d.
Proof.
  intros Hne. induction d as [|[k0 v0] d IH]; simpl; [done|].
  destruct (decide (k = k0)) as [->|Hk]; simpl.
  - by rewrite decide_False.
  - destruct (decide (k' = k0)); done.
Qed.

Lemma dict_get_None k d : dict_get k d = None ↔ k ∉ dict_keys d.
Proof.
  unfold dict_keys. induction d as [|[k0 v0] d IH]; simpl.
  - split; [intros _; apply not_elem_of_nil | done].
  - rewrite not_elem_of_cons. destruct (decide (k = k0)) as [->|Hk].
    + split; [done | intros [? _]; done].
    + rewrite IH. tauto.
Qed.

Lemma dict_get_pop_eq k d :
  NoDup (dict_keys d) → dict_get k (dict_pop k d) = None.
Proof.
  unfold dict_keys. induction d as [|[k0 v0] d IH]; simpl; [done|].
  intros Hnd. apply NoDup_cons in Hnd as [Hk0 Hnd].
  destruct (decide (k = k0)) as [->|Hk]; simpl.
  - by apply dict_get_None.
  - rewrite decide_False by done. by apply IH.
Qed.

Lemma dict_get_Some_elem k v d : dict_get k d = Some v → (k, v) ∈ d.
Proof.
  induction d as [|[k0 v0] d IH]; simpl; [done|].
  destruct (decide (k = k0)) as [->|Hk].
  - intros [= ->]. apply list_elem_of_here.
  - intros H. apply list_elem_of_further. by apply IH.
Qed.

Lemma dict_keys_set k v d :
  is_Some (dict_get k d) → dict_keys (dict_set k v d) = dict_keys d.
Proof.
  unfold dict_keys. induction d as [|[k0 v0] d IH]; simpl.
  - by intros [? ?].
  - destruct (decide (k = k0)) as [->|Hk]; simpl; [done|].
    intros H. by rewrite IH.
Qed.

Lemma dict_keys_set_new k v d :
  dict_get k d = None → dict_keys (dict_set k v d) = dict_keys d ++ [k].
Proof.
  unfold dict_keys. induction d as [|[k0 v0] d IH]; simpl; [done|].
  destruct (decide (k = k0)) as [->|Hk]; simpl; [done|].
  intros H. by rewrite IH.
Qed.

Lemma dict_set_nonempty k v d : is_empty (dict_set k v d) = false.
Proof. destruct d as [|[k0 v0] d]; simpl; [done|]. by case_decide. Qed.

(** Popping a present key empties the dictionary exactly when it was
    the only key. *)
Lemma dict_pop_empty k d :
  is_Some (dict_get k d) → is_empty (dict_pop k d) = bool_decide (dict_keys d = [k]).
Proof.
  unfold dict_keys. destruct d as [|[k0 v0] d]; simpl.
  - by intros [? ?].
  - destruct (decide (k = k0)) as [->|Hk]; simpl.
    + intros _. destruct d as [|[??] ?]; simpl.
      * by rewrite bool_decide_eq_true_2.
      * by rewrite bool_decide_eq_false_2.
    + intros _. rewrite bool_decide_eq_false_2; [done|]. intros [= ? ?]. done.
Qed.
End dict.

Lemma elem_of_list_remove_first x l :
  is_Some (list_remove_first x l) ↔ x ∈ l.
Proof.
  induction l as [|y l IH]; simpl.
  - split; [intros [? ?]; done | intros H; by apply elem_of_nil in H].
  - destruct (decide (x = y)) as [->|Hne].
    + split; [intros _; apply list_elem_of_here | eauto].
    + rewrite elem_of_cons. destruct (list_remove_first x l) eqn:E.
      * split; [intros _; right; apply IH; eauto | eauto].
      * split; [intros [? ?]; done | intros [?|H]; [done|]].
        apply IH in H as [? ?]. done.
Qed.
End DictFacts.

(** ** Path normalisation *)

Module PathFacts.
Import ObjectDict DictFacts.

Lemma prefix_app sep rest : String.prefix sep (sep ++ rest)%string = true.
Proof.
  induction sep as [|c sep IH]; simpl.
  - by destruct rest.
  - destruct (ascii_dec c c); [done | congruence].
Qed.

Lemma split_from_skip sep u rest :
  split_from sep (String.length u) (u ++ rest)%string = split_from sep 0 rest.
Proof.
  induction u as [|c u IH]; simpl; [|done].
  by destruct rest.
Qed.

Lemma split_from_repeat c sep' n :
  split_from (String c sep') 0 (repeat_str (String c sep') n) = repeat "" (S n).
Proof.
  induction n as [|n IH]; [done|].
  change (repeat_str (String c sep') (S n))
    with (String c (sep' ++ repeat_str (String c sep') n)%string).
  cbn [split_from].
  change (String c (sep' ++ repeat_str (String c sep') n)%string)
    with (String c sep' ++ repeat_str (String c sep') n)%string.
  rewrite prefix_app.
  replace (String.length (String c sep') - 1) with (String.length sep')
    by (simpl; lia).
  rewrite split_from_skip, IH. done.
Qed.

Lemma filter_nonempty_repeat n : filter_nonempty (repeat "" n) = [].
Proof. induction n; simpl; done. Qed.

(** A string made of separators only has no segment. *)
Lemma normalize_separators sep n :
  _normalize_path sep (PStr (repeat_str sep n)) = Raise ValueError.
Proof.
  unfold _normalize_path, str_split. destruct sep as [|c sep']; [done|].
  by rewrite split_from_repeat, filter_nonempty_repeat.
Qed.

Lemma normalize_nonempty sep path normalized :
  _normalize_path sep path = Ret normalized → normalized ≠ [].
Proof.
  unfold _normalize_path. destruct path as [s|l].
  - destruct (str_split sep s) as [segs|]; [|done].
    destruct (filter_nonempty segs); [done|]. by intros [= <-].
  - destruct l; [done|]. by intros [= <-].
Qed.

Lemma normalize_PSeq sep normalized :
  normalized ≠ [] → _normalize_path sep (PSeq normalized) = Ret normalized.
Proof. by destruct normalized. Qed.

Lemma normalize_raises sep path e :
  _normalize_path sep path = Raise e → e = ValueError.
Proof.
  unfold _normalize_path, str_split. destruct path as [s|l].
  - destruct sep; [by intros [= <-]|].
    destruct (filter_nonempty _); [by intros [= <-] | done].
  - destruct l; [by intros [= <-] | done].
Qed.
End PathFacts.

(** ** Walking, ensuring and writing buckets *)

Module TreeFacts.
Import ObjectDict DictFacts PathFacts.

Lemma iter_Mapping entries path :
  _iter_objects (Mapping entries) path = iter_entries entries path.
Proof.
  induction entries as [|[k c] es IH]; simpl; [done|]. by rewrite <- IH.
Qed.

Lemma iter_object_paths_entries data : iter_object_paths data = iter_entries data [].
Proof. apply iter_Mapping. Qed.

(** Well-formedness, unfolded one level. *)
Lemma wf_Mapping entries :
  wf_value (Mapping entries) = true ↔
  NoDup (dict_keys entries) ∧ Forall (fun kv => wf_value kv.2 = true) entries.
Proof.
  unfold dict_keys. simpl. rewrite andb_true_iff, bool_decide_eq_true.
  apply and_iff_compat_l.
  induction entries as [|[k c] es IH]; simpl.
  - split; [intros _; constructor | done].
  - rewrite andb_true_iff, Forall_cons, IH. done.
Qed.

Lemma wf_child key entries child :
  wf_tree entries → dict_get key entries = Some (Mapping child) → wf_tree child.
Proof.
  unfold wf_tree. rewrite wf_Mapping. intros [_ Hall] Hget.
  apply dict_get_Some_elem in Hget.
  rewrite Forall_forall in Hall. apply (Hall _ Hget).
Qed.

Lemma wf_keys entries : wf_tree entries → NoDup (dict_keys entries).
Proof. unfold wf_tree. rewrite wf_Mapping. tauto. Qed.

(** *** [_iter_objects] under [dict_set] and [dict_pop] *)

Lemma iter_split key entries v0 path :
  dict_get key entries = Some v0 →
  ∃ l1 l2,
    (∀ v, iter_entries (dict_set key v entries) path
          = l1 ++ _iter_objects v (path ++ [key]) ++ l2)
    ∧ iter_entries (dict_pop key entries) path = l1 ++ l2.
Proof.
  induction entries as [|[k c] es IH]; simpl; [done|].
  destruct (decide (key = k)) as [->|Hne].
  - intros _. exists [], (iter_entries es path). split; [|done].
    intros v. done.
  - intros Hget. destruct (IH Hget) as (l1 & l2 & Hset & Hpop).
    exists (_iter_objects c (path ++ [k]) ++ l1), l2. split.
    + intros v. simpl. rewrite Hset. by rewrite <- app_assoc.
    + simpl. rewrite Hpop. by rewrite <- app_assoc.
Qed.

Lemma iter_set_new key entries v path :
  dict_get key entries = None →
  iter_entries (dict_set key v entries) path
  = iter_entries entries path ++ _iter_objects v (path ++ [key]).
Proof.
  induction entries as [|[k c] es IH]; simpl.
  - intros _. by rewrite app_nil_r.
  - destruct (decide (key = k)) as [->|Hne]; [done|].
    intros Hget. simpl. rewrite IH by done. by rewrite <- app_assoc.
Qed.

(** *** [_walk], [ensure] and [bucket_store] *)

Lemma walk_cons entries key rest :
  _walk (Mapping entries) (key :: rest) =
  match dict_get key entries with
  | Some child => _walk child rest
  | None => Raise KeyError
  end.
Proof. done. Qed.

Lemma walk_Bucket_cons items key rest : _walk (Bucket items) (key :: rest) = Raise KeyError.
Proof. done. Qed.

Lemma walk_app node q r :
  _walk node (q ++ r) =
  match _walk node q with
  | Ret n => _walk n r
  | Raise e => Raise e
  end.
Proof.
  revert node. induction q as [|k q IH]; intros node; simpl; [done|].
  destruct node as [items|es]; [done|].
  destruct (dict_get k es); [apply IH | done].
Qed.

(** [ensure] without creation never changes the tree. *)
Lemma ensure_false_unchanged path : ∀ data, (ensure false data path).1 = data.
Proof.
  induction path as [|key rest IH]; intros data; [done|].
  destruct rest as [|k2 rest'].
  - simpl. destruct (dict_get key data) as [[b|es]|]; done.
  - change (ensure false data (key :: k2 :: rest'))
      with (match dict_get key data with
            | Some (Mapping child) =>
                let '(child', r) := ensure false child (k2 :: rest') in
                (dict_set key (Mapping child') data, r)
            | Some (Bucket _) => (data, Raise TypeError)
            | None => (data, Raise KeyError)
            end).
    destruct (dict_get key data) as [[b|es]|] eqn:Hget; [done| |done].
    specialize (IH es). destruct (ensure false es (k2 :: rest')) as [child' r].
    simpl in *. subst child'. by apply dict_set_id.
Qed.

(** Unfolding equations: a path of one key, a path of several. *)
Lemma ensure_cons create parent key k2 rest :
  ensure create parent (key :: k2 :: rest) =
  match dict_get key parent with
  | Some (Mapping child) =>
      let '(child', r) := ensure create child (k2 :: rest) in
      (dict_set key (Mapping child') parent, r)
  | Some (Bucket _) => (parent, Raise TypeError)
  | None =>
      if create then
        let '(child', r) := ensure create [] (k2 :: rest) in
        (dict_set key (Mapping child') parent, r)
      else (parent, Raise KeyError)
  end.
Proof. done. Qed.

Lemma bucket_store_cons key k2 rest items data :
  bucket_store (key :: k2 :: rest) items data =
  match dict_get key data with
  | Some (Mapping child) =>
      dict_set key (Mapping (bucket_store (k2 :: rest) items child)) data
  | _ => data
  end.
Proof. done. Qed.

Lemma descend_cons current key k2 rest parents :
  descend current (key :: k2 :: rest) parents =
  match dict_get key current with
  | Some (Mapping child) => descend child (k2 :: rest) ((current, key) :: parents)
  | _ => None
  end.
Proof. simpl. by destruct (dict_get key current) as [[?|?]|]. Qed.

Lemma detach_cons entries key k2 rest :
  detach entries (key :: k2 :: rest) =
  match dict_get key entries with
  | Some (Mapping child) =>
      if is_empty (detach child (k2 :: rest)) then dict_pop key entries
      else dict_set key (Mapping (detach child (k2 :: rest))) entries
  | _ => entries
  end.
Proof. done. Qed.

Lemma left_empty_cons entries key k2 rest :
  left_empty entries (key :: k2 :: rest) =
  bool_decide (dict_keys entries = [key])
  && match dict_get key entries with
     | Some (Mapping child) => left_empty child (k2 :: rest)
     | _ => false
     end.
Proof. done. Qed.

(** A path that walks to a bucket: its first key leads to a mapping,
    unless it is the only key. *)
Lemma walk_bucket_cons entries key k2 rest items :
  _walk (Mapping entries) (key :: k2 :: rest) = Ret (Bucket items) →
  ∃ child, dict_get key entries = Some (Mapping child)
           ∧ _walk (Mapping child) (k2 :: rest) = Ret (Bucket items).
Proof.
  rewrite walk_cons. destruct (dict_get key entries) as [[b|child]|]; [done| |done].
  intros H. by exists child.
Qed.

Lemma walk_bucket_single entries last items :
  _walk (Mapping entries) [last] = Ret (Bucket items) ↔
  dict_get last entries = Some (Bucket items).
Proof.
  rewrite walk_cons. destruct (dict_get last entries) as [v|]; simpl.
  - split; [by intros [= ->] | by intros [= ->]].
  - split; done.
Qed.

(** Induction on a non-empty path that walks to a bucket. *)
Lemma bucket_path_ind (P : LocationTree → Path → list string → Prop) :
  (∀ entries last items,
      dict_get last entries = Some (Bucket items) → P entries [last] items) →
  (∀ entries key k2 rest child items,
      dict_get key entries = Some (Mapping child) →
      _walk (Mapping child) (k2 :: rest) = Ret (Bucket items) →
      P child (k2 :: rest) items → P entries (key :: k2 :: rest) items) →
  ∀ path entries items,
    path ≠ [] → _walk (Mapping entries) path = Ret (Bucket items) →
    P entries path items.
Proof.
  intros Hone Hmore path. induction path as [|key rest IH]; intros entries items Hne Hw.
  - done.
  - destruct rest as [|k2 rest'].
    + apply Hone. by apply walk_bucket_single.
    + apply walk_bucket_cons in Hw as (child & Hget & Hw).
      eapply Hmore; [done..|]. by apply IH.
Qed.

Lemma ensure_existing create path data items :
  path ≠ [] → _walk (Mapping data) path = Ret (Bucket items) →
  ensure create data path = (data, Ret items).
Proof.
  intros Hne Hw. revert path data items Hne Hw.
  apply (bucket_path_ind (fun data path items => ensure create data path = (data, Ret items))).
  - intros entries last items Hget. simpl. by rewrite Hget.
  - intros entries key k2 rest child items Hget _ IH.
    rewrite ensure_cons, Hget, IH. by rewrite dict_set_id.
Qed.

Lemma ensure_Ret_walk create path : ∀ data data' items,
  ensure create data path = (data', Ret items) →
  _walk (Mapping data') path = Ret (Bucket items).
Proof.
  induction path as [|key rest IH]; intros data data' items; [done|].
  destruct rest as [|k2 rest'].
  - simpl. destruct (dict_get key data) as [[b|es]|] eqn:Hget.
    + intros [= <- <-]. by rewrite Hget.
    + done.
    + destruct create; [|done]. intros [= <- <-]. by rewrite dict_get_set_eq.
  - rewrite ensure_cons.
    destruct (dict_get key data) as [[b|es]|] eqn:Hget; [done| |].
    + destruct (ensure create es (k2 :: rest')) as [child' r] eqn:E.
      intros [= <- ->]. rewrite walk_cons, dict_get_set_eq. by eapply IH.
    + destruct create; [|done].
      destruct (ensure true [] (k2 :: rest')) as [child' r] eqn:E.
      intros [= <- ->]. rewrite walk_cons, dict_get_set_eq. by eapply IH.
Qed.

Lemma ensure_false_Ret path data data' items :
  ensure false data path = (data', Ret items) →
  data' = data ∧ path ≠ [] ∧ _walk (Mapping data) path = Ret (Bucket items).
Proof.
  intros H. pose proof (ensure_false_unchanged path data) as Hd.
  rewrite H in Hd. simpl in Hd. subst data'. split; [done|]. split.
  - by destruct path.
  - by eapply ensure_Ret_walk.
Qed.

(** [ensure] only ever adds empty mappings and an empty bucket. *)
Lemma ensure_iter create path : ∀ data data' r prefix,
  ensure create data path = (data', r) →
  iter_entries data' prefix = iter_entries data prefix.
Proof.
  induction path as [|key rest IH]; intros data data' r prefix.
  - by intros [= <- _].
  - destruct rest as [|k2 rest'].
    + simpl. destruct (dict_get key data) as [[b|es]|] eqn:Hget.
      * by intros [= <- _].
      * by intros [= <- _].
      * destruct create; [|by intros [= <- _]]. intros [= <- _].
        rewrite iter_set_new by done. simpl. by rewrite app_nil_r.
    + rewrite ensure_cons.
      destruct (dict_get key data) as [[b|es]|] eqn:Hget.
      * by intros [= <- _].
      * destruct (ensure create es (k2 :: rest')) as [child' r'] eqn:E.
        intros [= <- _].
        destruct (iter_split key data _ prefix Hget) as (l1 & l2 & Hset & _).
        pose proof (Hset (Mapping es)) as H0.
        rewrite dict_set_id in H0 by done.
        rewrite Hset, H0, !iter_Mapping. by rewrite (IH _ _ _ _ E).
      * destruct create; [|by intros [= <- _]].
        destruct (ensure true [] (k2 :: rest')) as [child' r'] eqn:E.
        intros [= <- _]. rewrite iter_set_new by done.
        rewrite iter_Mapping, (IH _ _ _ _ E). simpl. by rewrite app_nil_r.
Qed.

Lemma ensure_type_mismatch create path : ∀ data,
  type_mismatch data path → ensure create data path = (data, Raise TypeError).
Proof.
  induction path as [|key rest IH]; intros data Hm.
  { destruct Hm as [(q & r & items & Hp & Hq & Hr & _) | (? & ? & _)]; [|done].
    symmetry in Hp. apply app_eq_nil in Hp as [? ?]. done. }
  destruct rest as [|k2 rest'].
  - destruct Hm as [(q & r & items & Hp & Hq & Hr & _) | (es & _ & Hw)].
    + destruct q as [|? [|? ?]]; [done| |]; destruct r; simplify_eq.
    + rewrite walk_cons in Hw. simpl.
      destruct (dict_get key data) as [[b|es']|]; simplify_eq. done.
  - rewrite ensure_cons.
    destruct Hm as [(q & r & items & Hp & Hq & Hr & Hw) | (es & _ & Hw)].
    + destruct q as [|k q']; [done|]. injection Hp as <- Hp.
      rewrite walk_cons in Hw.
      destruct (dict_get key data) as [[b|es']|] eqn:Hget; [done| |done].
      destruct q' as [|k' q''].
      { simpl in Hw. done. }
      rewrite (IH es').
      * by rewrite dict_set_id.
      * left. exists (k' :: q''), r, items. done.
    + rewrite walk_cons in Hw.
      destruct (dict_get key data) as [[b|es']|] eqn:Hget; [done| |done].
      rewrite (IH es').
      * by rewrite dict_set_id.
      * right. by exists es.
Qed.

(** *** Writing through a bucket reference *)

Lemma bucket_store_walk path entries items items' :
  path ≠ [] → _walk (Mapping entries) path = Ret (Bucket items) →
  _walk (Mapping (bucket_store path items' entries)) path = Ret (Bucket items').
Proof.
  intros Hne Hw. revert path entries items Hne Hw.
  apply (bucket_path_ind (fun entries path items =>
    _walk (Mapping (bucket_store path items' entries)) path = Ret (Bucket items'))).
  - intros entries last items Hget. simpl. by rewrite dict_get_set_eq.
  - intros entries key k2 rest child items Hget _ IH.
    rewrite bucket_store_cons, Hget, walk_cons, dict_get_set_eq. done.
Qed.

Lemma bucket_store_id path entries items :
  path ≠ [] → _walk (Mapping entries) path = Ret (Bucket items) →
  bucket_store path items entries = entries.
Proof.
  intros Hne Hw. revert path entries items Hne Hw.
  apply (bucket_path_ind (fun entries path items =>
    bucket_store path items entries = entries)).
  - intros entries last items Hget. simpl. by apply dict_set_id.
  - intros entries key k2 rest child items Hget _ IH.
    rewrite bucket_store_cons, Hget, IH. by apply dict_set_id.
Qed.

(** What [iter_object_paths] yields around a bucket does not depend on
    the bucket's content. *)
Lemma bucket_store_iter path entries items :
  path ≠ [] → _walk (Mapping entries) path = Ret (Bucket items) →
  ∀ prefix, ∃ l1 l2, ∀ items',
    iter_entries (bucket_store path items' entries) prefix
    = l1 ++ map (fun obj => (obj, prefix ++ path)) items' ++ l2.
Proof.
  intros Hne Hw. revert path entries items Hne Hw.
  apply (bucket_path_ind (fun entries path items =>
    ∀ prefix, ∃ l1 l2, ∀ items',
      iter_entries (bucket_store path items' entries) prefix
      = l1 ++ map (fun obj => (obj, prefix ++ path)) items' ++ l2)).
  - intros entries last items Hget prefix.
    destruct (iter_split last entries _ prefix Hget) as (l1 & l2 & Hset & _).
    exists l1, l2. intros items'. simpl. by rewrite Hset.
  - intros entries key k2 rest child items Hget _ IH prefix.
    destruct (iter_split key entries _ prefix Hget) as (l1 & l2 & Hset & _).
    destruct (IH (prefix ++ [key])) as (l1' & l2' & Hin).
    exists (l1 ++ l1'), (l2' ++ l2). intros items'.
    rewrite bucket_store_cons, Hget, Hset, iter_Mapping, Hin.
    rewrite <- !app_assoc. simpl. done.
Qed.

(** *** The pairs yielded before a bucket *)

Lemma entries_before_absent key entries :
  dict_get key entries = None → entries_before key entries = entries.
Proof.
  induction entries as [|[k c] es IH]; simpl; [done|].
  destruct (decide (key = k)); [done|]. intros H. by rewrite IH.
Qed.

Lemma iter_split_before key entries v0 prefix :
  dict_get key entries = Some v0 →
  ∃ l2, ∀ v,
    iter_entries (dict_set key v entries) prefix
    = iter_entries (entries_before key entries) prefix
      ++ _iter_objects v (prefix ++ [key]) ++ l2.
Proof.
  induction entries as [|[k c] es IH]; simpl; [done|].
  destruct (decide (key = k)) as [->|Hne].
  - intros _. exists (iter_entries es prefix). intros v. done.
  - intros Hget. destruct (IH Hget) as (l2 & Hset).
    exists l2. intros v. simpl. rewrite Hset. by rewrite <- app_assoc.
Qed.

Lemma earlier_cons entries prefix key rest :
  earlier entries prefix (key :: rest) =
  iter_entries (entries_before key entries) prefix
  ++ match dict_get key entries with
     | Some (Mapping child) => earlier child (prefix ++ [key]) rest
     | _ => []
     end.
Proof. done. Qed.

(** The traversal around the bucket [_ensure_bucket] returns: first the
    pairs of [earlier], then the bucket, whatever it holds. *)
Lemma earlier_iter path : ∀ data d1 bucket prefix,
  ensure true data path = (d1, Ret bucket) →
  ∃ l2, ∀ items',
    iter_entries (bucket_store path items' d1) prefix
    = earlier data prefix path
      ++ map (fun obj => (obj, prefix ++ path)) items' ++ l2.
Proof.
  induction path as [|key rest IH]; intros data d1 bucket prefix; [done|].
  destruct rest as [|k2 rest'].
  - simpl. destruct (dict_get key data) as [[b|es]|] eqn:Hget.
    + intros [= <- <-].
      destruct (iter_split_before key data _ prefix Hget) as (l2 & Hset).
      exists l2. intros items'. rewrite Hset. simpl. by rewrite app_nil_r.
    + done.
    + intros [= <- <-]. exists []. intros items'.
      rewrite dict_set_set, iter_set_new by done.
      rewrite entries_before_absent by done. simpl.
      by rewrite !app_nil_r.
  - rewrite ensure_cons, earlier_cons.
    replace (prefix ++ key :: k2 :: rest') with ((prefix ++ [key]) ++ k2 :: rest')
      by (by rewrite <- app_assoc).
    destruct (dict_get key data) as [[b|es]|] eqn:Hget; [done| |].
    + destruct (ensure true es (k2 :: rest')) as [child' r] eqn:E.
      intros [= <- ->].
      destruct (IH _ _ _ (prefix ++ [key]) E) as (l2' & Hin).
      destruct (iter_split_before key data _ prefix Hget) as (l2 & Hset).
      exists (l2' ++ l2). intros items'.
      rewrite bucket_store_cons, dict_get_set_eq, dict_set_set, Hset.
      rewrite iter_Mapping, Hin. by rewrite <- !app_assoc.
    + destruct (ensure true [] (k2 :: rest')) as [child' r] eqn:E.
      intros [= <- ->].
      destruct (IH _ _ _ (prefix ++ [key]) E) as (l2' & Hin).
      exists l2'. intros items'.
      rewrite bucket_store_cons, dict_get_set_eq, dict_set_set.
      rewrite iter_set_new by done.
      rewrite entries_before_absent by done.
      rewrite iter_Mapping, Hin, app_nil_r. by rewrite earlier_cons.
Qed.
End TreeFacts.

(** ** Pruning and removal *)

Module PruneFacts.
Import ObjectDict DictFacts PathFacts TreeFacts.

Lemma unwind_nonempty child parents :
  is_empty child = false → unwind child parents = plug child parents.
Proof. destruct parents as [|[parent key] up]; simpl; [done|]. by intros ->. Qed.

Lemma unwind_cons child parent key up :
  unwind child ((parent, key) :: up) =
  if is_empty child then unwind (dict_pop key parent) up
  else plug (dict_set key (Mapping child) parent) up.
Proof. done. Qed.

(** The descent and the upward loop of [_prune_empty_branch] against
    the recursion [detach], for any stack of parents already pushed. *)
Lemma descend_unwind path entries items :
  path ≠ [] → _walk (Mapping entries) path = Ret (Bucket items) →
  ∀ parents, ∃ current last ps,
    descend entries path parents = Some (current, last, ps)
    ∧ dict_get last current = Some (Bucket items)
    ∧ unwind (match items with [] => dict_pop last current | _ => current end) ps
      = unwind (detach entries path) parents.
Proof.
  intros Hne Hw. revert path entries items Hne Hw.
  apply (bucket_path_ind (fun entries path items =>
    ∀ parents, ∃ current last ps,
      descend entries path parents = Some (current, last, ps)
      ∧ dict_get last current = Some (Bucket items)
      ∧ unwind (match items with [] => dict_pop last current | _ => current end) ps
        = unwind (detach entries path) parents)).
  - intros entries last items Hget parents.
    exists entries, last, parents. split; [done|]. split; [done|].
    simpl. rewrite Hget. by destruct items.
  - intros entries key k2 rest child items Hget _ IH parents.
    destruct (IH ((entries, key) :: parents)) as (cur & last & ps & Hd & Hl & Hu).
    exists cur, last, ps. rewrite descend_cons, Hget.
    split; [exact Hd|]. split; [exact Hl|].
    rewrite Hu, detach_cons, Hget, unwind_cons.
    destruct (is_empty (detach child (k2 :: rest))) eqn:E; [done|].
    symmetry. apply unwind_nonempty, dict_set_nonempty.
Qed.

Lemma prune_detach sep path normalized data items :
  _normalize_path sep path = Ret normalized →
  _walk (Mapping data) normalized = Ret (Bucket items) →
  _prune_empty_branch sep path data = (detach data normalized, Ret tt).
Proof.
  intros Hn Hw. unfold _prune_empty_branch. rewrite Hn.
  pose proof (normalize_nonempty _ _ _ Hn) as Hne.
  destruct (descend_unwind normalized data items Hne Hw [])
    as (cur & last & ps & -> & Hl & Hu).
  rewrite Hl. simpl in Hu. rewrite <- Hu. by destruct items.
Qed.

(** A bucket that still holds something: nothing is pruned. *)
Lemma detach_nonempty_bucket path entries items :
  path ≠ [] → _walk (Mapping entries) path = Ret (Bucket items) →
  items ≠ [] → detach entries path = entries.
Proof.
  intros Hne Hw Hi. revert path entries items Hne Hw Hi.
  apply (bucket_path_ind (fun entries path items =>
    items ≠ [] → detach entries path = entries)).
  - intros entries last items Hget Hi. simpl. rewrite Hget. by destruct items.
  - intros entries key k2 rest child items Hget Hw IH Hi.
    rewrite detach_cons, Hget, (IH Hi).
    rewrite walk_cons in Hw.
    destruct child as [|[k c] child]; [done|]. simpl.
    by apply dict_set_id.
Qed.

(** Pruning removes nodes that hold no object. *)
Lemma detach_iter path entries items :
  path ≠ [] → _walk (Mapping entries) path = Ret (Bucket items) →
  ∀ prefix, iter_entries (detach entries path) prefix = iter_entries entries prefix.
Proof.
  intros Hne Hw. revert path entries items Hne Hw.
  apply (bucket_path_ind (fun entries path items =>
    ∀ prefix, iter_entries (detach entries path) prefix = iter_entries entries prefix)).
  - intros entries last items Hget prefix. simpl. rewrite Hget.
    destruct items; [|done].
    destruct (iter_split last entries _ prefix Hget) as (l1 & l2 & Hset & ->).
    pose proof (Hset (Bucket [])) as H0. rewrite dict_set_id in H0 by done.
    by rewrite H0.
  - intros entries key k2 rest child items Hget _ IH prefix.
    rewrite detach_cons, Hget.
    destruct (iter_split key entries _ prefix Hget) as (l1 & l2 & Hset & Hpop).
    pose proof (Hset (Mapping child)) as H0. rewrite dict_set_id in H0 by done.
    rewrite H0, iter_Mapping, <- (IH (prefix ++ [key])).
    destruct (detach child (k2 :: rest)) as [|e d] eqn:E; simpl.
    + by rewrite Hpop.
    + by rewrite Hset, iter_Mapping.
Qed.

(** *** [remove_object] in one step *)

Lemma remove_at sep object_name path normalized data items items' :
  _normalize_path sep path = Ret normalized →
  _walk (Mapping data) normalized = Ret (Bucket items) →
  list_remove_first object_name items = Some items' →
  remove_object sep object_name (Some path) data
  = (removed_tree normalized items' data, Ret true).
Proof.
  intros Hn Hw Hr. pose proof (normalize_nonempty _ _ _ Hn) as Hne.
  unfold remove_object, _ensure_bucket. rewrite Hn.
  rewrite (ensure_existing false normalized data items Hne Hw), Hr.
  unfold bind.
  rewrite (prune_detach sep path normalized _ items' Hn
             (bucket_store_walk _ _ _ _ Hne Hw)).
  done.
Qed.

Lemma walk_root_nonempty data path items :
  _walk (Mapping data) path = Ret (Bucket items) → path ≠ [].
Proof. by destruct path. Qed.

Lemma remove_found sep object_name found data items items' :
  find_object object_name data = Some found →
  _walk (Mapping data) found = Ret (Bucket items) →
  list_remove_first object_name items = Some items' →
  remove_object sep object_name None data
  = (removed_tree found items' data, Ret true).
Proof.
  intros Hf Hw Hr. pose proof (walk_root_nonempty _ _ _ Hw) as Hne.
  unfold remove_object. rewrite Hf. unfold bind, _ensure_bucket.
  rewrite (normalize_PSeq sep found Hne).
  rewrite (ensure_existing false found data items Hne Hw).
  unfold remove_from. rewrite Hr.
  rewrite (prune_detach sep (PSeq found) found _ items' (normalize_PSeq sep found Hne)
             (bucket_store_walk _ _ _ _ Hne Hw)).
  done.
Qed.

(** Every run of [remove_object]: either one occurrence left one
    bucket, or nothing changed and the result is not [True]. *)
Lemma remove_object_cases sep object_name old_path data :
  (∃ normalized items items',
      _walk (Mapping data) normalized = Ret (Bucket items)
      ∧ list_remove_first object_name items = Some items'
      ∧ match old_path with
        | Some p => _normalize_path sep p = Ret normalized
        | None => find_object object_name data = Some normalized
        end
      ∧ remove_object sep object_name old_path data
        = (removed_tree normalized items' data, Ret true))
  ∨ (∃ r, r ≠ Ret true ∧ remove_object sep object_name old_path data = (data, r)).
Proof.
  destruct old_path as [p|].
  - destruct (_normalize_path sep p) as [normalized|e] eqn:Hn.
    + destruct (ensure false data normalized) as [d1 [items|e]] eqn:He.
      * apply ensure_false_Ret in He as (-> & Hne & Hw).
        destruct (list_remove_first object_name items) as [items'|] eqn:Hr.
        -- left. exists normalized, items, items'. split_and!; [done..|].
           by eapply remove_at.
        -- right. exists (Ret false). split; [done|].
           unfold remove_object, _ensure_bucket. rewrite Hn.
           rewrite (ensure_existing false normalized data items Hne Hw), Hr. done.
      * right. pose proof (ensure_false_unchanged normalized data) as Hd.
        rewrite He in Hd. simpl in Hd. subst d1.
        unfold remove_object, _ensure_bucket. rewrite Hn, He.
        destruct e; [by exists (Ret false) | by exists (Raise ValueError)
                    | by exists (Raise TypeError)].
    + right. unfold remove_object, _ensure_bucket. rewrite Hn.
      destruct e; [by exists (Ret false) | by exists (Raise ValueError)
                  | by exists (Raise TypeError)].
  - destruct (find_object object_name data) as [found|] eqn:Hf.
    + destruct (_normalize_path sep (PSeq found)) as [normalized|e] eqn:Hn.
      * assert (normalized = found) as ->.
        { unfold _normalize_path in Hn. destruct found; by simplify_eq. }
        destruct (ensure false data found) as [d1 [items|e]] eqn:He.
        -- apply ensure_false_Ret in He as (-> & Hne & Hw).
           destruct (list_remove_first object_name items) as [items'|] eqn:Hr.
           ++ left. exists found, items, items'. split_and!; [done..|].
              by eapply remove_found.
           ++ right. exists (Raise ValueError). split; [done|].
              unfold remove_object. rewrite Hf. unfold bind, _ensure_bucket.
              rewrite Hn, (ensure_existing false found data items Hne Hw).
              unfold remove_from. by rewrite Hr.
        -- right. pose proof (ensure_false_unchanged found data) as Hd.
           rewrite He in Hd. simpl in Hd. subst d1. exists (Raise e). split; [done|].
           unfold remove_object. rewrite Hf. unfold bind, _ensure_bucket.
           by rewrite Hn, He.
      * right. exists (Raise e). split; [done|].
        unfold remove_object. rewrite Hf. unfold bind, _ensure_bucket.
        by rewrite Hn.
    + right. exists (Ret false). split; [done|].
      unfold remove_object. by rewrite Hf.
Qed.
End PruneFacts.

(** ** [find_object], [move_object] and empty paths *)

Module ObjectDictFacts.
Import ObjectDict DictFacts PathFacts TreeFacts PruneFacts.

(** *** The search of [find_object] *)

Lemma first_path_app object_name l1 l2 :
  first_path object_name (l1 ++ l2) =
  match first_path object_name l1 with
  | Some p => Some p
  | None => first_path object_name l2
  end.
Proof.
  induction l1 as [|[n p] l1 IH]; simpl; [done|]. by case_decide.
Qed.

Lemma first_path_bucket object_name path items :
  first_path object_name (map (fun obj => (obj, path)) items) =
  if bool_decide (object_name ∈ items) then Some path else None.
Proof.
  induction items as [|x items IH]; [|cbn [map first_path]].
  - rewrite bool_decide_eq_false_2; [done | apply not_elem_of_nil].
  - destruct (decide (x = object_name)) as [->|Hne].
    + rewrite bool_decide_eq_true_2; [done | apply list_elem_of_here].
    + rewrite IH.
      rewrite (bool_decide_ext (object_name ∈ x :: items) (object_name ∈ items));
        [done|].
      rewrite elem_of_cons. naive_solver.
Qed.

Lemma first_path_None object_name l :
  first_path object_name l = None ↔ ∀ p, (object_name, p) ∉ l.
Proof.
  induction l as [|[n q] l IH]; simpl.
  - split; [intros _ p; apply not_elem_of_nil | done].
  - destruct (decide (n = object_name)) as [->|Hne].
    + split; [done|]. intros H. destruct (H q). apply list_elem_of_here.
    + rewrite IH. split.
      * intros H p. rewrite not_elem_of_cons. split; [congruence | apply H].
      * intros H p. specialize (H p). rewrite not_elem_of_cons in H. tauto.
Qed.

(** *** Failing removals *)

Lemma remove_false_absent sep object_name old_path data :
  (remove_object sep object_name old_path data).2 = Ret false →
  absent sep object_name old_path data.
Proof.
  destruct old_path as [p|]; simpl.
  - unfold _ensure_bucket.
    destruct (_normalize_path sep p) as [normalized|e] eqn:Hn.
    2:{ rewrite (normalize_raises _ _ _ Hn). done. }
    intros H. exists normalized. split; [done|]. intros items Hw.
    pose proof (walk_root_nonempty _ _ _ Hw) as Hne.
    rewrite (ensure_existing false normalized data items Hne Hw) in H.
    destruct (list_remove_first object_name items) as [items'|] eqn:Hr.
    + unfold bind in H. by destruct (_prune_empty_branch _ _ _) as [? [[]|?]].
    + intros Hin. apply elem_of_list_remove_first in Hin as [? ?]. congruence.
  - destruct (find_object object_name data) as [found|] eqn:Hf.
    + unfold bind. intros H. exfalso.
      destruct (_ensure_bucket sep (PSeq found) false data) as [d1 [[ref b]|e]]; [|done].
      destruct (remove_from sep ref b object_name (PSeq found) d1) as [d2 [[]|e]]; done.
    + intros _. by apply first_path_None.
Qed.

Lemma remove_false_unchanged sep object_name old_path data :
  (remove_object sep object_name old_path data).2 = Ret false →
  remove_object sep object_name old_path data = (data, Ret false).
Proof.
  destruct (remove_object_cases sep object_name old_path data)
    as [(np & items & items' & _ & _ & _ & ->) | (r & _ & ->)]; simpl.
  - done.
  - by intros ->.
Qed.

(** C7. [move_object] is [remove_object] followed by [add_object]:
    whenever the removal step fails, that is, [remove_object] returns
    false, which it does only when the object is absent (from the bucket
    at the given old path, or from the whole index when no old path is
    given), [move_object] returns false and the whole index, the bucket at
    the target path included, is left as it was. *)
Theorem move_object_removal_fails sep object_name new_path old_path
    allow_duplicates data :
  (remove_object sep object_name old_path data).2 = Ret false →
  absent sep object_name old_path data
  ∧ move_object sep object_name new_path old_path allow_duplicates data
    = (data, Ret false).
Proof.
  intros H. split; [by apply remove_false_absent|].
  unfold move_object, bind. by rewrite (remove_false_unchanged _ _ _ _ H).
Qed.

(** When the removal step raises instead ([TypeError] on a type mismatch
    along the old path, [ValueError] on an old path without a segment),
    [move_object] raises the same exception, and the index is left as it
    was as well. *)
Lemma move_object_removal_raises sep object_name new_path old_path
    allow_duplicates data e :
  (remove_object sep object_name old_path data).2 = Raise e →
  move_object sep object_name new_path old_path allow_duplicates data
  = (data, Raise e).
Proof.
  unfold move_object, bind.
  destruct (remove_object_cases sep object_name old_path data)
    as [(np & items & items' & _ & _ & _ & ->) | (r & _ & ->)]; simpl.
  - done.
  - by intros ->.
Qed.

(** C9. The boolean result of [move_object] is the result of the removal
    step: when the removal succeeds and [add_object] then declines,
    because the name is already in the destination bucket and duplicates
    are not allowed, [move_object] still returns true and the index is
    left as the removal left it (the destination bucket is not touched);
    and no run of [move_object] returns anything but true once the
    removal has returned true. *)
Theorem move_object_result_is_removal sep object_name new_path old_path data
    removed normalized bucket :
  remove_object sep object_name old_path data = (removed, Ret true) →
  _normalize_path sep new_path = Ret normalized →
  _walk (Mapping removed) normalized = Ret (Bucket bucket) →
  object_name ∈ bucket →
  move_object sep object_name new_path old_path false data = (removed, Ret true)
  ∧ ∀ allow_duplicates data' result,
      move_object sep object_name new_path old_path allow_duplicates data
      = (data', Ret result) →
      result = true.
Proof.
  intros Hr Hn Hw Hin. split.
  - unfold move_object, bind. rewrite Hr. simpl.
    unfold add_object, bind, _ensure_bucket. rewrite Hn.
    rewrite (ensure_existing true normalized removed bucket
               (normalize_nonempty _ _ _ Hn) Hw).
    simpl. by rewrite bool_decide_eq_true_2.
  - intros dup data' result. unfold move_object, bind. rewrite Hr. simpl.
    destruct (add_object sep new_path object_name dup removed) as [d2 [a|e]]; [|done].
    by intros [= _ <-].
Qed.

(** *** Paths without a segment *)

Lemma zero_segments_raise sep path :
  zero_segments sep path → _normalize_path sep path = Raise ValueError.
Proof. intros [->|[n ->]]; [done | apply normalize_separators]. Qed.

(** C10 (as amended). Every public operation of [ObjectDict] raises
    [ValueError] on a path argument that normalises to no segment (an
    empty sequence or a string of separators only) as soon as it
    normalises that argument: [has_path], [get_path], [delete_path],
    [add_object], [extend_objects], [remove_object] with a path and
    [move_object] for its old path do so at once and leave the index
    unchanged. [move_object] normalises its new path only after the
    removal: with such a new path it returns false when the removal
    fails, and raises [ValueError] after a successful removal, which is
    then already done. *)
Theorem empty_path_raises sep path :
  zero_segments sep path →
  ∀ data object_name object_names allow_duplicates default other old_path,
    has_path sep path data = Raise ValueError
    ∧ get_path sep path default data = Raise ValueError
    ∧ delete_path sep path data = (data, Raise ValueError)
    ∧ add_object sep path object_name allow_duplicates data = (data, Raise ValueError)
    ∧ extend_objects sep path object_names allow_duplicates data
      = (data, Raise ValueError)
    ∧ remove_object sep object_name (Some path) data = (data, Raise ValueError)
    ∧ move_object sep object_name other (Some path) allow_duplicates data
      = (data, Raise ValueError)
    ∧ ((remove_object sep object_name old_path data).2 = Ret false →
       move_object sep object_name path old_path allow_duplicates data
       = (data, Ret false))
    ∧ (∀ removed,
         remove_object sep object_name old_path data = (removed, Ret true) →
         move_object sep object_name path old_path allow_duplicates data
         = (removed, Raise ValueError)).
Proof.
  intros Hz. apply zero_segments_raise in Hz.
  intros data object_name object_names dup default other old_path.
  assert (He : ∀ create, _ensure_bucket sep path create data = (data, Raise ValueError)).
  { intros create. unfold _ensure_bucket. by rewrite Hz. }
  assert (Ha : ∀ d, add_object sep path object_name dup d = (d, Raise ValueError)).
  { intros d. unfold add_object, bind, _ensure_bucket. by rewrite Hz. }
  assert (Hrm : remove_object sep object_name (Some path) data
                = (data, Raise ValueError)).
  { unfold remove_object. by rewrite He. }
  split_and!.
  - unfold has_path. by rewrite Hz.
  - unfold get_path. by rewrite Hz.
  - unfold delete_path. by rewrite Hz.
  - apply Ha.
  - unfold extend_objects, bind. by rewrite He.
  - exact Hrm.
  - unfold move_object, bind. by rewrite Hrm.
  - intros H. unfold move_object, bind.
    by rewrite (remove_false_unchanged _ _ _ _ H).
  - intros removed H. unfold move_object, bind. rewrite H. simpl.
    by rewrite Ha.
Qed.

(** *** [add_object], then [find_object] *)

(** The traversal before and after [add_object] has returned. *)
Lemma add_object_earlier sep path normalized object_name allow_duplicates
    data data' added :
  _normalize_path sep path = Ret normalized →
  add_object sep path object_name allow_duplicates data = (data', Ret added) →
  ∃ before bucket later,
    iter_object_paths data
    = earlier data [] normalized
      ++ map (fun obj => (obj, normalized)) before ++ later
    ∧ iter_object_paths data'
      = earlier data [] normalized
        ++ map (fun obj => (obj, normalized)) bucket ++ later
    ∧ object_name ∈ bucket
    ∧ (added = false → bucket = before)
    ∧ (added = true → bucket = before ++ [object_name]).
Proof.
  intros Hn. unfold add_object, bind, _ensure_bucket. rewrite Hn.
  destruct (ensure true data normalized) as [d1 [before|e]] eqn:He; [|done].
  pose proof (normalize_nonempty _ _ _ Hn) as Hne.
  pose proof (ensure_Ret_walk _ _ _ _ _ He) as Hw.
  pose proof (ensure_iter _ _ _ _ _ [] He) as Hiter.
  destruct (earlier_iter normalized data d1 before [] He) as (later & Hst).
  pose proof (Hst before) as H1.
  rewrite (bucket_store_id _ _ _ Hne Hw), Hiter in H1. simpl in H1.
  rewrite !iter_object_paths_entries.
  destruct (negb allow_duplicates && bool_decide (object_name ∈ before)) eqn:Hd.
  - intros [= <- <-]. exists before, before, later.
    apply andb_true_iff in Hd as [_ Hd]. apply bool_decide_eq_true in Hd.
    rewrite Hiter. by split_and!.
  - intros [= <- <-]. exists before, (before ++ [object_name]), later.
    split_and!; [done | apply Hst | | done | done].
    apply elem_of_app. right. apply list_elem_of_here.
Qed.

(** C5 (as amended). After [add_object(path, name)] has returned,
    [find_object(name)] returns that path, normalised, unless a bucket
    that the traversal reaches earlier than the bucket at the path
    already holds the name: it then returns the path of the first such
    bucket, which is what it returned before the call. In particular it
    returns the path whenever it found nothing, that path, or a path the
    traversal reaches later, before the call. *)
Theorem add_then_find sep path normalized object_name allow_duplicates
    data data' added :
  _normalize_path sep path = Ret normalized →
  add_object sep path object_name allow_duplicates data = (data', Ret added) →
  find_object object_name data'
  = Some (default normalized
            (first_path object_name (earlier data [] normalized)))
  ∧ (∃ later, iter_object_paths data = earlier data [] normalized ++ later)
  ∧ ((∀ p, (object_name, p) ∉ earlier data [] normalized) →
     find_object object_name data' = Some normalized)
  ∧ (∀ p, first_path object_name (earlier data [] normalized) = Some p →
          find_object object_name data = Some p
          ∧ find_object object_name data' = Some p)
  ∧ (find_object object_name data = None
     ∨ find_object object_name data = Some normalized →
     find_object object_name data' = Some normalized)
  ∧ (find_object object_name data' = Some normalized
     ∨ find_object object_name data' = find_object object_name data).
Proof.
  intros Hn Ha.
  destruct (add_object_earlier _ _ _ _ _ _ _ _ Hn Ha)
    as (before & bucket & later & Hb & Hafter & Hin & _).
  assert (Hfind' : find_object object_name data'
                   = Some (default normalized
                             (first_path object_name (earlier data [] normalized)))).
  { unfold find_object. rewrite Hafter, !first_path_app, first_path_bucket.
    rewrite bool_decide_eq_true_2 by done.
    by destruct (first_path object_name (earlier data [] normalized)). }
  assert (Hfind : ∀ p, first_path object_name (earlier data [] normalized) = Some p →
                       find_object object_name data = Some p).
  { intros p Hp. unfold find_object. by rewrite Hb, first_path_app, Hp. }
  split_and!.
  - exact Hfind'.
  - by eexists.
  - intros Hnone. apply first_path_None in Hnone. by rewrite Hfind', Hnone.
  - intros p Hp. split; [by apply Hfind|]. by rewrite Hfind', Hp.
  - intros Hor. rewrite Hfind'.
    destruct (first_path object_name (earlier data [] normalized)) as [p|] eqn:Hp;
      [|done].
    rewrite (Hfind p eq_refl) in Hor. by destruct Hor as [?|[= ->]].
  - rewrite Hfind'.
    destruct (first_path object_name (earlier data [] normalized)) as [p|] eqn:Hp.
    + right. by rewrite (Hfind p eq_refl).
    + by left.
Qed.
End ObjectDictFacts.

(** ** Moving a single copy *)

Module MoveFacts.
Import ObjectDict DictFacts PathFacts TreeFacts PruneFacts ObjectDictFacts.

Lemma locations_paths_of object_name data :
  locations object_name data = paths_of object_name (iter_entries data []).
Proof. unfold locations. by rewrite iter_object_paths_entries. Qed.

(** [locations] is what [list_objects] files under the name. *)
Lemma list_objects_locations object_name data :
  default [] (dict_get object_name (list_objects data)) = locations object_name data.
Proof.
  unfold list_objects, locations.
  assert (Hfold : ∀ pairs (acc : dict (list Path)),
    default [] (dict_get object_name
      (fold_left
         (fun result '(name, path) =>
            dict_set name (default [] (dict_get name result) ++ [path]) result)
         pairs acc))
    = default [] (dict_get object_name acc) ++ paths_of object_name pairs).
  { induction pairs as [|[n p] pairs IH]; intros acc.
    - unfold paths_of. simpl. by rewrite app_nil_r.
    - cbn [fold_left]. rewrite IH. unfold paths_of.
      destruct (decide (n = object_name)) as [->|Hne].
      + rewrite dict_get_set_eq, filter_cons_True by done. simpl.
        by rewrite <- app_assoc.
      + rewrite dict_get_set_ne, filter_cons_False by done. done. }
  by rewrite Hfold.
Qed.

Lemma paths_of_app object_name l1 l2 :
  paths_of object_name (l1 ++ l2) = paths_of object_name l1 ++ paths_of object_name l2.
Proof. unfold paths_of. by rewrite filter_app, map_app. Qed.




Lemma paths_of_bucket_length object_name path items items' :
  list_remove_first object_name items = Some items' →
  length (paths_of object_name (map (fun obj => (obj, path)) items))
  = S (length (paths_of object_name (map (fun obj => (obj, path)) items'))).
Proof.
  unfold paths_of. revert items'.
  induction items as [|x items IH]; intros items'; simpl; [done|].
  destruct (decide (object_name = x)) as [->|Hne].
  - intros [= <-]. by rewrite filter_cons_True by done.
  - destruct (list_remove_first object_name items) as [r|]; [|done].
    intros [= <-]. cbn [map].
    rewrite !filter_cons_False by (simpl; congruence). by apply IH.
Qed.


(** What [iter_object_paths] yields after a removal: the pairs of
    before, except that the bucket lost one occurrence. *)
Lemma removed_tree_iter normalized items items' data :
  normalized ≠ [] → _walk (Mapping data) normalized = Ret (Bucket items) →
  ∃ l1 l2,
    iter_entries data [] = l1 ++ map (fun obj => (obj, normalized)) items ++ l2
    ∧ iter_entries (removed_tree normalized items' data) []
      = l1 ++ map (fun obj => (obj, normalized)) items' ++ l2.
Proof.
  intros Hne Hw.
  destruct (bucket_store_iter normalized data items Hne Hw []) as (l1 & l2 & Hst).
  exists l1, l2. split.
  - pose proof (Hst items) as H0.
    rewrite (bucket_store_id _ _ _ Hne Hw) in H0. exact H0.
  - unfold removed_tree.
    rewrite (detach_iter normalized _ items' Hne (bucket_store_walk _ _ _ _ Hne Hw)).
    exact (Hst items').
Qed.

(** *** Copies under a path *)











End MoveFacts.

(** ** Removing the last item of a bucket *)

Module RemoveFacts.
Import ObjectDict DictFacts PathFacts TreeFacts PruneFacts ObjectDictFacts MoveFacts.

(** *** The tree after the last item of a bucket is removed *)

Lemma removed_single last entries items :
  dict_get last entries = Some (Bucket items) →
  removed_tree [last] [] entries = dict_pop last entries.
Proof.
  intros Hget. unfold removed_tree. simpl. rewrite dict_get_set_eq.
  apply dict_pop_set. by rewrite Hget.
Qed.

Lemma removed_cons key k2 rest entries child :
  dict_get key entries = Some (Mapping child) →
  removed_tree (key :: k2 :: rest) [] entries =
  if is_empty (removed_tree (k2 :: rest) [] child) then dict_pop key entries
  else dict_set key (Mapping (removed_tree (k2 :: rest) [] child)) entries.
Proof.
  intros Hget. unfold removed_tree.
  rewrite bucket_store_cons, Hget, detach_cons, dict_get_set_eq.
  destruct (is_empty _).
  - apply dict_pop_set. by rewrite Hget.
  - apply dict_set_set.
Qed.

(** The emptied bucket is no longer reachable. *)
Lemma removed_gone path entries items :
  path ≠ [] → _walk (Mapping entries) path = Ret (Bucket items) →
  wf_tree entries →
  _walk (Mapping (removed_tree path [] entries)) path = Raise KeyError.
Proof.
  intros Hne Hw. revert path entries items Hne Hw.
  apply (bucket_path_ind (fun entries path items =>
    wf_tree entries →
    _walk (Mapping (removed_tree path [] entries)) path = Raise KeyError)).
  - intros entries last items Hget Hwf.
    rewrite (removed_single _ _ _ Hget), walk_cons.
    by rewrite dict_get_pop_eq by by apply wf_keys.
  - intros entries key k2 rest child items Hget _ IH Hwf.
    rewrite (removed_cons _ _ _ _ _ Hget), walk_cons.
    destruct (is_empty _).
    + by rewrite dict_get_pop_eq by by apply wf_keys.
    + rewrite dict_get_set_eq. apply IH. by eapply wf_child.
Qed.

(** The tree is left empty exactly when it held nothing but the chain
    of single keys down to the bucket. *)
Lemma removed_empty path entries items :
  path ≠ [] → _walk (Mapping entries) path = Ret (Bucket items) →
  is_empty (removed_tree path [] entries) = left_empty entries path.
Proof.
  intros Hne Hw. revert path entries items Hne Hw.
  apply (bucket_path_ind (fun entries path items =>
    is_empty (removed_tree path [] entries) = left_empty entries path)).
  - intros entries last items Hget.
    rewrite (removed_single _ _ _ Hget). apply dict_pop_empty. by rewrite Hget.
  - intros entries key k2 rest child items Hget _ IH.
    rewrite (removed_cons _ _ _ _ _ Hget), left_empty_cons, Hget, <- IH.
    destruct (is_empty (removed_tree (k2 :: rest) [] child)).
    + rewrite andb_true_r. apply dict_pop_empty. by rewrite Hget.
    + rewrite andb_false_r. apply dict_set_nonempty.
Qed.

Lemma left_empty_suffix q : ∀ r entries sub,
  r ≠ [] → _walk (Mapping entries) q = Ret (Mapping sub) →
  left_empty entries (q ++ r) = true → left_empty sub r = true.
Proof.
  induction q as [|key q IH]; intros r entries sub Hr Hw.
  - simpl in Hw. by injection Hw as ->.
  - rewrite walk_cons in Hw.
    destruct (q ++ r) as [|k2 rest] eqn:Hqr.
    { apply app_eq_nil in Hqr as [_ ?]. done. }
    change ((key :: q) ++ r) with (key :: (q ++ r)). rewrite Hqr, left_empty_cons.
    rewrite andb_true_iff. intros [_ H].
    destruct (dict_get key entries) as [[b|child]|]; [done| |done].
    rewrite <- Hqr in H. by eapply IH.
Qed.

(** Every ancestor on the way: gone if it was left empty, else still
    there and not empty. *)
Lemma removed_prefix q : ∀ r entries sub items,
  q ≠ [] → r ≠ [] →
  _walk (Mapping entries) (q ++ r) = Ret (Bucket items) →
  _walk (Mapping entries) q = Ret (Mapping sub) →
  wf_tree entries →
  _walk (Mapping (removed_tree (q ++ r) [] entries)) q =
  if left_empty sub r then Raise KeyError else Ret (Mapping (removed_tree r [] sub)).
Proof.
  induction q as [|key q IH]; intros r entries sub items Hq Hr Hw Hwq Hwf; [done|].
  destruct (q ++ r) as [|k2 rest] eqn:Hqr.
  { apply app_eq_nil in Hqr as [_ ?]. done. }
  change ((key :: q) ++ r) with (key :: (q ++ r)) in *. rewrite Hqr in *.
  apply walk_bucket_cons in Hw as (child & Hget & Hw).
  rewrite (removed_cons _ _ _ _ _ Hget).
  rewrite walk_cons, Hget in Hwq.
  pose proof (removed_empty (k2 :: rest) child items ltac:(done) Hw) as Hempty.
  rewrite <- Hqr in *.
  destruct q as [|k' q'].
  - simpl in Hwq. injection Hwq as <-. change ([] ++ r) with r in *.
    rewrite <- Hempty.
    destruct (is_empty (removed_tree r [] child)); rewrite walk_cons.
    + by rewrite dict_get_pop_eq by by apply wf_keys.
    + by rewrite dict_get_set_eq.
  - destruct (is_empty (removed_tree ((k' :: q') ++ r) [] child)) eqn:E;
      rewrite walk_cons.
    + rewrite dict_get_pop_eq by by apply wf_keys.
      rewrite (left_empty_suffix (k' :: q') r child sub Hr Hwq); [done|].
      by rewrite <- Hempty.
    + rewrite dict_get_set_eq.
      apply (IH r child sub items); [done..|]. by eapply wf_child.
Qed.

(** C6. Whenever [remove_object] removes the last item of a bucket,
    the emptied bucket is detached from its parent; every ancestor
    mapping left empty by that (it held nothing but the chain of single
    keys down to the bucket) is detached as well, and an ancestor that is
    not left empty stays in place, not empty, together with everything
    above it. The root mapping is never removed: it stays, empty when
    the whole chain was pruned. No other object is affected. *)
Theorem remove_last_item_prunes sep object_name old_path data path :
  wf_tree data →
  _walk (Mapping data) path = Ret (Bucket [object_name]) →
  match old_path with
  | Some p => _normalize_path sep p = Ret path
  | None => find_object object_name data = Some path
  end →
  ∃ data',
    remove_object sep object_name old_path data = (data', Ret true)
    ∧ _walk (Mapping data') path = Raise KeyError
    ∧ (∀ q r entries,
         path = q ++ r → q ≠ [] → r ≠ [] →
         _walk (Mapping data) q = Ret (Mapping entries) →
         if left_empty entries r
         then _walk (Mapping data') q = Raise KeyError
         else ∃ entries', _walk (Mapping data') q = Ret (Mapping entries')
                          ∧ is_empty entries' = false)
    ∧ is_empty data' = left_empty data path
    ∧ ∃ l1 l2, iter_object_paths data = l1 ++ (object_name, path) :: l2
               ∧ iter_object_paths data' = l1 ++ l2.
Proof.
  intros Hwf Hw Hold.
  pose proof (walk_root_nonempty _ _ _ Hw) as Hne.
  assert (Hr : list_remove_first object_name [object_name] = Some []).
  { simpl. by rewrite decide_True. }
  exists (removed_tree path [] data). split_and!.
  - destruct old_path as [p|].
    + by eapply remove_at.
    + by eapply remove_found.
  - by eapply removed_gone.
  - intros q r entries -> Hq Hrne Hwq.
    rewrite (removed_prefix q r data entries _ Hq Hrne Hw Hwq Hwf).
    destruct (left_empty entries r) eqn:E; [done|].
    eexists. split; [done|].
    rewrite walk_app, Hwq in Hw.
    by rewrite (removed_empty r entries _ Hrne Hw).
  - by eapply removed_empty.
  - destruct (removed_tree_iter path [object_name] [] data Hne Hw)
      as (l1 & l2 & Hb & Ha).
    exists l1, l2. rewrite !iter_object_paths_entries. by rewrite Hb, Ha.
Qed.
End RemoveFacts.

(** ** Renaming a step *)

Module ProcessGraphFacts.
Import ProcessGraph.

Lemma elem_of_repoint old new (ns : gset string) b :
  b ∈ repoint old new ns ↔ (b ≠ old ∧ b ∈ ns) ∨ (b = new ∧ old ∈ ns).
Proof.
  unfold repoint, str_ne_set. destruct (decide (old ∈ ns)); set_solver.
Qed.

Lemma lookup_add_step step adj k :
  add_step step adj !! k =
  if decide (k = step) then Some (default ∅ (adj !! step)) else adj !! k.
Proof.
  unfold add_step. destruct (adj !! step) eqn:E.
  - case_decide; subst; by rewrite ?E.
  - case_decide; subst; by rewrite ?lookup_insert_eq, ?lookup_insert_ne.
Qed.

Lemma lookup_update_step old new adj k :
  old ≠ new → is_Some (adj !! old) →
  update_step old new adj !! k =
  if decide (k = old) then None
  else if decide (k = new)
       then Some (repoint old new (default ∅ (adj !! new)
                                    ∪ (default ∅ (adj !! old) ∖ {[new]})))
       else repoint old new <$> adj !! k.
Proof.
  intros Hne [s Hs]. unfold update_step.
  rewrite decide_False by done. rewrite Hs.
  rewrite lookup_fmap.
  destruct (decide (k = old)) as [->|Hko].
  - rewrite lookup_insert_ne by done. by rewrite lookup_delete_eq.
  - destruct (decide (k = new)) as [->|Hkn].
    + rewrite lookup_insert_eq. simpl.
      rewrite lookup_delete_ne by done.
      rewrite !lookup_add_step. rewrite decide_True by done.
      rewrite decide_False by done. by rewrite Hs.
    + rewrite lookup_insert_ne by done. rewrite lookup_delete_ne by done.
      rewrite lookup_add_step. by rewrite decide_False by done.
Qed.

Lemma edge_update_step old new adj a b :
  old ≠ new → is_Some (adj !! old) →
  edge (update_step old new adj) a b ↔
  a ≠ old ∧
  ((a = new ∧ ((b ≠ old ∧ (b ∈ successor_set new adj
                            ∨ (b ∈ successor_set old adj ∧ b ≠ new)))
               ∨ (b = new ∧ (old ∈ successor_set new adj
                             ∨ old ∈ successor_set old adj))))
   ∨ (a ≠ new ∧ ∃ ns, adj !! a = Some ns
                      ∧ ((b ≠ old ∧ b ∈ ns) ∨ (b = new ∧ old ∈ ns)))).
Proof.
  intros Hne Hold. unfold edge, successor_set.
  setoid_rewrite (lookup_update_step old new adj a Hne Hold).
  destruct (decide (a = old)) as [->|Hao].
  { split; [intros (? & ? & ?); done | intros [? _]; done]. }
  destruct (decide (a = new)) as [->|Han].
  - split.
    + intros (ns & [= <-] & Hb). apply elem_of_repoint in Hb.
      split; [done|]. left. split; [done|]. set_solver.
    + intros (_ & [(_ & H) | (? & _)]); [|done].
      eexists. split; [done|]. apply elem_of_repoint. set_solver.
  - split.
    + intros (ns & Hns & Hb). split; [done|]. right. split; [done|].
      destruct (adj !! a) as [ns0|]; [|done]. injection Hns as <-.
      apply elem_of_repoint in Hb. eauto.
    + intros (_ & [(? & _) | (_ & ns & Hns & H)]); [done|].
      rewrite Hns. eexists. split; [done|]. by apply elem_of_repoint.
Qed.

Lemma edge_successor_set adj a b : edge adj a b ↔ b ∈ successor_set a adj.
Proof.
  unfold edge, successor_set. destruct (adj !! a); simpl.
  - split; [intros (? & [= <-] & ?); done | eauto].
  - split; [intros (? & ? & ?); done | set_solver].
Qed.

(** C3 (as amended). For steps [old <> new] with [old] present,
    [update_step(old, new)] leaves no reference to [old], neither as a
    step nor in any successor set; the steps are those of before with
    [new] in place of [old]; every transition of before that does not run
    between [old] and [new] themselves is there afterwards with [old]
    renamed to [new], so successors and predecessors of [old] other than
    [old] and [new] become successors and predecessors of [new], merged
    with those [new] already had; no transition is there afterwards that
    is not a renamed transition of before; and a transition from [old] to
    [new] is dropped, not turned into a self-loop on [new]: there is no
    such loop afterwards unless one of [new -> new], [new -> old],
    [old -> old] was there before. *)
Theorem update_step_repoints adj old new :
  old ≠ new → is_Some (adj !! old) →
  let adj' := update_step old new adj in
  (old ∉ steps adj' ∧ ∀ a, ¬ edge adj' a old) ∧
  steps adj' = {[new]} ∪ (steps adj ∖ {[old]}) ∧
  (∀ a b, edge adj a b → ¬ ((a = old ∨ a = new) ∧ (b = old ∨ b = new)) →
          edge adj' (renamed old new a) (renamed old new b)) ∧
  (∀ a b, edge adj' a b →
          ∃ a0 b0, edge adj a0 b0 ∧ renamed old new a0 = a ∧ renamed old new b0 = b) ∧
  (¬ edge adj new new → ¬ edge adj new old → ¬ edge adj old old →
   ¬ edge adj' new new).
Proof.
  intros Hne Hold adj'. subst adj'.
  assert (Hdom : ∀ k, k ∈ steps (update_step old new adj) ↔ k = new ∨ (k ∈ steps adj ∧ k ≠ old)).
  { intros k. unfold steps. rewrite !elem_of_dom.
    rewrite (lookup_update_step old new adj k Hne Hold).
    repeat case_decide; subst.
    - split; [intros [? ?]; done | intros [?|[_ ?]]; done].
    - split; [eauto | eauto].
    - rewrite fmap_is_Some. naive_solver. }
  split_and!.
  - rewrite Hdom. naive_solver.
  - intros a. rewrite (edge_update_step old new adj a old Hne Hold). naive_solver.
  - apply set_eq. intros k. rewrite Hdom. set_solver.
  - intros a b Hab Hnot.
    rewrite (edge_update_step old new adj _ _ Hne Hold).
    pose proof Hab as Hab'. apply edge_successor_set in Hab'.
    destruct Hab as (ns & Hns & Hb).
    unfold renamed.
    destruct (decide (a = old)) as [->|Hao]; destruct (decide (b = old)) as [->|Hbo].
    + exfalso. apply Hnot. auto.
    + assert (b ≠ new) by (intros ->; apply Hnot; auto).
      split; [done|]. left. split; [done|]. left. split; [done|]. by right.
    + assert (a ≠ new) by (intros ->; apply Hnot; auto).
      split; [done|]. right. split; [done|]. exists ns. split; [done|]. by right.
    + split; [done|]. destruct (decide (a = new)) as [->|Han].
      * left. split; [done|]. left. split; [done|]. by left.
      * right. split; [done|]. exists ns. split; [done|]. by left.
  - intros a b. rewrite (edge_update_step old new adj a b Hne Hold).
    setoid_rewrite edge_successor_set. unfold renamed, successor_set.
    intros (Hao & [(-> & [(Hbo & [H|[H Hbn]]) | (-> & [H|H])]) | (Han & ns & Hns & [[Hbo Hb]|[-> Hb]])]).
    + exists new, b. rewrite !decide_False by done. done.
    + exists old, b. rewrite decide_True by done. rewrite decide_False by done. done.
    + exists new, old. rewrite decide_False by done. rewrite decide_True by done. done.
    + exists old, old. rewrite !decide_True by done. done.
    + exists a, b. rewrite Hns. rewrite !decide_False by done. done.
    + exists a, old. rewrite Hns. rewrite decide_False by done. rewrite decide_True by done. done.
  - rewrite (edge_update_step old new adj new new Hne Hold).
    rewrite !edge_successor_set. naive_solver.
Qed.

Lemma lookup_single_edge a b k :
  a ≠ b →
  single_edge a b !! k =
  if decide (k = a) then Some {[ b ]} else if decide (k = b) then Some ∅ else None.
Proof.
  intros Hab. unfold single_edge. repeat case_decide; subst.
  - by rewrite lookup_insert_eq.
  - rewrite lookup_insert_ne by done. by rewrite lookup_singleton_eq.
  - rewrite lookup_insert_ne by done. by rewrite lookup_singleton_ne.
Qed.

Lemma edge_to_new_dropped old new :
  old ≠ new →
  old ∈ steps (single_edge old new) ∧
  edge (single_edge old new) old new ∧
  ∀ x, ¬ edge (update_step old new (single_edge old new)) new x
       ∧ ¬ edge (update_step old new (single_edge old new)) x new.
Proof.
  intros Hne.
  assert (Hold : is_Some (single_edge old new !! old)).
  { rewrite lookup_single_edge by done. rewrite decide_True by done. by eexists. }
  split_and!; [by apply elem_of_dom | |].
  - exists {[ new ]}. rewrite lookup_single_edge by done.
    rewrite decide_True by done. split; [done | set_solver].
  - assert (Ho : successor_set old (single_edge old new) = {[ new ]}).
    { unfold successor_set. rewrite lookup_single_edge by done.
      by rewrite decide_True. }
    assert (Hn : successor_set new (single_edge old new) = ∅).
    { unfold successor_set. rewrite lookup_single_edge by done.
      rewrite decide_False by done. by rewrite decide_True. }
    intros x.
    rewrite !(edge_update_step old new (single_edge old new)) by done.
    rewrite Ho, Hn. split.
    + intros (_ & [(_ & H) | (? & _)]); [|done]. set_solver.
    + intros (Hx & [(_ & H) | (Hxs & ns & Hns & H)]); [set_solver|].
      rewrite lookup_single_edge in Hns by done.
      rewrite !decide_False in Hns by done. done.
Qed.

Lemma self_loop_created old new :
  old ≠ new →
  update_step old new (single_edge new old) = {[ new := {[ new ]} ]}.
Proof.
  intros Hne.
  assert (Hold : is_Some (single_edge new old !! old)).
  { rewrite lookup_single_edge by done. rewrite decide_False by done.
    rewrite decide_True by done. by eexists. }
  apply map_eq. intros k.
  rewrite lookup_update_step by done.
  destruct (decide (k = old)) as [->|Hko].
  { by rewrite lookup_singleton_ne. }
  destruct (decide (k = new)) as [->|Hkn].
  - rewrite lookup_singleton_eq.
    rewrite !lookup_single_edge by done.
    rewrite !decide_True by done. rewrite decide_False by done.
    rewrite decide_True by done. simpl. f_equal.
    apply set_eq. intros x. rewrite elem_of_repoint. set_solver.
  - rewrite lookup_singleton_ne by done.
    rewrite lookup_single_edge by done.
    by rewrite !decide_False by done.
Qed.

(** C3, as stated, fails: [Cook] has the successor [Saute]; after
    [update_step("Cook", "Saute")] that transition is gone, and [Saute]
    has neither a successor nor a predecessor. *)
Lemma update_step_drops_edge_to_new :
  "Cook" ≠ "Saute" ∧ "Cook" ∈ steps (single_edge "Cook" "Saute") ∧
  edge (single_edge "Cook" "Saute") "Cook" "Saute" ∧
  ∀ x, ¬ edge (update_step "Cook" "Saute" (single_edge "Cook" "Saute")) "Saute" x
       ∧ ¬ edge (update_step "Cook" "Saute" (single_edge "Cook" "Saute")) x "Saute".
Proof.
  assert (Hne : "Cook" ≠ "Saute") by discriminate.
  split; [exact Hne|]. exact (edge_to_new_dropped "Cook" "Saute" Hne).
Qed.

(** C2. The code at the failing input: [Saute] has the successor
    [Cook]; [update_step("Cook", "Saute")] discards [Cook] from that
    set and adds [Saute] to it, since the guard compares the name with
    the set and so never skips: a self-loop on [Saute] is created. *)
Lemma update_step_self_loop :
  update_step "Cook" "Saute" (single_edge "Saute" "Cook") = {[ "Saute" := {[ "Saute" ]} ]}.
Proof. apply self_loop_created. discriminate. Qed.

Lemma update_step_repoints_witness :
  "Cook" ∉ steps (update_step "Cook" "Saute" (single_edge "Cook" "Saute")).
Proof.
  refine (proj1 (proj1 (update_step_repoints (single_edge "Cook" "Saute")
                          "Cook" "Saute" _ _))).
  - discriminate.
  - rewrite lookup_single_edge by discriminate.
    rewrite decide_True by reflexivity. eexists; reflexivity.
Defined.
End ProcessGraphFacts.

(** ** The tool-call boundary *)

Module ToolFacts.
Import ObjectDict ProcessGraph PreferenceService Orchestrator.
Import DictFacts PathFacts TreeFacts.


















End ToolFacts.

(** ** Traversal: [find_object], [list_objects], [remove_object] *)

Module TraversalFacts.
Import ObjectDict DictFacts PathFacts TreeFacts PruneFacts ObjectDictFacts MoveFacts.

(** Induction on a location value, with the hypothesis for every child
    of a mapping. *)
Lemma LocationValue_children_ind (P : LocationValue → Prop) :
  (∀ items, P (Bucket items)) →
  (∀ entries, Forall (fun kv => P kv.2) entries → P (Mapping entries)) →
  ∀ node, P node.
Proof.
  intros HB HM.
  refine (fix IH (node : LocationValue) : P node :=
            match node with
            | Bucket items => HB items
            | Mapping entries =>
                HM entries
                   ((fix children (es : list (string * LocationValue))
                       : Forall (fun kv => P kv.2) es :=
                       match es with
                       | [] => List.Forall_nil _
                       | kv :: es0 => @List.Forall_cons _ _ kv es0 (IH kv.2) (children es0)
                       end) entries)
            end).
Qed.

Lemma elem_of_iter_entries entries path name q :
  (name, q) ∈ iter_entries entries path ↔
  ∃ key child, (key, child) ∈ entries ∧ (name, q) ∈ _iter_objects child (path ++ [key]).
Proof.
  induction entries as [|[k c] es IH]; simpl.
  - split; [intros H; by apply elem_of_nil in H|].
    intros (? & ? & H & _). by apply elem_of_nil in H.
  - rewrite elem_of_app, IH. split.
    + intros [H|(key & child & Hin & H)].
      * exists k, c. split; [apply list_elem_of_here | done].
      * exists key, child. split; [by apply list_elem_of_further | done].
    + intros (key & child & Hin & H). apply elem_of_cons in Hin as [[= -> ->]|Hin].
      * by left.
      * right. by exists key, child.
Qed.

Lemma dict_get_NoDup {V} (d : dict V) key v :
  NoDup (dict_keys d) → (key, v) ∈ d → dict_get key d = Some v.
Proof.
  unfold dict_keys. induction d as [|[k0 v0] d IH]; simpl.
  - intros _ H. by apply elem_of_nil in H.
  - intros Hnd Hin. apply NoDup_cons in Hnd as [Hk0 Hnd].
    apply elem_of_cons in Hin as [[= -> ->]|Hin].
    + by rewrite decide_True.
    + rewrite decide_False; [by apply IH|].
      intros ->. apply Hk0. apply list_elem_of_fmap. by exists (k0, v).
  Qed.

(** Every pair yielded lies below the prefix; when keys are unique, its
    path walks to a bucket that holds the name. *)
Lemma iter_sound node :
  ∀ prefix name q,
    (name, q) ∈ _iter_objects node prefix →
    ∃ p, q = prefix ++ p
         ∧ (wf_value node = true →
            ∃ items, _walk node p = Ret (Bucket items) ∧ name ∈ items).
Proof.
  induction node as [items|entries IH] using LocationValue_children_ind;
    intros prefix name q Hin.
  - simpl in Hin. apply list_elem_of_fmap in Hin as (obj & [= -> ->] & Hobj).
    exists []. rewrite app_nil_r. split; [done|]. intros _. by exists items.
  - rewrite iter_Mapping in Hin.
    apply elem_of_iter_entries in Hin as (key & child & Hkc & Hin).
    rewrite Forall_forall in IH.
    destruct (IH _ Hkc _ _ _ Hin) as (p & -> & Hp).
    exists (key :: p). rewrite <- app_assoc. split; [done|].
    intros Hwf. apply wf_Mapping in Hwf as [Hnd Hall].
    rewrite Forall_forall in Hall.
    rewrite walk_cons, (dict_get_NoDup _ _ _ Hnd Hkc).
    apply Hp. apply (Hall _ Hkc).
Qed.

(** An object in a bucket that a path walks to is yielded under that
    path. *)
Lemma iter_complete p :
  ∀ node prefix items name,
    _walk node p = Ret (Bucket items) → name ∈ items →
    (name, prefix ++ p) ∈ _iter_objects node prefix.
Proof.
  induction p as [|key p IH]; intros node prefix items name Hw Hin.
  - simpl in Hw. injection Hw as ->. rewrite app_nil_r. simpl.
    apply list_elem_of_fmap. by exists name.
  - destruct node as [b|entries]; [done|]. rewrite walk_cons in Hw.
    destruct (dict_get key entries) as [child|] eqn:Hget; [|done].
    rewrite iter_Mapping. apply elem_of_iter_entries.
    exists key, child. split; [by apply dict_get_Some_elem|].
    replace (prefix ++ key :: p) with ((prefix ++ [key]) ++ p)
      by by rewrite <- app_assoc.
    by eapply IH.
Qed.

Lemma first_path_Some object_name pairs p :
  first_path object_name pairs = Some p → (object_name, p) ∈ pairs.
Proof.
  induction pairs as [|[n q] pairs IH]; simpl; [done|].
  destruct (decide (n = object_name)) as [->|Hne].
  - intros [= ->]. apply list_elem_of_here.
  - intros H. apply list_elem_of_further. by apply IH.
Qed.

Lemma first_path_head object_name pairs :
  first_path object_name pairs = head (paths_of object_name pairs).
Proof.
  unfold paths_of. induction pairs as [|[n q] pairs IH]; simpl; [done|].
  destruct (decide (n = object_name)) as [->|Hne].
  - by rewrite filter_cons_True by done.
  - by rewrite filter_cons_False by done.
Qed.

Lemma find_object_sound object_name data p :
  wf_tree data → find_object object_name data = Some p →
  ∃ items, _walk (Mapping data) p = Ret (Bucket items) ∧ object_name ∈ items.
Proof.
  intros Hwf Hf. apply first_path_Some in Hf.
  destruct (iter_sound _ _ _ _ Hf) as (p' & -> & Hp). by apply Hp.
Qed.

(** X1. On an index with unique keys, [find_object] is sound and
    complete: the path it returns walks to a bucket that holds the name,
    and it returns [None] only when no path walks to a bucket that holds
    the name. *)
Theorem find_object_correct object_name data :
  wf_tree data →
  (∀ p, find_object object_name data = Some p →
        ∃ items, _walk (Mapping data) p = Ret (Bucket items) ∧ object_name ∈ items)
  ∧ (find_object object_name data = None ↔
     ∀ p items, _walk (Mapping data) p = Ret (Bucket items) → object_name ∉ items).
Proof.
  intros Hwf. split.
  - intros p Hf. by apply find_object_sound.
  - unfold find_object. rewrite first_path_None. split.
    + intros Hnone p items Hw Hin. apply (Hnone p).
      by apply (iter_complete p (Mapping data) [] items).
    + intros Hnone p Hin.
      destruct (iter_sound _ _ _ _ Hin) as (p' & -> & Hp).
      destruct (Hp Hwf) as (items & Hw & Hi). by apply (Hnone p' items).
Qed.

Lemma list_objects_get object_name data :
  dict_get object_name (list_objects data) =
  match locations object_name data with
  | [] => None
  | paths => Some paths
  end.
Proof.
  unfold list_objects, locations.
  assert (Hfold : ∀ pairs (acc : dict (list Path)),
    dict_get object_name
      (fold_left
         (fun result '(name, path) =>
            dict_set name (default [] (dict_get name result) ++ [path]) result)
         pairs acc)
    = match paths_of object_name pairs with
      | [] => dict_get object_name acc
      | paths => Some (default [] (dict_get object_name acc) ++ paths)
      end).
  { induction pairs as [|[n p] pairs IH]; intros acc; [done|].
    cbn [fold_left]. rewrite IH. unfold paths_of.
    destruct (decide (n = object_name)) as [->|Hne].
    - rewrite dict_get_set_eq, filter_cons_True by done. simpl.
      destruct (map snd (filter _ pairs)); simpl; [done|].
      by rewrite <- app_assoc.
    - by rewrite dict_get_set_ne, filter_cons_False by done. }
  rewrite Hfold. simpl. by destruct (paths_of object_name (iter_object_paths data)).
Qed.

(** X2. [list_objects] and [find_object] agree: a name is a key of the
    inventory exactly when [find_object] finds it, the inventory then
    lists a non-empty sequence of paths, and [find_object] returns the
    first of them. *)
Theorem find_object_first_listed object_name data :
  find_object object_name data
  = head (default [] (dict_get object_name (list_objects data)))
  ∧ (dict_get object_name (list_objects data) = None ↔
     find_object object_name data = None)
  ∧ dict_get object_name (list_objects data) ≠ Some [].
Proof.
  rewrite list_objects_get. unfold find_object, locations.
  rewrite first_path_head.
  destruct (paths_of object_name (iter_object_paths data)); simpl.
  - done.
  - split; [done|]. split; [|done]. split; done.
Qed.

(** X3. On an index with unique keys, [remove_object] without a path
    never raises: it returns true when the name is stored somewhere
    ([find_object] finds it), and it returns false, leaving the index as
    it was, when it is not. *)
Theorem remove_object_anywhere sep object_name data :
  wf_tree data →
  (is_Some (find_object object_name data)
   ∧ ∃ data', remove_object sep object_name None data = (data', Ret true))
  ∨ (find_object object_name data = None
     ∧ remove_object sep object_name None data = (data, Ret false)).
Proof.
  intros Hwf. destruct (find_object object_name data) as [found|] eqn:Hf.
  - left. split; [by eexists|].
    destruct (find_object_sound object_name data found Hwf Hf)
      as (items & Hw & Hin).
    apply elem_of_list_remove_first in Hin as [items' Hr].
    eexists. by eapply remove_found.
  - right. split; [done|]. unfold remove_object. by rewrite Hf.
Qed.
End TraversalFacts.

(** ** [add_object] *)

Module AddFacts.
Import ObjectDict DictFacts PathFacts TreeFacts PruneFacts ObjectDictFacts MoveFacts.

(** Below a key that is created, everything is created: no exception. *)
Lemma ensure_fresh path :
  path ≠ [] → ∃ child, ensure true [] path = (child, Ret []).
Proof.
  induction path as [|key rest IH]; [done|]. intros _.
  destruct rest as [|k2 rest'].
  - by eexists.
  - rewrite ensure_cons. simpl dict_get. cbv iota.
    destruct IH as [child ->]; [done|]. by eexists.
Qed.

(** What [ensure] with creation returns: the bucket that was there, the
    tree unchanged, or a new empty bucket where the path did not exist. *)
Lemma ensure_true_Ret path : ∀ data data' bucket,
  ensure true data path = (data', Ret bucket) →
  (data' = data ∧ _walk (Mapping data) path = Ret (Bucket bucket))
  ∨ (bucket = [] ∧ _walk (Mapping data) path = Raise KeyError).
Proof.
  induction path as [|key rest IH]; intros data data' bucket; [done|].
  destruct rest as [|k2 rest'].
  - simpl. destruct (dict_get key data) as [[b|es]|] eqn:Hget.
    + intros [= <- <-]. by left.
    + done.
    + intros [= <- <-]. by right.
  - rewrite ensure_cons, walk_cons.
    destruct (dict_get key data) as [[b|es]|] eqn:Hget; [done| |].
    + destruct (ensure true es (k2 :: rest')) as [child' r] eqn:E.
      intros [= <- ->]. destruct (IH _ _ _ E) as [[-> Hw]|[-> Hw]].
      * left. split; [by apply dict_set_id | done].
      * right. done.
    + destruct (ensure_fresh (k2 :: rest')) as [child Hc]; [done|].
      rewrite Hc. intros [= <- <-]. by right.
Qed.

(** What makes [ensure] with creation raise: a type mismatch, and then
    nothing was created. *)
Lemma ensure_true_Raise path : ∀ data data' e,
  path ≠ [] →
  ensure true data path = (data', Raise e) →
  data' = data ∧ e = TypeError ∧ type_mismatch data path.
Proof.
  induction path as [|key rest IH]; intros data data' e Hne; [done|].
  destruct rest as [|k2 rest'].
  - simpl. destruct (dict_get key data) as [[b|es]|] eqn:Hget; [done| |done].
    intros [= <- <-]. split_and!; [done..|].
    right. exists es. split; [done|]. by rewrite walk_cons, Hget.
  - rewrite ensure_cons.
    destruct (dict_get key data) as [[b|es]|] eqn:Hget.
    + intros [= <- <-]. split_and!; [done..|].
      left. exists [key], (k2 :: rest'), b. split_and!; [done..|].
      by rewrite walk_cons, Hget.
    + destruct (ensure true es (k2 :: rest')) as [child' r] eqn:E.
      intros [= <- ->]. destruct (IH _ _ _ ltac:(done) E) as (-> & -> & Hm).
      split_and!; [by apply dict_set_id | done |].
      destruct Hm as [(q & r & items & Hp & Hq & Hr & Hw) | (entries & _ & Hw)].
      * left. exists (key :: q), r, items. split_and!; [by rewrite Hp | done..|].
        by rewrite walk_cons, Hget.
      * right. exists entries. split; [done|]. by rewrite walk_cons, Hget.
    + destruct (ensure_fresh (k2 :: rest')) as [child Hc]; [done|].
      by rewrite Hc.
Qed.

(** X4. When [add_object] returns true, the name has been appended at
    the end of the bucket at the path: of the bucket that was there, or of
    a new one when the path did not exist (the missing mappings are
    created on the way). When duplicates are not allowed the name was not
    in the bucket before. [get_path] then returns that bucket and
    [has_path] is true. *)
Theorem add_object_appends sep path object_name allow_duplicates data data' :
  add_object sep path object_name allow_duplicates data = (data', Ret true) →
  ∃ normalized before,
    _normalize_path sep path = Ret normalized
    ∧ (_walk (Mapping data) normalized = Ret (Bucket before)
       ∨ (before = [] ∧ _walk (Mapping data) normalized = Raise KeyError))
    ∧ (allow_duplicates = false → object_name ∉ before)
    ∧ _walk (Mapping data') normalized = Ret (Bucket (before ++ [object_name]))
    ∧ (∀ default, get_path sep path default data'
                  = Ret (Some (Bucket (before ++ [object_name]))))
    ∧ has_path sep path data' = Ret true.
Proof.
  unfold add_object, bind, _ensure_bucket.
  destruct (_normalize_path sep path) as [normalized|e] eqn:Hn; [|done].
  destruct (ensure true data normalized) as [d1 [before|e]] eqn:He; [|done].
  pose proof (normalize_nonempty _ _ _ Hn) as Hne.
  pose proof (ensure_Ret_walk _ _ _ _ _ He) as Hw1.
  destruct (negb allow_duplicates && bool_decide (object_name ∈ before)) eqn:Hd;
    [done|].
  intros [= <-].
  pose proof (bucket_store_walk normalized d1 before (before ++ [object_name]) Hne Hw1)
    as Hw2.
  exists normalized, before. split_and!; [done| | | done | |].
  - destruct (ensure_true_Ret _ _ _ _ He) as [[_ H]|[-> H]]; [by left | by right].
  - intros ->. simpl in Hd. by apply bool_decide_eq_false in Hd.
  - intros default. unfold get_path. by rewrite Hn, Hw2.
  - unfold has_path. by rewrite Hn, Hw2.
Qed.

(** X5. [add_object] returns false only when duplicates are not allowed
    and the bucket at the path already holds the name; the index is then
    left exactly as it was. *)
Theorem add_object_declines sep path object_name allow_duplicates data data' :
  add_object sep path object_name allow_duplicates data = (data', Ret false) →
  data' = data ∧ allow_duplicates = false
  ∧ ∃ normalized bucket,
      _normalize_path sep path = Ret normalized
      ∧ _walk (Mapping data) normalized = Ret (Bucket bucket)
      ∧ object_name ∈ bucket.
Proof.
  unfold add_object, bind, _ensure_bucket.
  destruct (_normalize_path sep path) as [normalized|e] eqn:Hn; [|done].
  destruct (ensure true data normalized) as [d1 [bucket|e]] eqn:He; [|done].
  destruct (negb allow_duplicates && bool_decide (object_name ∈ bucket)) eqn:Hd;
    [|done].
  intros [= <-]. apply andb_true_iff in Hd as [Hdup Hin].
  apply bool_decide_eq_true in Hin.
  destruct (ensure_true_Ret _ _ _ _ He) as [[-> Hw]|[-> _]].
  - split_and!; [done | by destruct allow_duplicates |].
    by exists normalized, bucket.
  - by apply elem_of_nil in Hin.
Qed.

(** X6. A call of [add_object] that raises has changed nothing, not even
    created a mapping on the way: it raises [ValueError] for a path without
    a segment, and otherwise [TypeError], exactly when the path runs
    through a bucket or ends on a mapping. *)
Theorem add_object_raises_unchanged sep path object_name allow_duplicates data :
  (∀ data' e,
     add_object sep path object_name allow_duplicates data = (data', Raise e) →
     data' = data
     ∧ ((e = ValueError ∧ _normalize_path sep path = Raise ValueError)
        ∨ (e = TypeError
           ∧ ∃ normalized, _normalize_path sep path = Ret normalized
                           ∧ type_mismatch data normalized)))
  ∧ (∀ normalized,
       _normalize_path sep path = Ret normalized → type_mismatch data normalized →
       add_object sep path object_name allow_duplicates data = (data, Raise TypeError)).
Proof.
  split.
  - intros data' e. unfold add_object, bind, _ensure_bucket.
    destruct (_normalize_path sep path) as [normalized|e0] eqn:Hn.
    + destruct (ensure true data normalized) as [d1 [bucket|e1]] eqn:He.
      * by destruct (negb allow_duplicates && bool_decide (object_name ∈ bucket)).
      * intros [= <- <-].
        destruct (ensure_true_Raise _ _ _ _ (normalize_nonempty _ _ _ Hn) He)
          as (-> & -> & Hm).
        split; [done|]. right. split; [done|]. by exists normalized.
    + intros [= <- <-]. rewrite (normalize_raises _ _ _ Hn).
      split; [done|]. left. split; [done|]. by rewrite <- (normalize_raises _ _ _ Hn).
  - intros normalized Hn Hm. unfold add_object, bind, _ensure_bucket.
    by rewrite Hn, (ensure_type_mismatch true normalized data Hm).
Qed.
End AddFacts.

(** ** [extend_objects] *)

Module ExtendFacts.
Import ObjectDict DictFacts PathFacts TreeFacts PruneFacts ObjectDictFacts MoveFacts AddFacts.

(** The loop of [extend_objects]: what is appended, and the count. *)
Lemma extend_loop_added allow_duplicates object_names :
  ∀ bucket inserted bucket' inserted',
    extend_loop allow_duplicates object_names bucket inserted = (bucket', inserted') →
    ∃ added,
      bucket' = bucket ++ added
      ∧ inserted' = inserted + length added
      ∧ added `sublist_of` object_names
      ∧ (∀ x, x ∈ object_names → x ∈ bucket')
      ∧ (allow_duplicates = true → added = object_names)
      ∧ (allow_duplicates = false → NoDup added ∧ ∀ x, x ∈ added → x ∉ bucket).
Proof.
  induction object_names as [|name names IH]; intros bucket k bucket' k'.
  - intros [= <- <-]. exists []. rewrite app_nil_r. split_and!.
    + done.
    + simpl. lia.
    + done.
    + intros x Hx. by apply elem_of_nil in Hx.
    + done.
    + intros _. split; [constructor|]. intros x Hx. by apply elem_of_nil in Hx.
  - cbn [extend_loop].
    destruct (negb allow_duplicates && bool_decide (name ∈ bucket)) eqn:Hd.
    + apply andb_true_iff in Hd as [Hdup Hin]. apply bool_decide_eq_true in Hin.
      intros H. destruct (IH _ _ _ _ H) as (added & -> & -> & Hsub & Hall & Ht & Hf).
      exists added. split_and!; [done | done | by apply sublist_cons | | |].
      * intros x [->|Hx]%elem_of_cons; [|by apply Hall].
        apply elem_of_app. by left.
      * intros ->. done.
      * done.
    + intros H. destruct (IH _ _ _ _ H) as (added & -> & -> & Hsub & Hall & Ht & Hf).
      exists (name :: added). split_and!.
      * by rewrite <- app_assoc.
      * simpl. lia.
      * by apply sublist_skip.
      * intros x [->|Hx]%elem_of_cons; [|by apply Hall].
        rewrite <- app_assoc. apply elem_of_app. right. apply list_elem_of_here.
      * intros Hdup. by rewrite (Ht Hdup).
      * intros ->. simpl in Hd. apply bool_decide_eq_false in Hd.
        destruct (Hf eq_refl) as [Hnd Hnot]. split.
        -- apply NoDup_cons. split; [|done].
           intros Hx. apply (Hnot _ Hx). apply elem_of_app. right.
           apply list_elem_of_here.
        -- intros x [->|Hx]%elem_of_cons; [done|].
           intros Hb. apply (Hnot _ Hx). apply elem_of_app. by left.
Qed.

Lemma extend_loop_shift allow_duplicates object_names :
  ∀ bucket inserted,
    extend_loop allow_duplicates object_names bucket inserted
    = ((extend_loop allow_duplicates object_names bucket 0).1,
       inserted + (extend_loop allow_duplicates object_names bucket 0).2).
Proof.
  induction object_names as [|name names IH]; intros bucket k; cbn [extend_loop].
  - simpl. f_equal. lia.
  - destruct (negb allow_duplicates && bool_decide (name ∈ bucket)).
    + apply IH.
    + rewrite (IH _ (S k)), (IH _ 1). simpl. f_equal. lia.
Qed.

(** X7. [extend_objects] appends to the bucket at the path (the one that
    was there, or a new one) a subsequence of the given names, in their
    order, and returns how many it appended. Afterwards every given name is
    in the bucket. With duplicates allowed all names are appended. Without,
    the appended names are pairwise different and were not in the bucket,
    so a duplicate-free bucket stays duplicate-free, and names with a
    repetition give a count strictly below their number. *)
Theorem extend_objects_appends sep path object_names allow_duplicates data data' n :
  extend_objects sep path object_names allow_duplicates data = (data', Ret n) →
  ∃ normalized before added,
    _normalize_path sep path = Ret normalized
    ∧ (_walk (Mapping data) normalized = Ret (Bucket before)
       ∨ (before = [] ∧ _walk (Mapping data) normalized = Raise KeyError))
    ∧ _walk (Mapping data') normalized = Ret (Bucket (before ++ added))
    ∧ n = length added
    ∧ added `sublist_of` object_names
    ∧ (∀ x, x ∈ object_names → x ∈ before ++ added)
    ∧ (allow_duplicates = true → added = object_names)
    ∧ (allow_duplicates = false →
       (NoDup before → NoDup (before ++ added))
       ∧ (¬ NoDup object_names → n < length object_names)).
Proof.
  unfold extend_objects, bind, _ensure_bucket.
  destruct (_normalize_path sep path) as [normalized|e] eqn:Hn; [|done].
  destruct (ensure true data normalized) as [d1 [before|e]] eqn:He; [|done].
  pose proof (normalize_nonempty _ _ _ Hn) as Hne.
  pose proof (ensure_Ret_walk _ _ _ _ _ He) as Hw1.
  destruct (extend_loop allow_duplicates object_names before 0) as [bucket' k] eqn:Hl.
  intros [= <- <-].
  destruct (extend_loop_added _ _ _ _ _ _ Hl) as (added & -> & -> & Hsub & Hall & Ht & Hf).
  exists normalized, before, added. split_and!; [done | | | done..|].
  - destruct (ensure_true_Ret _ _ _ _ He) as [[_ H]|[-> H]]; [by left | by right].
  - by eapply bucket_store_walk.
  - intros Hdup. destruct (Hf Hdup) as [Hnd Hnot]. split.
    + intros Hb. apply NoDup_app. split_and!; [done | | done].
      intros x Hx Hx'. by apply (Hnot x Hx').
    + intros Hnames. simpl.
      destruct (decide (length added < length object_names)) as [|Hge]; [done|].
      exfalso. apply Hnames.
      assert (added ≡ₚ object_names) as <-; [|done].
      apply submseteq_length_Permutation; [by apply sublist_submseteq | lia].
Qed.

Lemma bucket_store_store path entries items items1 items2 :
  path ≠ [] → _walk (Mapping entries) path = Ret (Bucket items) →
  bucket_store path items2 (bucket_store path items1 entries)
  = bucket_store path items2 entries.
Proof.
  intros Hne Hw. revert path entries items Hne Hw.
  apply (bucket_path_ind (fun entries path items =>
    bucket_store path items2 (bucket_store path items1 entries)
    = bucket_store path items2 entries)).
  - intros entries last items Hget. simpl. apply dict_set_set.
  - intros entries key k2 rest child items Hget _ IH.
    rewrite !bucket_store_cons, Hget, dict_get_set_eq, IH. apply dict_set_set.
Qed.

(** X8. [extend_objects] with a first name and further names is
    [add_object] of the first name followed by [extend_objects] of the
    others on the same path, the count being the sum: same index, same
    result, same exception. *)
Theorem extend_objects_cons sep path name names allow_duplicates data :
  extend_objects sep path (name :: names) allow_duplicates data
  = (let* added := add_object sep path name allow_duplicates in
     let* n := extend_objects sep path names allow_duplicates in
     mret (if added then S n else n)) data.
Proof.
  unfold extend_objects, add_object, bind, _ensure_bucket.
  destruct (_normalize_path sep path) as [normalized|e] eqn:Hn; [|done].
  destruct (ensure true data normalized) as [d1 [bucket|e]] eqn:He; [|done].
  pose proof (normalize_nonempty _ _ _ Hn) as Hne.
  pose proof (ensure_Ret_walk _ _ _ _ _ He) as Hw1.
  cbn [extend_loop].
  destruct (negb allow_duplicates && bool_decide (name ∈ bucket)) eqn:Hd.
  - unfold mret. rewrite (ensure_existing true normalized d1 bucket Hne Hw1).
    by destruct (extend_loop allow_duplicates names bucket 0).
  - rewrite (ensure_existing true normalized _ (bucket ++ [name]) Hne
               (bucket_store_walk _ _ _ _ Hne Hw1)).
    rewrite (extend_loop_shift _ _ _ 1).
    destruct (extend_loop allow_duplicates names (bucket ++ [name]) 0) as [b' k].
    simpl. unfold mret. by rewrite (bucket_store_store _ _ _ _ _ Hne Hw1).
Qed.
End ExtendFacts.

(** ** [delete_path] *)

Module DeleteFacts.
Import ObjectDict DictFacts PathFacts TreeFacts PruneFacts ObjectDictFacts MoveFacts.

Lemma deleted_cons entries key k2 rest :
  deleted_tree entries (key :: k2 :: rest) =
  match dict_get key entries with
  | Some (Mapping child) =>
      if is_empty (deleted_tree child (k2 :: rest)) then dict_pop key entries
      else dict_set key (Mapping (deleted_tree child (k2 :: rest))) entries
  | _ => entries
  end.
Proof. done. Qed.

(** Induction on a non-empty path that walks to a node. *)
Lemma node_path_ind (P : LocationTree → Path → LocationValue → Prop) :
  (∀ entries last node,
      dict_get last entries = Some node → P entries [last] node) →
  (∀ entries key k2 rest child node,
      dict_get key entries = Some (Mapping child) →
      _walk (Mapping child) (k2 :: rest) = Ret node →
      P child (k2 :: rest) node → P entries (key :: k2 :: rest) node) →
  ∀ path entries node,
    path ≠ [] → _walk (Mapping entries) path = Ret node → P entries path node.
Proof.
  intros Hone Hmore path. induction path as [|key rest IH]; intros entries node Hne Hw.
  - done.
  - rewrite walk_cons in Hw.
    destruct (dict_get key entries) as [child|] eqn:Hget; [|done].
    destruct rest as [|k2 rest'].
    + simpl in Hw. injection Hw as ->. by apply Hone.
    + destruct child as [b|child]; [done|].
      eapply Hmore; [done..|]. by apply IH.
Qed.

(** The descent and the clean-up loop of [delete_path] against the
    recursion [deleted_tree]. *)
Lemma descend_unwind_delete path entries node :
  path ≠ [] → _walk (Mapping entries) path = Ret node →
  ∀ parents, ∃ current target_key ps,
    descend entries path parents = Some (current, target_key, ps)
    ∧ dict_get target_key current = Some node
    ∧ unwind (dict_pop target_key current) ps
      = unwind (deleted_tree entries path) parents.
Proof.
  intros Hne Hw. revert path entries node Hne Hw.
  apply (node_path_ind (fun entries path node =>
    ∀ parents, ∃ current target_key ps,
      descend entries path parents = Some (current, target_key, ps)
      ∧ dict_get target_key current = Some node
      ∧ unwind (dict_pop target_key current) ps
        = unwind (deleted_tree entries path) parents)).
  - intros entries last node Hget parents. by exists entries, last, parents.
  - intros entries key k2 rest child node Hget _ IH parents.
    destruct (IH ((entries, key) :: parents)) as (cur & last & ps & Hd & Hl & Hu).
    exists cur, last, ps. rewrite descend_cons, Hget.
    split; [exact Hd|]. split; [exact Hl|].
    rewrite Hu, deleted_cons, Hget, unwind_cons.
    destruct (is_empty (deleted_tree child (k2 :: rest))) eqn:E; [done|].
    symmetry. apply unwind_nonempty, dict_set_nonempty.
Qed.

(** Where the walk fails, the descent fails or the last key is missing. *)
Lemma descend_missing path : ∀ entries e parents,
  path ≠ [] → _walk (Mapping entries) path = Raise e →
  match descend entries path parents with
  | None => True
  | Some (current, target_key, _) => dict_get target_key current = None
  end.
Proof.
  induction path as [|key rest IH]; intros entries e parents Hne Hw; [done|].
  rewrite walk_cons in Hw. destruct rest as [|k2 rest'].
  - simpl. by destruct (dict_get key entries).
  - rewrite descend_cons.
    destruct (dict_get key entries) as [[b|child]|] eqn:Hget; [done| |done].
    by eapply IH.
Qed.

Lemma delete_path_exists sep path normalized data node :
  _normalize_path sep path = Ret normalized →
  _walk (Mapping data) normalized = Ret node →
  delete_path sep path data = (deleted_tree data normalized, Ret true).
Proof.
  intros Hn Hw. unfold delete_path. rewrite Hn.
  destruct (descend_unwind_delete normalized data node
              (normalize_nonempty _ _ _ Hn) Hw [])
    as (cur & last & ps & -> & -> & Hu).
  by rewrite Hu.
Qed.

Lemma delete_path_missing sep path normalized data e :
  _normalize_path sep path = Ret normalized →
  _walk (Mapping data) normalized = Raise e →
  delete_path sep path data = (data, Ret false).
Proof.
  intros Hn Hw. unfold delete_path. rewrite Hn.
  pose proof (descend_missing normalized data e []
                (normalize_nonempty _ _ _ Hn) Hw) as H.
  destruct (descend data normalized []) as [[[cur last] ps]|]; [|done].
  by rewrite H.
Qed.

Lemma walk_raises node path e : _walk node path = Raise e → e = KeyError.
Proof.
  revert node. induction path as [|key rest IH]; intros node; [done|].
  destruct node as [b|entries]; simpl; [by intros [= <-]|].
  destruct (dict_get key entries); [apply IH | by intros [= <-]].
Qed.

Lemma deleted_gone path entries node :
  path ≠ [] → _walk (Mapping entries) path = Ret node →
  wf_tree entries →
  _walk (Mapping (deleted_tree entries path)) path = Raise KeyError.
Proof.
  intros Hne Hw. revert path entries node Hne Hw.
  apply (node_path_ind (fun entries path node =>
    wf_tree entries →
    _walk (Mapping (deleted_tree entries path)) path = Raise KeyError)).
  - intros entries last node Hget Hwf. simpl deleted_tree.
    by rewrite walk_cons, dict_get_pop_eq by by apply wf_keys.
  - intros entries key k2 rest child node Hget _ IH Hwf.
    rewrite deleted_cons, Hget.
    destruct (is_empty _); rewrite walk_cons.
    + by rewrite dict_get_pop_eq by by apply wf_keys.
    + rewrite dict_get_set_eq. apply IH. by eapply wf_child.
Qed.

Lemma deleted_iter path entries node :
  path ≠ [] → _walk (Mapping entries) path = Ret node →
  ∀ prefix, ∃ l1 l2,
    iter_entries entries prefix = l1 ++ _iter_objects node (prefix ++ path) ++ l2
    ∧ iter_entries (deleted_tree entries path) prefix = l1 ++ l2.
Proof.
  intros Hne Hw. revert path entries node Hne Hw.
  apply (node_path_ind (fun entries path node =>
    ∀ prefix, ∃ l1 l2,
      iter_entries entries prefix = l1 ++ _iter_objects node (prefix ++ path) ++ l2
      ∧ iter_entries (deleted_tree entries path) prefix = l1 ++ l2)).
  - intros entries last node Hget prefix.
    destruct (iter_split last entries _ prefix Hget) as (l1 & l2 & Hset & Hpop).
    exists l1, l2. split; [|done].
    pose proof (Hset node) as H0. by rewrite dict_set_id in H0.
  - intros entries key k2 rest child node Hget _ IH prefix.
    destruct (iter_split key entries _ prefix Hget) as (l1 & l2 & Hset & Hpop).
    destruct (IH (prefix ++ [key])) as (m1 & m2 & Hbefore & Hafter).
    replace ((prefix ++ [key]) ++ k2 :: rest) with (prefix ++ key :: k2 :: rest)
      in Hbefore by (by rewrite <- app_assoc).
    pose proof (Hset (Mapping child)) as H0. rewrite dict_set_id in H0 by done.
    rewrite iter_Mapping, Hbefore in H0.
    rewrite deleted_cons, Hget.
    destruct (deleted_tree child (k2 :: rest)) as [|e d] eqn:E.
    + simpl. simpl in Hafter. symmetry in Hafter.
      apply app_eq_nil in Hafter as [-> ->].
      exists l1, l2. split; [|done]. rewrite H0. simpl. by rewrite app_nil_r.
    + cbn [is_empty]. exists (l1 ++ m1), (m2 ++ l2). split.
      * rewrite H0. by rewrite <- !app_assoc.
      * rewrite Hset, iter_Mapping, Hafter. by rewrite <- !app_assoc.
Qed.

(** X9. [delete_path] returns true exactly when the path exists, that is
    when [has_path] is true; when it returns false the index is left as it
    was. *)
Theorem delete_path_returns_has_path sep path data exists_ :
  has_path sep path data = Ret exists_ →
  ∃ data', delete_path sep path data = (data', Ret exists_)
           ∧ (exists_ = false → data' = data).
Proof.
  unfold has_path.
  destruct (_normalize_path sep path) as [normalized|e] eqn:Hn; [|done].
  destruct (_walk (Mapping data) normalized) as [node|e] eqn:Hw.
  - intros [= <-]. eexists. split; [by eapply delete_path_exists | done].
  - rewrite (walk_raises _ _ _ Hw). intros [= <-].
    exists data. split; [by eapply delete_path_missing | done].
Qed.

(** X10. On an index with unique keys, a path that has been deleted is
    gone: after [delete_path] has returned true, [has_path] is false and a
    second [delete_path] of the same path returns false and changes
    nothing. *)
Theorem delete_path_twice sep path data data' :
  wf_tree data →
  delete_path sep path data = (data', Ret true) →
  has_path sep path data' = Ret false
  ∧ delete_path sep path data' = (data', Ret false).
Proof.
  intros Hwf. unfold has_path.
  destruct (_normalize_path sep path) as [normalized|e] eqn:Hn.
  2:{ unfold delete_path. by rewrite Hn. }
  pose proof (normalize_nonempty _ _ _ Hn) as Hne.
  destruct (_walk (Mapping data) normalized) as [node|e] eqn:Hw.
  - rewrite (delete_path_exists _ _ _ _ _ Hn Hw). intros [= <-].
    pose proof (deleted_gone _ _ _ Hne Hw Hwf) as Hgone.
    rewrite Hgone. split; [done|]. by eapply delete_path_missing.
  - by rewrite (delete_path_missing _ _ _ _ _ Hn Hw).
Qed.

(** X11. [delete_path] removes the objects stored beneath the path, all
    of them and no others: what [iter_object_paths] yields afterwards is
    what it yielded before without the pairs of the deleted node, the
    others in the same order. *)
Theorem delete_path_removes_subtree sep path data data' :
  delete_path sep path data = (data', Ret true) →
  ∃ normalized node l1 l2,
    _normalize_path sep path = Ret normalized
    ∧ _walk (Mapping data) normalized = Ret node
    ∧ iter_object_paths data = l1 ++ _iter_objects node normalized ++ l2
    ∧ iter_object_paths data' = l1 ++ l2.
Proof.
  destruct (_normalize_path sep path) as [normalized|e] eqn:Hn.
  2:{ unfold delete_path. by rewrite Hn. }
  pose proof (normalize_nonempty _ _ _ Hn) as Hne.
  destruct (_walk (Mapping data) normalized) as [node|e] eqn:Hw.
  - rewrite (delete_path_exists _ _ _ _ _ Hn Hw). intros [= <-].
    destruct (deleted_iter _ _ _ Hne Hw []) as (l1 & l2 & Hb & Ha).
    exists normalized, node, l1, l2. rewrite !iter_object_paths_entries.
    by split_and!.
  - by rewrite (delete_path_missing _ _ _ _ _ Hn Hw).
Qed.
End DeleteFacts.

(** ** Copies of a name under [add_object], [remove_object], [move_object] *)

Module CopyFacts.
Import ObjectDict DictFacts PathFacts TreeFacts PruneFacts ObjectDictFacts MoveFacts.

Lemma paths_of_remove_other other object_name path items items' :
  other ≠ object_name →
  list_remove_first object_name items = Some items' →
  paths_of other (map (fun obj => (obj, path)) items')
  = paths_of other (map (fun obj => (obj, path)) items).
Proof.
  intros Hne. unfold paths_of. revert items'.
  induction items as [|x items IH]; intros items'; simpl; [done|].
  destruct (decide (object_name = x)) as [->|Hx].
  - intros [= <-]. by rewrite filter_cons_False by (simpl; congruence).
  - destruct (list_remove_first object_name items) as [r|]; [|done].
    intros [= <-]. cbn [map].
    destruct (decide (x = other)) as [->|Ho].
    + rewrite !filter_cons_True by done. simpl. f_equal. by apply IH.
    + rewrite !filter_cons_False by done. by apply IH.
Qed.

Lemma paths_of_bucket_snoc_other other object_name path items :
  other ≠ object_name →
  paths_of other (map (fun obj => (obj, path)) (items ++ [object_name]))
  = paths_of other (map (fun obj => (obj, path)) items).
Proof.
  intros Hne. unfold paths_of. rewrite map_app, filter_app. simpl.
  rewrite filter_cons_False by (simpl; congruence).
  by rewrite filter_nil, app_nil_r.
Qed.

Lemma paths_of_bucket_snoc object_name path items :
  length (paths_of object_name (map (fun obj => (obj, path)) (items ++ [object_name])))
  = S (length (paths_of object_name (map (fun obj => (obj, path)) items))).
Proof.
  unfold paths_of. rewrite map_app, filter_app. simpl.
  rewrite filter_cons_True by done.
  rewrite filter_nil, map_app, length_app. simpl. lia.
Qed.

Lemma length_around {A} (a b b' c : list A) :
  length b = S (length b') → length (a ++ b ++ c) = S (length (a ++ b' ++ c)).
Proof. rewrite !length_app. lia. Qed.

Lemma removed_tree_count object_name normalized items items' data :
  _walk (Mapping data) normalized = Ret (Bucket items) →
  list_remove_first object_name items = Some items' →
  length (locations object_name data)
  = S (length (locations object_name (removed_tree normalized items' data))).
Proof.
  intros Hw Hr.
  destruct (removed_tree_iter normalized items items' data
              (walk_root_nonempty _ _ _ Hw) Hw) as (l1 & l2 & Hb & Ha).
  rewrite !locations_paths_of, Hb, Ha, !paths_of_app.
  apply length_around. by apply paths_of_bucket_length.
Qed.

(** What [iter_object_paths] yields after [add_object]: the pairs of
    before, with one more in the bucket when the name was appended. *)
Lemma add_object_iter sep path object_name allow_duplicates data data' r :
  add_object sep path object_name allow_duplicates data = (data', r) →
  match r with
  | Ret true =>
      ∃ normalized bucket l1 l2,
        iter_entries data [] = l1 ++ map (fun obj => (obj, normalized)) bucket ++ l2
        ∧ iter_entries data' []
          = l1 ++ map (fun obj => (obj, normalized)) (bucket ++ [object_name]) ++ l2
  | _ => iter_entries data' [] = iter_entries data []
  end.
Proof.
  unfold add_object, bind, _ensure_bucket.
  destruct (_normalize_path sep path) as [normalized|e] eqn:Hn.
  2:{ by intros [= <- <-]. }
  destruct (ensure true data normalized) as [d1 [bucket|e]] eqn:He.
  2:{ intros [= <- <-]. by eapply ensure_iter. }
  pose proof (normalize_nonempty _ _ _ Hn) as Hne.
  pose proof (ensure_Ret_walk _ _ _ _ _ He) as Hw.
  pose proof (ensure_iter _ _ _ _ _ [] He) as Hiter.
  destruct (negb allow_duplicates && bool_decide (object_name ∈ bucket)).
  - by intros [= <- <-].
  - intros [= <- <-].
    destruct (bucket_store_iter normalized d1 bucket Hne Hw []) as (l1 & l2 & Hst).
    exists normalized, bucket, l1, l2. split; [|exact (Hst _)].
    rewrite <- Hiter. pose proof (Hst bucket) as H0.
    rewrite (bucket_store_id _ _ _ Hne Hw) in H0. exact H0.
Qed.

(** X12. A call of [remove_object] that returns true has removed one
    stored copy of the name, the first occurrence in one bucket (the one
    at the given path, or the one [find_object] finds), and nothing else:
    the name has one location less and every other object is where it
    was. *)
Theorem remove_object_one_copy sep object_name old_path data data' :
  remove_object sep object_name old_path data = (data', Ret true) →
  (∃ normalized items items' l1 l2,
     match old_path with
     | Some p => _normalize_path sep p = Ret normalized
     | None => find_object object_name data = Some normalized
     end
     ∧ _walk (Mapping data) normalized = Ret (Bucket items)
     ∧ list_remove_first object_name items = Some items'
     ∧ iter_object_paths data
       = l1 ++ map (fun obj => (obj, normalized)) items ++ l2
     ∧ iter_object_paths data'
       = l1 ++ map (fun obj => (obj, normalized)) items' ++ l2)
  ∧ length (locations object_name data) = S (length (locations object_name data'))
  ∧ ∀ other, other ≠ object_name →
             locations other data' = locations other data.
Proof.
  destruct (remove_object_cases sep object_name old_path data)
    as [(np & items & items' & Hw & Hr & Hold & ->) | (r & Hne & ->)].
  2:{ intros [= _ ->]. done. }
  intros [= <-].
  destruct (removed_tree_iter np items items' data (walk_root_nonempty _ _ _ Hw) Hw)
    as (l1 & l2 & Hb & Ha).
  split_and!.
  - exists np, items, items', l1, l2. rewrite !iter_object_paths_entries.
    by split_and!.
  - by eapply removed_tree_count.
  - intros other Hother.
    rewrite !locations_paths_of, Hb, Ha, !paths_of_app.
    by rewrite (paths_of_remove_other _ _ _ _ _ Hother Hr).
Qed.

Lemma remove_object_others sep object_name old_path data data' r other :
  remove_object sep object_name old_path data = (data', r) →
  other ≠ object_name →
  locations other data' = locations other data.
Proof.
  destruct (remove_object_cases sep object_name old_path data)
    as [(np & items & items' & Hw & Hr & Hold & ->) | (r0 & Hne & ->)].
  2:{ by intros [= <- _]. }
  intros [= <- _] Hother.
  destruct (removed_tree_iter np items items' data (walk_root_nonempty _ _ _ Hw) Hw)
    as (l1 & l2 & Hb & Ha).
  rewrite !locations_paths_of, Hb, Ha, !paths_of_app.
  by rewrite (paths_of_remove_other _ _ _ _ _ Hother Hr).
Qed.

Lemma add_object_others sep path object_name allow_duplicates data data' r other :
  add_object sep path object_name allow_duplicates data = (data', r) →
  other ≠ object_name →
  locations other data' = locations other data.
Proof.
  intros Ha Hother. apply add_object_iter in Ha. rewrite !locations_paths_of.
  destruct r as [[]|]; [|by rewrite Ha..].
  destruct Ha as (np & bucket & l1 & l2 & -> & ->).
  by rewrite !paths_of_app, paths_of_bucket_snoc_other.
Qed.

(** X13. [add_object], [remove_object] and [move_object] never touch
    another object: whatever the outcome of the call, a returned value or
    an exception, every name other than the one given has the locations it
    had. *)
Theorem other_objects_untouched sep object_name other data :
  other ≠ object_name →
  (∀ path allow_duplicates data' r,
     add_object sep path object_name allow_duplicates data = (data', r) →
     locations other data' = locations other data)
  ∧ (∀ old_path data' r,
       remove_object sep object_name old_path data = (data', r) →
       locations other data' = locations other data)
  ∧ (∀ new_path old_path allow_duplicates data' r,
       move_object sep object_name new_path old_path allow_duplicates data = (data', r) →
       locations other data' = locations other data).
Proof.
  intros Hother. split_and!.
  - intros path dup data' r H. by eapply add_object_others.
  - intros old_path data' r H. by eapply remove_object_others.
  - intros new_path old_path dup data' r. unfold move_object, bind.
    destruct (remove_object sep object_name old_path data) as [d1 [removed|e]] eqn:Hr.
    + pose proof (remove_object_others _ _ _ _ _ _ _ Hr Hother) as H1.
      destruct removed; simpl.
      * destruct (add_object sep new_path object_name dup d1) as [d2 [a|e]] eqn:Ha;
          intros [= <- _];
          by rewrite (add_object_others _ _ _ _ _ _ _ _ Ha Hother).
      * by intros [= <- _].
    + intros [= <- _]. by eapply remove_object_others.
Qed.

(** X14. A successful [move_object] keeps the number of stored copies of
    the name, except that it lowers it by one when [add_object] declined
    because the destination bucket already held the name. *)
Theorem move_object_copies sep object_name new_path old_path allow_duplicates
    data data' :
  move_object sep object_name new_path old_path allow_duplicates data = (data', Ret true) →
  length (locations object_name data') = length (locations object_name data)
  ∨ (allow_duplicates = false
     ∧ S (length (locations object_name data')) = length (locations object_name data)
     ∧ ∃ removed, remove_object sep object_name old_path data = (removed, Ret true)
                  ∧ add_object sep new_path object_name false removed
                    = (data', Ret false)).
Proof.
  unfold move_object, bind.
  destruct (remove_object sep object_name old_path data) as [d1 [[]|e]] eqn:Hr;
    [|done..].
  simpl.
  destruct (add_object sep new_path object_name allow_duplicates d1)
    as [d2 [added|e]] eqn:Ha; [|done].
  intros [= <-].
  destruct (remove_object_cases sep object_name old_path data)
    as [(np & items & items' & Hw & Hrm & Hold & Heq) | (r0 & Hne & Heq)];
    rewrite Heq in Hr.
  2:{ injection Hr as _ ->. done. }
  injection Hr as <-.
  pose proof (removed_tree_count _ _ _ _ _ Hw Hrm) as Hlen.
  pose proof (add_object_iter _ _ _ _ _ _ _ Ha) as Hi.
  destruct added.
  - left. destruct Hi as (np' & bucket & m1 & m2 & H1 & H2).
    rewrite Hlen, !locations_paths_of, H1, H2, !paths_of_app.
    apply length_around, paths_of_bucket_snoc.
  - right.
    assert (allow_duplicates = false) as ->.
    { revert Ha. unfold add_object, bind, _ensure_bucket.
      destruct (_normalize_path sep new_path); [|done].
      destruct (ensure true _ _) as [? [b|?]]; [|done].
      by destruct allow_duplicates. }
    split; [done|]. split.
    + by rewrite Hlen, !locations_paths_of, Hi.
    + by exists (removed_tree np items' data).
Qed.

(** X15. [move_object] is not atomic: when the removal has succeeded and
    the new path then runs through a bucket or ends on a mapping,
    [move_object] raises [TypeError] and the index is left as the removal
    left it; the copy that was removed is not put back. *)
Theorem move_object_type_mismatch_loses_copy sep object_name new_path old_path
    allow_duplicates data removed normalized :
  remove_object sep object_name old_path data = (removed, Ret true) →
  _normalize_path sep new_path = Ret normalized →
  type_mismatch removed normalized →
  move_object sep object_name new_path old_path allow_duplicates data
  = (removed, Raise TypeError)
  ∧ length (locations object_name data) = S (length (locations object_name removed)).
Proof.
  intros Hr Hn Hm. split.
  - unfold move_object, bind. rewrite Hr. simpl.
    unfold add_object, bind, _ensure_bucket.
    by rewrite Hn, (ensure_type_mismatch true normalized removed Hm).
  - destruct (remove_object_cases sep object_name old_path data)
      as [(np & items & items' & Hw & Hrm & Hold & Heq) | (r0 & Hne & Heq)];
      rewrite Heq in Hr.
    2:{ injection Hr as _ ->. done. }
    injection Hr as <-. by eapply removed_tree_count.
Qed.
End CopyFacts.

(** ** Path arguments, [has_path] and [get_path] *)

Module PathArgFacts.
Import ObjectDict DictFacts PathFacts TreeFacts DeleteFacts.

Lemma filter_nonempty_Forall parts :
  Forall (fun seg => seg ≠ "") (filter_nonempty parts).
Proof.
  unfold filter_nonempty. apply List.Forall_forall. intros seg Hin.
  apply List.filter_In in Hin as [_ Hne]. intros ->. done.
Qed.

(** X28. A path argument stands for its segments: when
    [_normalize_path] returns, the segments are not empty as a list, none
    of the segments of a string path is the empty string, and every
    method behaves on the path argument as on the sequence of its
    segments: same index afterwards, same result, same exception. *)
Theorem path_is_its_segments sep path normalized :
  _normalize_path sep path = Ret normalized →
  normalized ≠ []
  ∧ (∀ s, path = PStr s → Forall (fun seg => seg ≠ "") normalized)
  ∧ ∀ data,
      has_path sep path data = has_path sep (PSeq normalized) data
      ∧ (∀ default, get_path sep path default data
                    = get_path sep (PSeq normalized) default data)
      ∧ delete_path sep path data = delete_path sep (PSeq normalized) data
      ∧ (∀ object_name allow_duplicates,
           add_object sep path object_name allow_duplicates data
           = add_object sep (PSeq normalized) object_name allow_duplicates data)
      ∧ (∀ object_names allow_duplicates,
           extend_objects sep path object_names allow_duplicates data
           = extend_objects sep (PSeq normalized) object_names allow_duplicates data)
      ∧ (∀ object_name,
           remove_object sep object_name (Some path) data
           = remove_object sep object_name (Some (PSeq normalized)) data)
      ∧ (∀ object_name old_path allow_duplicates,
           move_object sep object_name path old_path allow_duplicates data
           = move_object sep object_name (PSeq normalized) old_path
                         allow_duplicates data).
Proof.
  intros Hn. pose proof (normalize_nonempty _ _ _ Hn) as Hne.
  pose proof (normalize_PSeq sep normalized Hne) as Hseq.
  split; [done|]. split.
  { intros s ->. revert Hn. unfold _normalize_path.
    destruct (str_split sep s) as [segs|]; [|done].
    destruct (filter_nonempty segs) eqn:E; [done|]. intros [= <-].
    rewrite <- E. apply filter_nonempty_Forall. }
  intros data.
  assert (Hadd : ∀ object_name allow_duplicates d,
            add_object sep path object_name allow_duplicates d
            = add_object sep (PSeq normalized) object_name allow_duplicates d).
  { intros. unfold add_object, bind, _ensure_bucket. by rewrite Hn, Hseq. }
  split_and!.
  - unfold has_path. by rewrite Hn, Hseq.
  - intros default. unfold get_path. by rewrite Hn, Hseq.
  - unfold delete_path. by rewrite Hn, Hseq.
  - intros. apply Hadd.
  - intros. unfold extend_objects, bind, _ensure_bucket. by rewrite Hn, Hseq.
  - intros. unfold remove_object, _ensure_bucket, bind, _prune_empty_branch.
    by rewrite Hn, Hseq.
  - intros. unfold move_object, bind.
    destruct (remove_object sep object_name old_path data) as [d1 [[]|e]]; simpl;
      [|done..].
    by rewrite Hadd.
Qed.

(** X29. [has_path] and [get_path] agree and never raise [KeyError]:
    when [has_path] is true [get_path] returns the node at the path,
    whatever the default; when it is false (a missing key, or a path that
    runs through a bucket) [get_path] returns the default; both raise only
    for a path without segment, and then [ValueError]. *)
Theorem get_path_has_path sep path default data :
  match has_path sep path data with
  | Ret true =>
      ∃ normalized node,
        _normalize_path sep path = Ret normalized
        ∧ _walk (Mapping data) normalized = Ret node
        ∧ get_path sep path default data = Ret (Some node)
  | Ret false =>
      get_path sep path default data = Ret default
      ∧ ∃ normalized,
          _normalize_path sep path = Ret normalized
          ∧ _walk (Mapping data) normalized = Raise KeyError
  | Raise e =>
      e = ValueError ∧ _normalize_path sep path = Raise ValueError
      ∧ get_path sep path default data = Raise ValueError
  end.
Proof.
  unfold has_path, get_path.
  destruct (_normalize_path sep path) as [normalized|e] eqn:Hn.
  - destruct (_walk (Mapping data) normalized) as [node|e] eqn:Hw.
    + by exists normalized, node.
    + pose proof (walk_raises _ _ _ Hw) as ->. split; [done|]. by exists normalized.
  - by pose proof (normalize_raises _ _ _ Hn) as ->.
Qed.
End PathArgFacts.

(** ** Steps and transitions of a process graph *)

Module GraphFacts.
Import ProcessGraph ProcessGraphFacts.

Lemma lookup_remove_step step adj k :
  is_Some (adj !! step) →
  remove_step step adj !! k =
  if decide (k = step) then None
  else (fun neighbors : gset string => neighbors ∖ {[step]}) <$> adj !! k.
Proof.
  intros [ns Hs]. unfold remove_step. rewrite Hs, lookup_fmap.
  case_decide; subst.
  - by rewrite lookup_delete_eq.
  - by rewrite lookup_delete_ne.
Qed.

Lemma edge_remove_step step adj a b :
  is_Some (adj !! step) →
  edge (remove_step step adj) a b ↔ edge adj a b ∧ a ≠ step ∧ b ≠ step.
Proof.
  intros Hs. unfold edge. rewrite (lookup_remove_step step adj a Hs).
  case_decide; subst.
  - split; [intros (? & ? & ?); done | intros (_ & ? & _); done].
  - destruct (adj !! a) as [ns|]; simpl.
    + split.
      * intros (ns' & [= <-] & Hb). split; [exists ns|]; set_solver.
      * intros ((ns' & [= <-] & Hb) & _ & Hbs).
        eexists. split; [done|]. set_solver.
    + split; [intros (? & ? & ?); done | intros ((? & ? & ?) & _); done].
Qed.

Lemma lookup_add_transition start end_ adj k :
  add_transition start end_ adj !! k =
  if decide (k = start) then Some (default ∅ (adj !! start) ∪ {[end_]})
  else if decide (k = end_) then Some (default ∅ (adj !! end_))
  else adj !! k.
Proof.
  unfold add_transition.
  destruct (decide (k = start)) as [->|Hks].
  - rewrite lookup_insert_eq, !lookup_add_step.
    destruct (decide (start = end_)) as [->|Hse].
    + by rewrite decide_True by done.
    + simpl. by rewrite decide_True by done.
  - rewrite lookup_insert_ne by done. rewrite !lookup_add_step.
    destruct (decide (k = end_)) as [->|Hke].
    + by rewrite (decide_False (P := end_ = start)) by done.
    + by rewrite decide_False by done.
Qed.

Lemma edge_add_transition start end_ adj a b :
  edge (add_transition start end_ adj) a b
  ↔ edge adj a b ∨ (a = start ∧ b = end_).
Proof.
  rewrite !edge_successor_set. unfold successor_set.
  rewrite lookup_add_transition.
  destruct (decide (a = start)) as [->|Has]; simpl; [set_solver|].
  destruct (decide (a = end_)) as [->|Hae]; simpl; [|naive_solver].
  naive_solver.
Qed.

Lemma steps_add_transition start end_ adj :
  steps (add_transition start end_ adj) = steps adj ∪ {[start; end_]}.
Proof.
  apply set_eq. intros k. unfold steps.
  rewrite elem_of_union, !elem_of_dom, lookup_add_transition.
  repeat case_decide; subst; set_solver.
Qed.

Lemma edge_remove_transition start end_ adj a b :
  edge (remove_transition start end_ adj) a b
  ↔ edge adj a b ∧ ¬ (a = start ∧ b = end_).
Proof.
  unfold remove_transition, edge.
  destruct (adj !! start) as [ns|] eqn:Hs.
  - destruct (decide (a = start)) as [->|Has].
    + rewrite lookup_insert_eq, Hs. split.
      * intros (ns' & [= <-] & Hb). split; [exists ns; set_solver | set_solver].
      * intros ((ns' & [= <-] & Hb) & Hnot). eexists. split; [done|]. set_solver.
    + rewrite lookup_insert_ne by done. naive_solver.
  - split; [|naive_solver].
    intros (ns & Ha & Hb). split; [eauto|]. intros [-> _]. congruence.
Qed.

Lemma steps_remove_transition start end_ adj :
  steps (remove_transition start end_ adj) = steps adj.
Proof.
  unfold remove_transition, steps.
  destruct (adj !! start) as [ns|] eqn:Hs; [|done].
  apply set_eq. intros k. rewrite !elem_of_dom.
  destruct (decide (k = start)) as [->|Hk].
  - rewrite lookup_insert_eq, Hs. split; eauto.
  - by rewrite lookup_insert_ne.
Qed.

Lemma edge_add_step step adj a b : edge (add_step step adj) a b ↔ edge adj a b.
Proof.
  rewrite !edge_successor_set. unfold successor_set. rewrite lookup_add_step.
  case_decide; subst; done.
Qed.

Lemma steps_add_step step adj : steps (add_step step adj) = steps adj ∪ {[step]}.
Proof.
  apply set_eq. intros k. unfold steps.
  rewrite elem_of_union, !elem_of_dom, lookup_add_step.
  case_decide; subst; set_solver.
Qed.

Lemma elem_of_predecessor_set step adj a :
  a ∈ predecessor_set step adj ↔ edge adj a step.
Proof.
  unfold predecessor_set, edge. rewrite elem_of_dom. unfold is_Some.
  setoid_rewrite map_lookup_filter_Some. simpl. done.
Qed.

(** Python's order on [str] is a total preorder. *)
Lemma str_le_total : Total str_le.
Proof. intros a b. apply String.leb_total. Qed.

Lemma str_le_trans : Transitive str_le.
Proof.
  intros a. induction a as [|c1 a IH]; intros [|c2 b] [|c3 c];
    unfold str_le, String.leb; simpl; try done.
  unfold Ascii.compare.
  destruct (N.compare_spec (N_of_ascii c1) (N_of_ascii c2)),
           (N.compare_spec (N_of_ascii c2) (N_of_ascii c3)),
           (N.compare_spec (N_of_ascii c1) (N_of_ascii c3));
    try done; try lia.
  apply IH.
Qed.

Lemma elem_of_sorted (s : gset string) x : x ∈ sorted s ↔ x ∈ s.
Proof. unfold sorted. by rewrite merge_sort_Permutation, elem_of_elements. Qed.

Lemma NoDup_sorted (s : gset string) : NoDup (sorted s).
Proof. unfold sorted. rewrite merge_sort_Permutation. apply NoDup_elements. Qed.

Lemma closed_add_step step adj : closed adj → closed (add_step step adj).
Proof.
  intros Hc a b. rewrite edge_add_step, steps_add_step. intros H.
  apply Hc in H. set_solver.
Qed.

Lemma closed_remove_step step adj : closed adj → closed (remove_step step adj).
Proof.
  intros Hc a b. destruct (adj !! step) as [ns|] eqn:Hs.
  - rewrite edge_remove_step by eauto. intros (H & _ & Hb).
    apply Hc in H. unfold steps in *. apply elem_of_dom.
    rewrite lookup_remove_step by eauto. rewrite decide_False by done.
    apply elem_of_dom in H. by apply fmap_is_Some.
  - unfold remove_step. rewrite Hs. apply Hc.
Qed.

Lemma closed_update_step old_step new_step adj :
  closed adj → closed (update_step old_step new_step adj).
Proof.
  intros Hc.
  destruct (decide (old_step = new_step)) as [->|Hne].
  { unfold update_step. by rewrite decide_True. }
  destruct (adj !! old_step) as [ns|] eqn:Hs.
  2:{ unfold update_step. rewrite decide_False by done. by rewrite Hs. }
  assert (Hold : is_Some (adj !! old_step)) by eauto.
  intros a b H'. unfold steps. apply elem_of_dom.
  rewrite (lookup_update_step _ _ _ _ Hne Hold).
  apply (edge_update_step _ _ _ _ _ Hne Hold) in H'.
  assert (Hin : ∀ x y, y ∈ successor_set x adj → is_Some (adj !! y)).
  { intros x y Hy. apply edge_successor_set, Hc in Hy. by apply elem_of_dom. }
  destruct H' as (Hao & [(-> & [(Hbo & [H|[H Hbn]]) | (-> & _)])
                        | (Han & ns' & Hns & [[Hbo Hb]|[-> Hb]])]).
  - rewrite decide_False by done. case_decide; [eauto|].
    apply fmap_is_Some. eauto.
  - rewrite decide_False by done. case_decide; [eauto|].
    apply fmap_is_Some. eauto.
  - rewrite decide_False by done. rewrite decide_True by done. eauto.
  - rewrite decide_False by done. case_decide; [eauto|].
    apply fmap_is_Some. apply (Hin a). unfold successor_set. by rewrite Hns.
  - rewrite decide_False by done. rewrite decide_True by done. eauto.
Qed.

Lemma closed_add_transition start end_ adj :
  closed adj → closed (add_transition start end_ adj).
Proof.
  intros Hc a b. rewrite edge_add_transition, steps_add_transition.
  intros [H|[-> ->]]; [apply Hc in H|]; set_solver.
Qed.

Lemma closed_remove_transition start end_ adj :
  closed adj → closed (remove_transition start end_ adj).
Proof.
  intros Hc a b. rewrite edge_remove_transition, steps_remove_transition.
  intros [H _]. by apply Hc in H.
Qed.

Lemma closed_single_edge a b : a ≠ b → closed (single_edge a b).
Proof.
  intros Hab x y (ns & Hx & Hy). unfold steps. apply elem_of_dom.
  rewrite lookup_single_edge in Hx by done. rewrite lookup_single_edge by done.
  destruct (decide (x = a)) as [->|Hxa].
  - injection Hx as <-. apply elem_of_singleton in Hy as ->.
    rewrite decide_False by done. rewrite decide_True by done. eauto.
  - destruct (decide (x = b)); [|done]. injection Hx as <-.
    by apply elem_of_empty in Hy.
Qed.

(** X16. The graph stays closed: when every step a transition leads to
    is itself a step of the graph, this is still so after [add_step],
    [remove_step], [update_step], [add_transition] and
    [remove_transition], for any arguments. *)
Theorem closed_preserved adj :
  closed adj →
  (∀ step, closed (add_step step adj))
  ∧ (∀ step, closed (remove_step step adj))
  ∧ (∀ old_step new_step, closed (update_step old_step new_step adj))
  ∧ (∀ start end_, closed (add_transition start end_ adj))
  ∧ (∀ start end_, closed (remove_transition start end_ adj)).
Proof.
  intros Hc. split_and!; intros.
  - by apply closed_add_step.
  - by apply closed_remove_step.
  - by apply closed_update_step.
  - by apply closed_add_transition.
  - by apply closed_remove_transition.
Qed.

(** X17. [add_transition(start, end)] makes both steps exist and adds the
    one transition: afterwards the steps are those of before with [start]
    and [end], the transitions are those of before with [start -> end],
    [end] is listed by [successors(start)] and [start] by
    [predecessors(end)]. *)
Theorem add_transition_adds_edge start end_ adj :
  let adj' := add_transition start end_ adj in
  steps adj' = steps adj ∪ {[start; end_]}
  ∧ (∀ a b, edge adj' a b ↔ edge adj a b ∨ (a = start ∧ b = end_))
  ∧ end_ ∈ successors start adj'
  ∧ start ∈ predecessors end_ adj'.
Proof.
  intros adj'. subst adj'. split_and!.
  - apply steps_add_transition.
  - intros a b. apply edge_add_transition.
  - unfold successors. rewrite elem_of_sorted, <- edge_successor_set.
    apply edge_add_transition. by right.
  - unfold predecessors. rewrite elem_of_sorted, elem_of_predecessor_set.
    apply edge_add_transition. by right.
Qed.

(** X18. [remove_step] of a step of the graph removes the step and every
    transition from or to it, and nothing else; for a name that is not a
    step it changes nothing. *)
Theorem remove_step_removes step adj :
  (step ∈ steps adj →
   steps (remove_step step adj) = steps adj ∖ {[step]}
   ∧ (∀ a b, edge (remove_step step adj) a b
             ↔ edge adj a b ∧ a ≠ step ∧ b ≠ step)
   ∧ successors step (remove_step step adj) = []
   ∧ predecessors step (remove_step step adj) = [])
  ∧ (step ∉ steps adj → remove_step step adj = adj).
Proof.
  split.
  - intros Hs. unfold steps in Hs. apply elem_of_dom in Hs. split_and!.
    + apply set_eq. intros k. unfold steps.
      rewrite elem_of_difference, !elem_of_dom, lookup_remove_step by done.
      case_decide; subst.
      * split; [intros [? ?]; done | set_solver].
      * rewrite fmap_is_Some. set_solver.
    + intros a b. by apply edge_remove_step.
    + apply elem_of_nil_inv. intros x. unfold successors.
      rewrite elem_of_sorted, <- edge_successor_set, edge_remove_step by done.
      naive_solver.
    + apply elem_of_nil_inv. intros x. unfold predecessors.
      rewrite elem_of_sorted, elem_of_predecessor_set, edge_remove_step by done.
      naive_solver.
  - intros Hs. unfold steps in Hs. apply not_elem_of_dom in Hs.
    unfold remove_step. by rewrite Hs.
Qed.

(** X19. [remove_transition(start, end)] removes that transition and no
    other, and keeps every step, also [start] and [end] themselves; after
    [add_transition(start, end)] it gives back the transitions of before,
    without [start -> end]. *)
Theorem remove_transition_removes_edge start end_ adj :
  steps (remove_transition start end_ adj) = steps adj
  ∧ (∀ a b, edge (remove_transition start end_ adj) a b
            ↔ edge adj a b ∧ ¬ (a = start ∧ b = end_))
  ∧ (∀ a b, edge (remove_transition start end_ (add_transition start end_ adj)) a b
            ↔ edge adj a b ∧ ¬ (a = start ∧ b = end_))
  ∧ steps (remove_transition start end_ (add_transition start end_ adj))
    = steps adj ∪ {[start; end_]}.
Proof.
  split_and!.
  - apply steps_remove_transition.
  - intros a b. apply edge_remove_transition.
  - intros a b. rewrite edge_remove_transition, edge_add_transition. naive_solver.
  - by rewrite steps_remove_transition, steps_add_transition.
Qed.

(** X20. [successors] and [predecessors] list each step once, in
    ascending order, and are converse to each other: [b] is listed by
    [successors(a)] exactly when [a] is listed by [predecessors(b)],
    which is when there is a transition from [a] to [b]. *)
Theorem successors_predecessors adj a b :
  (b ∈ successors a adj ↔ edge adj a b)
  ∧ (a ∈ predecessors b adj ↔ edge adj a b)
  ∧ NoDup (successors a adj) ∧ StronglySorted str_le (successors a adj)
  ∧ NoDup (predecessors b adj) ∧ StronglySorted str_le (predecessors b adj).
Proof.
  unfold successors, predecessors. split_and!.
  - by rewrite elem_of_sorted, edge_successor_set.
  - by rewrite elem_of_sorted, elem_of_predecessor_set.
  - apply NoDup_sorted.
  - apply StronglySorted_merge_sort; [apply str_le_trans | apply str_le_total].
  - apply NoDup_sorted.
  - apply StronglySorted_merge_sort; [apply str_le_trans | apply str_le_total].
Qed.
End GraphFacts.

(** ** The tools of the service and [_handle_tool_call] *)

Module ServiceFacts.
Import ObjectDict ProcessGraph PreferenceService Orchestrator.
Import DictFacts PathFacts TreeFacts ToolFacts DeleteFacts GraphFacts.

Lemma service_eta svc :
  {| _graphs := _graphs svc; _object_dict := _object_dict svc |} = svc.
Proof. by destruct svc. Qed.

Lemma dict_pop_set_new {V} k (v : V) d :
  dict_get k d = None → dict_pop k (dict_set k v d) = d.
Proof.
  induction d as [|[k0 v0] d IH]; simpl.
  - by rewrite decide_True.
  - destruct (decide (k = k0)) as [->|Hk]; [done|]. simpl.
    rewrite decide_False by done. intros H. by rewrite IH.
Qed.

Lemma Forall_dict_set {V} (P : string * V → Prop) k v d :
  (∀ k0, P (k0, v)) → Forall P d → Forall P (dict_set k v d).
Proof.
  intros Hv. induction 1 as [|[k0 v0] d H0 Hd IH]; simpl.
  - by repeat constructor.
  - destruct (decide (k = k0)); constructor; auto.
Qed.

Lemma Forall_dict_pop {V} (P : string * V → Prop) k d :
  Forall P d → Forall P (dict_pop k d).
Proof.
  induction 1 as [|[k0 v0] d H0 Hd IH]; simpl; [constructor|].
  destruct (decide (k = k0)); [done|]. by constructor.
Qed.

(** What a registered method does to the two stores of the service. *)
Lemma call_effect t args svc svc' r :
  call t args svc = (svc', r) →
  match t with
  | list_process_graphs | list_object_locations => svc' = svc
  | add_object_tool | move_object_tool | delete_path_tool =>
      _graphs svc' = _graphs svc
  | delete_process_graph =>
      _object_dict svc' = _object_dict svc
      ∧ (svc' = svc ∨ ∃ name, _graphs svc' = dict_pop name (_graphs svc))
  | _ =>
      _object_dict svc' = _object_dict svc
      ∧ (svc' = svc
         ∨ ∃ key graph,
             _graphs svc' = dict_set key graph (_graphs svc)
             ∧ (_adjacency graph = ∅
                ∨ ∃ before mutate,
                    dict_get key (_graphs svc) = Some before
                    ∧ _adjacency graph = mutate (_adjacency before)
                    ∧ ∀ adj, closed adj → closed (mutate adj)))
  end.
Proof.
  intros H.
  destruct t; unfold call in H;
    match type of H with
    | (if ?b then _ else _) _ = _ => destruct b; [|by injection H as <- _; auto]
    end;
    unfold bind, pure, mret, mraise, tool_list_process_graphs,
      tool_create_process_graph, tool_delete_process_graph,
      tool_add_process_step, tool_update_process_step,
      tool_add_process_transition, tool_remove_process_transition,
      tool_list_object_locations, tool_add_object, tool_move_object,
      tool_delete_path, with_graph, on_objects, bind, mret in H;
    repeat case_match; simplify_eq; simpl; auto;
    split; auto; right.
  - eexists _, _. split; [done|]. by left.
  - by eexists.
  - eexists _, _. split; [done|]. right. eexists _, _. split_and!; [done..|].
    intros adj. apply closed_add_step.
  - eexists _, _. split; [done|]. right. eexists _, _. split_and!; [done..|].
    intros adj. apply closed_update_step.
  - eexists _, _. split; [done|]. right. eexists _, _. split_and!; [done..|].
    intros adj. apply closed_add_transition.
  - eexists _, _. split; [done|]. right. eexists _, _. split_and!; [done..|].
    intros adj. apply closed_remove_transition.
Qed.

Lemma execute_call name args svc :
  (get_tool_callable name = Raise KeyError
   ∧ _execute_tool_call name args svc
     = (svc, _error ("Tool " ++ repr name ++ " is not registered.")))
  ∨ (∃ t svc' r, get_tool_callable name = Ret t
                 ∧ call t args svc = (svc', r)
                 ∧ (_execute_tool_call name args svc).1 = svc').
Proof.
  unfold _execute_tool_call, get_tool_callable.
  destruct (dict_get name _FUNCTION_REGISTRY) as [t|]; [|by left].
  right. destruct (call t args svc) as [svc' r] eqn:E.
  exists t, svc', r. split_and!; [done..|]. by destruct r as [?|[]].
Qed.

(** X21. Each tool touches its own store only: through
    [_execute_tool_call], a name that is not registered and the two
    listing tools leave the service as it is, the process-graph tools
    leave the object index as it is, and the object tools leave the
    process graphs as they are, whatever the arguments and whether the
    call succeeds or not. *)
Theorem tools_touch_own_store name args svc :
  let svc' := (_execute_tool_call name args svc).1 in
  match get_tool_callable name with
  | Raise _ => svc' = svc
  | Ret (list_process_graphs | list_object_locations) => svc' = svc
  | Ret (add_object_tool | move_object_tool | delete_path_tool) =>
      _graphs svc' = _graphs svc
  | Ret _ => _object_dict svc' = _object_dict svc
  end.
Proof.
  intros svc'. subst svc'.
  destruct (execute_call name args svc) as [[-> ->] | (t & svc' & r & -> & Hc & ->)];
    [done|].
  apply call_effect in Hc. destruct t; tauto.
Qed.

(** X22. Creating a process graph under a free name and deleting it
    again gives back the service as it was: the creation succeeds and
    files an empty graph under the name, a second creation is refused
    with an error and changes nothing, the deletion succeeds and restores
    the service, and a second deletion is refused. *)
Theorem create_then_delete_graph name svc :
  dict_get name (_graphs svc) = None →
  ∃ svc1,
    tool_create_process_graph name svc
    = (svc1, Ret (_success [("graph", _graph_snapshot (mkGraph name ∅))]))
    ∧ dict_get name (_graphs svc1) = Some (mkGraph name ∅)
    ∧ dict_keys (_graphs svc1) = dict_keys (_graphs svc) ++ [name]
    ∧ tool_create_process_graph name svc1
      = (svc1, Ret (_error ("Graph " ++ repr name ++ " already exists.")))
    ∧ tool_delete_process_graph name svc1
      = (svc, Ret (_success [("message", JStr ("Graph " ++ name ++ " deleted."))]))
    ∧ tool_delete_process_graph name svc = (svc, Ret (not_found name)).
Proof.
  intros Hfree. eexists. unfold tool_create_process_graph at 1. rewrite Hfree.
  split; [reflexivity|].
  unfold tool_create_process_graph, tool_delete_process_graph. simpl.
  rewrite dict_get_set_eq, Hfree, dict_pop_set_new, service_eta by done.
  split_and!; try done. by apply dict_keys_set_new.
Qed.

Lemma forallb_false {A} (f : A → bool) l :
  forallb f l = false ↔ ∃ x, x ∈ l ∧ f x = false.
Proof.
  induction l as [|y l IH]; simpl.
  - split; [done | intros (x & H & _); by apply elem_of_nil in H].
  - rewrite andb_false_iff, IH. setoid_rewrite elem_of_cons. naive_solver.
Qed.

Lemma binds_false params required args :
  binds params required args = false
  ↔ (∃ k, k ∈ dict_keys args ∧ k ∉ params)
    ∨ (∃ k, k ∈ required ∧ dict_get k args = None).
Proof.
  unfold binds, dict_keys. rewrite andb_false_iff, !forallb_false. split.
  - intros [(x & Hin & Hf) | (k & Hin & Hf)]; [left|right].
    + exists x.1. split; [apply list_elem_of_fmap; by exists x|].
      by apply bool_decide_eq_false in Hf.
    + exists k. split; [done|]. apply bool_decide_eq_false in Hf.
      by apply eq_None_not_Some.
  - intros [(k & Hin & Hk) | (k & Hin & Hk)]; [left|right].
    + apply list_elem_of_fmap in Hin as (x & -> & Hin).
      exists x. split; [done|]. by apply bool_decide_eq_false.
    + exists k. split; [done|]. apply bool_decide_eq_false. rewrite Hk.
      by intros [? ?].
Qed.

Lemma call_unbound t args :
  binds (signature t).1 (signature t).2 args = false →
  call t args = mraise TypeError.
Proof. destruct t; unfold call; simpl signature; simpl fst; simpl snd; by intros ->. Qed.

(** X23. A call that cannot be dispatched changes nothing:
    [_execute_tool_call] with a name that is not in the registry, or
    with arguments that do not fit the parameters of the method (a
    keyword the method does not have, or a parameter without default
    that is missing), returns an error envelope and leaves the service
    as it is. *)
Theorem rejected_call_leaves_service name args svc :
  (name ∉ dict_keys _FUNCTION_REGISTRY →
   _execute_tool_call name args svc
   = (svc, _error ("Tool " ++ repr name ++ " is not registered.")))
  ∧ (∀ t, get_tool_callable name = Ret t →
          (∃ k, k ∈ dict_keys args ∧ k ∉ (signature t).1)
          ∨ (∃ k, k ∈ (signature t).2 ∧ dict_get k args = None) →
          _execute_tool_call name args svc
          = (svc, _error ("Invalid arguments for " ++ repr name ++ ": "))).
Proof.
  split.
  - intros Hn. apply dict_get_None in Hn.
    unfold _execute_tool_call, get_tool_callable. by rewrite Hn.
  - intros t Ht Hb. apply binds_false in Hb.
    unfold _execute_tool_call. rewrite Ht.
    by rewrite (call_unbound t args Hb).
Qed.

Lemma handle_cons_skipped c rest svc :
  skipped c = true → _handle_tool_call (c :: rest) svc = _handle_tool_call rest svc.
Proof.
  unfold skipped. simpl.
  by destruct (call_name c) as [[|? ?]|], (call_id c).
Qed.

Lemma handle_cons_run c rest svc :
  skipped c = false →
  ∃ name call_id,
    call_name c = Some name ∧ Orchestrator.call_id c = Some call_id ∧
    _handle_tool_call (c :: rest) svc
    = (let '(svc1, tool_result) :=
         _execute_tool_call name (default [] (call_args c)) svc in
       let '(svc2, responses) := _handle_tool_call rest svc1 in
       (svc2, mkResponse name tool_result call_id :: responses)).
Proof.
  unfold skipped. simpl.
  destruct (call_name c) as [[|a s]|], (call_id c) as [i|]; try done.
  intros _. by exists (String a s), i.
Qed.



Lemma closed_call t args svc svc' r :
  call t args svc = (svc', r) → closed_service svc → closed_service svc'.
Proof.
  intros Hc Hcl. apply call_effect in Hc. unfold closed_service in *.
  assert (Hset : ∀ key graph,
    _graphs svc' = dict_set key graph (_graphs svc) →
    _adjacency graph = ∅
    ∨ (∃ before mutate,
         dict_get key (_graphs svc) = Some before
         ∧ _adjacency graph = mutate (_adjacency before)
         ∧ ∀ adj, closed adj → closed (mutate adj)) →
    Forall (fun kv : string * ProcessGraph => closed (_adjacency kv.2)) (_graphs svc')).
  { intros key graph -> Hg. apply Forall_dict_set; [|done]. intros k0. simpl.
    destruct Hg as [-> | (before & mutate & Hget & -> & Hm)].
    - intros a b (ns & Hns & _). by rewrite lookup_empty in Hns.
    - apply Hm. apply dict_get_Some_elem in Hget.
      rewrite List.Forall_forall in Hcl.
      apply list_elem_of_In, Hcl in Hget. exact Hget. }
  destruct t;
    try (by rewrite Hc);
    try (destruct Hc as [_ [-> | (key & graph & Hg & Hor)]]; [done | by eapply Hset]).
  destruct Hc as [_ [-> | (key & ->)]]; [done|]. by apply Forall_dict_pop.
Qed.

(** X26. The tools keep every process graph of the service closed: when
    in each graph every step a transition leads to is a step of the
    graph, this is still so after [_handle_tool_call] has run any list of
    function calls, with any names and arguments. *)
Theorem handle_tool_call_keeps_graphs_closed function_calls svc :
  closed_service svc →
  closed_service (_handle_tool_call function_calls svc).1.
Proof.
  revert svc. induction function_calls as [|c rest IH]; intros svc Hcl; [done|].
  destruct (skipped c) eqn:Hs.
  - rewrite handle_cons_skipped by done. by apply IH.
  - destruct (handle_cons_run c rest svc Hs) as (name & i & Hn & Hi & ->).
    assert (H1 : closed_service
                   (_execute_tool_call name (default [] (call_args c)) svc).1).
    { destruct (execute_call name (default [] (call_args c)) svc)
        as [[_ ->] | (t & svc' & r & _ & Hc & ->)]; [done|].
      by eapply closed_call. }
    destruct (_execute_tool_call name (default [] (call_args c)) svc)
      as [svc1 result].
    specialize (IH svc1 H1).
    by destruct (_handle_tool_call rest svc1).
Qed.

(** X27. The [delete_path] tool through [_execute_tool_call], for a
    path argument that is a string or a list: when the path exists it is
    deleted from the index and the response is a success; when it does
    not exist the response is an error and the service is unchanged; when
    the path has no segment, the [ValueError] of the index becomes an
    error response, the service unchanged. *)
Theorem delete_path_tool_call a path svc :
  as_path (Some a) = Ret path →
  match has_path path_separator path (_object_dict svc) with
  | Ret true =>
      ∃ data', delete_path path_separator path (_object_dict svc) = (data', Ret true)
               ∧ _execute_tool_call "delete_path" [("path", a)] svc
                 = ({| _graphs := _graphs svc; _object_dict := data' |},
                    _success [("message",
                               JStr ("Removed path " ++ str_of_path path ++ "."))])
  | Ret false =>
      _execute_tool_call "delete_path" [("path", a)] svc
      = (svc, _error ("Path " ++ str_of_path path ++ " does not exist."))
  | Raise _ =>
      _execute_tool_call "delete_path" [("path", a)] svc
      = (svc, _error "Tool 'delete_path' failed: ")
  end.
Proof.
  intros Ha.
  assert (Hx : _execute_tool_call "delete_path" [("path", a)] svc
               = match tool_delete_path path svc with
                 | (svc', Ret result) => (svc', result)
                 | (svc', Raise TypeError) =>
                     (svc', _error "Invalid arguments for 'delete_path': ")
                 | (svc', Raise _) => (svc', _error "Tool 'delete_path' failed: ")
                 end).
  { unfold _execute_tool_call.
    change (get_tool_callable "delete_path") with (Ret delete_path_tool).
    cbv beta iota. unfold call. change (binds _ _ _) with true. cbv beta iota.
    unfold bind at 1, pure. change (dict_get "path" _) with (Some a).
    by rewrite Ha. }
  rewrite Hx. unfold tool_delete_path, bind, on_objects, has_path.
  destruct (_normalize_path path_separator path) as [normalized|e] eqn:Hn.
  - destruct (_walk (Mapping (_object_dict svc)) normalized) as [node|e] eqn:Hw.
    + rewrite (delete_path_exists _ _ _ _ _ Hn Hw). simpl. eauto.
    + rewrite (walk_raises _ _ _ Hw).
      rewrite (delete_path_missing _ _ _ _ _ Hn Hw). simpl.
      by rewrite service_eta.
  - unfold delete_path. rewrite Hn. rewrite service_eta.
    by rewrite (normalize_raises _ _ _ Hn).
Qed.
End ServiceFacts.

(** ** Scenarios on concrete stores *)

Module Scenarios.
Import ObjectDict home_layout ProcessGraph PreferenceService Orchestrator.
Import ObjectDictFacts MoveFacts RemoveFacts ProcessGraphFacts ToolFacts.





(** C5, as stated, fails: the name is already stored in a bucket that
    the traversal reaches first, and [find_object] returns that one. *)
Lemma add_then_find_earlier_copy :
  add_object "/" (PSeq ["Office"]) "mug" false [("Kitchen", Bucket ["mug"])]
  = ([("Kitchen", Bucket ["mug"]); ("Office", Bucket ["mug"])], Ret true)
  ∧ find_object "mug" [("Kitchen", Bucket ["mug"]); ("Office", Bucket ["mug"])]
    = Some ["Kitchen"]
  ∧ Some ["Kitchen"] ≠ Some ["Office"].
Proof. split; [reflexivity|]. split; [reflexivity | discriminate]. Qed.

Lemma add_then_find_witness :
  find_object "milk"
    (add_object "/" (PStr "Kitchen/Drawers/Top") "milk" false DEFAULT_HOME_LAYOUT).1
  = Some ["Kitchen"; "Drawers"; "Top"]
  ∧ find_object "milk" DEFAULT_HOME_LAYOUT = Some ["Kitchen"; "Fridge"; "Door"].
Proof.
  split; [|reflexivity].
  exact (proj1 (add_then_find "/" (PStr "Kitchen/Drawers/Top")
                  ["Kitchen"; "Drawers"; "Top"] "milk" false
                  DEFAULT_HOME_LAYOUT _ true eq_refl eq_refl)).
Defined.

Lemma remove_last_item_prunes_witness :
  ∃ data',
    remove_object "/" "charging_station"
                  (Some (PStr "Office/Desks/Guest/Surface/Center")) DEFAULT_HOME_LAYOUT
    = (data', Ret true)
    ∧ _walk (Mapping data') ["Office"; "Desks"; "Guest"; "Surface"; "Center"]
      = Raise KeyError
    ∧ (∀ q r entries,
         ["Office"; "Desks"; "Guest"; "Surface"; "Center"] = q ++ r → q ≠ [] → r ≠ [] →
         _walk (Mapping DEFAULT_HOME_LAYOUT) q = Ret (Mapping entries) →
         if left_empty entries r
         then _walk (Mapping data') q = Raise KeyError
         else ∃ entries', _walk (Mapping data') q = Ret (Mapping entries')
                          ∧ is_empty entries' = false)
    ∧ is_empty data'
      = left_empty DEFAULT_HOME_LAYOUT ["Office"; "Desks"; "Guest"; "Surface"; "Center"]
    ∧ ∃ l1 l2,
        iter_object_paths DEFAULT_HOME_LAYOUT
        = l1 ++ ("charging_station",
                 ["Office"; "Desks"; "Guest"; "Surface"; "Center"]) :: l2
        ∧ iter_object_paths data' = l1 ++ l2.
Proof.
  apply (remove_last_item_prunes "/" "charging_station"
           (Some (PStr "Office/Desks/Guest/Surface/Center")) DEFAULT_HOME_LAYOUT
           ["Office"; "Desks"; "Guest"; "Surface"; "Center"]).
  - reflexivity.
  - reflexivity.
  - reflexivity.
Defined.

Lemma move_object_removal_fails_witness :
  absent "/" "corkscrew" None DEFAULT_HOME_LAYOUT
  ∧ move_object "/" "corkscrew" (PStr "Kitchen/Drawers/Top") None false
                DEFAULT_HOME_LAYOUT
    = (DEFAULT_HOME_LAYOUT, Ret false).
Proof.
  apply (move_object_removal_fails "/" "corkscrew" (PStr "Kitchen/Drawers/Top") None
           false DEFAULT_HOME_LAYOUT).
  reflexivity.
Defined.

Lemma move_object_result_is_removal_witness :
  move_object "/" "mug" (PSeq ["Office"]) (Some (PSeq ["Kitchen"])) false two_mugs
  = ([("Office", Bucket ["mug"])], Ret true)
  ∧ ∀ allow_duplicates data' result,
      move_object "/" "mug" (PSeq ["Office"]) (Some (PSeq ["Kitchen"]))
                  allow_duplicates two_mugs
      = (data', Ret result) →
      result = true.
Proof.
  apply (move_object_result_is_removal "/" "mug" (PSeq ["Office"])
           (Some (PSeq ["Kitchen"])) two_mugs [("Office", Bucket ["mug"])]
           ["Office"] ["mug"]).
  - reflexivity.
  - reflexivity.
  - reflexivity.
  - apply list_elem_of_here.
Defined.

(** C10, as stated, fails for [move_object]: with a new path that has no
    segment and a name that is not stored, it returns false. *)
Lemma move_object_empty_new_path_returns_false :
  _normalize_path "/" (PSeq []) = Raise ValueError
  ∧ _normalize_path "/" (PStr "//") = Raise ValueError
  ∧ move_object "/" "corkscrew" (PSeq []) None false DEFAULT_HOME_LAYOUT
    = (DEFAULT_HOME_LAYOUT, Ret false)
  ∧ move_object "/" "corkscrew" (PStr "//") None false DEFAULT_HOME_LAYOUT
    = (DEFAULT_HOME_LAYOUT, Ret false).
Proof. repeat split; reflexivity. Qed.

Lemma empty_path_raises_witness :
  has_path "/" (PStr "///") DEFAULT_HOME_LAYOUT = Raise ValueError
  ∧ get_path "/" (PStr "///") None DEFAULT_HOME_LAYOUT = Raise ValueError.
Proof.
  assert (Hz : zero_segments "/" (PStr "///")).
  { right. exists 3. reflexivity. }
  pose proof (empty_path_raises "/" (PStr "///") Hz DEFAULT_HOME_LAYOUT
                "corkscrew" [] false None (PSeq ["Hall"]) None) as H.
  exact (conj (proj1 H) (proj1 (proj2 H))).
Defined.
End Scenarios.

(** ** Further scenarios on concrete stores *)

Module Examples.
Import ObjectDict home_layout ProcessGraph PreferenceService Orchestrator.
Import TraversalFacts AddFacts ExtendFacts DeleteFacts CopyFacts PathArgFacts GraphFacts
  ServiceFacts.

Lemma find_object_correct_witness :
  (∀ p, find_object "toaster" DEFAULT_HOME_LAYOUT = Some p →
        ∃ items, _walk (Mapping DEFAULT_HOME_LAYOUT) p = Ret (Bucket items)
                 ∧ "toaster" ∈ items)
  ∧ (find_object "toaster" DEFAULT_HOME_LAYOUT = None ↔
     ∀ p items, _walk (Mapping DEFAULT_HOME_LAYOUT) p = Ret (Bucket items) →
                "toaster" ∉ items).
Proof. apply (find_object_correct "toaster" DEFAULT_HOME_LAYOUT). reflexivity. Defined.

Lemma remove_object_anywhere_witness :
  (is_Some (find_object "toaster" DEFAULT_HOME_LAYOUT)
   ∧ ∃ data', remove_object "/" "toaster" None DEFAULT_HOME_LAYOUT = (data', Ret true))
  ∨ (find_object "toaster" DEFAULT_HOME_LAYOUT = None
     ∧ remove_object "/" "toaster" None DEFAULT_HOME_LAYOUT
       = (DEFAULT_HOME_LAYOUT, Ret false)).
Proof. apply (remove_object_anywhere "/" "toaster" DEFAULT_HOME_LAYOUT). reflexivity. Defined.

Lemma add_object_appends_witness :
  ∃ normalized before,
    _normalize_path "/" (PStr "Kitchen/Fridge/Door") = Ret normalized
    ∧ (_walk (Mapping DEFAULT_HOME_LAYOUT) normalized = Ret (Bucket before)
       ∨ (before = [] ∧ _walk (Mapping DEFAULT_HOME_LAYOUT) normalized = Raise KeyError))
    ∧ (false = false → "butter" ∉ before)
    ∧ _walk (Mapping (add_object "/" (PStr "Kitchen/Fridge/Door") "butter" false
                                 DEFAULT_HOME_LAYOUT).1) normalized
      = Ret (Bucket (before ++ ["butter"]))
    ∧ (∀ default,
         get_path "/" (PStr "Kitchen/Fridge/Door") default
                  (add_object "/" (PStr "Kitchen/Fridge/Door") "butter" false
                              DEFAULT_HOME_LAYOUT).1
         = Ret (Some (Bucket (before ++ ["butter"]))))
    ∧ has_path "/" (PStr "Kitchen/Fridge/Door")
               (add_object "/" (PStr "Kitchen/Fridge/Door") "butter" false
                           DEFAULT_HOME_LAYOUT).1
      = Ret true.
Proof.
  apply (add_object_appends "/" (PStr "Kitchen/Fridge/Door") "butter" false
           DEFAULT_HOME_LAYOUT).
  reflexivity.
Defined.

Lemma add_object_declines_witness :
  DEFAULT_HOME_LAYOUT = DEFAULT_HOME_LAYOUT ∧ false = false
  ∧ ∃ normalized bucket,
      _normalize_path "/" (PStr "Kitchen/Fridge/Door") = Ret normalized
      ∧ _walk (Mapping DEFAULT_HOME_LAYOUT) normalized = Ret (Bucket bucket)
      ∧ "milk" ∈ bucket.
Proof.
  apply (add_object_declines "/" (PStr "Kitchen/Fridge/Door") "milk" false
           DEFAULT_HOME_LAYOUT DEFAULT_HOME_LAYOUT).
  reflexivity.
Defined.

Lemma extend_objects_appends_witness :
  ∃ normalized before added,
    _normalize_path "/" (PStr "Kitchen/Fridge/Door") = Ret normalized
    ∧ (_walk (Mapping DEFAULT_HOME_LAYOUT) normalized = Ret (Bucket before)
       ∨ (before = [] ∧ _walk (Mapping DEFAULT_HOME_LAYOUT) normalized = Raise KeyError))
    ∧ _walk (Mapping (extend_objects "/" (PStr "Kitchen/Fridge/Door")
                        ["milk"; "butter"; "butter"] false DEFAULT_HOME_LAYOUT).1)
            normalized
      = Ret (Bucket (before ++ added))
    ∧ 1 = length added
    ∧ added `sublist_of` ["milk"; "butter"; "butter"]
    ∧ (∀ x, x ∈ ["milk"; "butter"; "butter"] → x ∈ before ++ added)
    ∧ (false = true → added = ["milk"; "butter"; "butter"])
    ∧ (false = false →
       (NoDup before → NoDup (before ++ added))
       ∧ (¬ NoDup ["milk"; "butter"; "butter"] →
          1 < length ["milk"; "butter"; "butter"])).
Proof.
  apply (extend_objects_appends "/" (PStr "Kitchen/Fridge/Door")
           ["milk"; "butter"; "butter"] false DEFAULT_HOME_LAYOUT).
  reflexivity.
Defined.

Lemma delete_path_returns_has_path_witness :
  ∃ data', delete_path "/" (PStr "Kitchen/Fridge") DEFAULT_HOME_LAYOUT = (data', Ret true)
           ∧ (true = false → data' = DEFAULT_HOME_LAYOUT).
Proof.
  apply (delete_path_returns_has_path "/" (PStr "Kitchen/Fridge") DEFAULT_HOME_LAYOUT true).
  reflexivity.
Defined.

Lemma delete_path_twice_witness :
  has_path "/" (PStr "Office/Desks/Guest")
           (delete_path "/" (PStr "Office/Desks/Guest") DEFAULT_HOME_LAYOUT).1
  = Ret false
  ∧ delete_path "/" (PStr "Office/Desks/Guest")
                (delete_path "/" (PStr "Office/Desks/Guest") DEFAULT_HOME_LAYOUT).1
    = ((delete_path "/" (PStr "Office/Desks/Guest") DEFAULT_HOME_LAYOUT).1, Ret false).
Proof.
  apply (delete_path_twice "/" (PStr "Office/Desks/Guest") DEFAULT_HOME_LAYOUT).
  - reflexivity.
  - reflexivity.
Defined.

Lemma delete_path_removes_subtree_witness :
  ∃ normalized node l1 l2,
    _normalize_path "/" (PStr "Kitchen/Drawers") = Ret normalized
    ∧ _walk (Mapping DEFAULT_HOME_LAYOUT) normalized = Ret node
    ∧ iter_object_paths DEFAULT_HOME_LAYOUT = l1 ++ _iter_objects node normalized ++ l2
    ∧ iter_object_paths (delete_path "/" (PStr "Kitchen/Drawers") DEFAULT_HOME_LAYOUT).1
      = l1 ++ l2.
Proof.
  apply (delete_path_removes_subtree "/" (PStr "Kitchen/Drawers") DEFAULT_HOME_LAYOUT).
  reflexivity.
Defined.

Lemma remove_object_one_copy_witness :
  length (locations "mug" two_mugs)
  = S (length (locations "mug" [("Office", Bucket ["mug"])]))
  ∧ ∀ other, other ≠ "mug" →
             locations other [("Office", Bucket ["mug"])] = locations other two_mugs.
Proof.
  refine (proj2 (remove_object_one_copy "/" "mug" None two_mugs
                   [("Office", Bucket ["mug"])] _)).
  reflexivity.
Defined.

Lemma other_objects_untouched_witness :
  (∀ path allow_duplicates data' r,
     add_object "/" path "mug" allow_duplicates DEFAULT_HOME_LAYOUT = (data', r) →
     locations "toaster" data' = locations "toaster" DEFAULT_HOME_LAYOUT)
  ∧ (∀ old_path data' r,
       remove_object "/" "mug" old_path DEFAULT_HOME_LAYOUT = (data', r) →
       locations "toaster" data' = locations "toaster" DEFAULT_HOME_LAYOUT)
  ∧ (∀ new_path old_path allow_duplicates data' r,
       move_object "/" "mug" new_path old_path allow_duplicates DEFAULT_HOME_LAYOUT
       = (data', r) →
       locations "toaster" data' = locations "toaster" DEFAULT_HOME_LAYOUT).
Proof.
  apply (other_objects_untouched "/" "mug" "toaster" DEFAULT_HOME_LAYOUT).
  discriminate.
Defined.

Lemma move_object_copies_witness :
  length (locations "mug" [("Office", Bucket ["mug"])]) = length (locations "mug" two_mugs)
  ∨ (false = false
     ∧ S (length (locations "mug" [("Office", Bucket ["mug"])]))
       = length (locations "mug" two_mugs)
     ∧ ∃ removed, remove_object "/" "mug" None two_mugs = (removed, Ret true)
                  ∧ add_object "/" (PSeq ["Office"]) "mug" false removed
                    = ([("Office", Bucket ["mug"])], Ret false)).
Proof.
  apply (move_object_copies "/" "mug" (PSeq ["Office"]) None false two_mugs).
  reflexivity.
Defined.

Lemma move_object_type_mismatch_loses_copy_witness :
  move_object "/" "toaster" (PStr "Kitchen/Drawers/Top/Left") None false
              DEFAULT_HOME_LAYOUT
  = ((remove_object "/" "toaster" None DEFAULT_HOME_LAYOUT).1, Raise TypeError)
  ∧ length (locations "toaster" DEFAULT_HOME_LAYOUT)
    = S (length (locations "toaster"
                   (remove_object "/" "toaster" None DEFAULT_HOME_LAYOUT).1)).
Proof.
  apply (move_object_type_mismatch_loses_copy "/" "toaster"
           (PStr "Kitchen/Drawers/Top/Left") None false DEFAULT_HOME_LAYOUT
           (remove_object "/" "toaster" None DEFAULT_HOME_LAYOUT).1
           ["Kitchen"; "Drawers"; "Top"; "Left"]).
  - reflexivity.
  - reflexivity.
  - left. exists ["Kitchen"; "Drawers"; "Top"], ["Left"], ["knives"; "spoons"; "forks"].
    repeat split; [discriminate | discriminate].
Defined.

Lemma path_is_its_segments_witness :
  ["Kitchen"; "Fridge"] ≠ []
  ∧ (∀ s, PStr "/Kitchen//Fridge/" = PStr s →
          Forall (fun seg => seg ≠ "") ["Kitchen"; "Fridge"])
  ∧ ∀ data,
      has_path "/" (PStr "/Kitchen//Fridge/") data
      = has_path "/" (PSeq ["Kitchen"; "Fridge"]) data
      ∧ (∀ default, get_path "/" (PStr "/Kitchen//Fridge/") default data
                    = get_path "/" (PSeq ["Kitchen"; "Fridge"]) default data)
      ∧ delete_path "/" (PStr "/Kitchen//Fridge/") data
        = delete_path "/" (PSeq ["Kitchen"; "Fridge"]) data
      ∧ (∀ object_name allow_duplicates,
           add_object "/" (PStr "/Kitchen//Fridge/") object_name allow_duplicates data
           = add_object "/" (PSeq ["Kitchen"; "Fridge"]) object_name allow_duplicates data)
      ∧ (∀ object_names allow_duplicates,
           extend_objects "/" (PStr "/Kitchen//Fridge/") object_names allow_duplicates data
           = extend_objects "/" (PSeq ["Kitchen"; "Fridge"]) object_names
                            allow_duplicates data)
      ∧ (∀ object_name,
           remove_object "/" object_name (Some (PStr "/Kitchen//Fridge/")) data
           = remove_object "/" object_name (Some (PSeq ["Kitchen"; "Fridge"])) data)
      ∧ (∀ object_name old_path allow_duplicates,
           move_object "/" object_name (PStr "/Kitchen//Fridge/") old_path
                       allow_duplicates data
           = move_object "/" object_name (PSeq ["Kitchen"; "Fridge"]) old_path
                         allow_duplicates data).
Proof.
  apply (path_is_its_segments "/" (PStr "/Kitchen//Fridge/") ["Kitchen"; "Fridge"]).
  reflexivity.
Defined.

Lemma closed_preserved_witness :
  (∀ step, closed (add_step step (single_edge "Boil" "Drain")))
  ∧ (∀ step, closed (remove_step step (single_edge "Boil" "Drain")))
  ∧ (∀ old_step new_step,
       closed (update_step old_step new_step (single_edge "Boil" "Drain")))
  ∧ (∀ start end_, closed (add_transition start end_ (single_edge "Boil" "Drain")))
  ∧ (∀ start end_, closed (remove_transition start end_ (single_edge "Boil" "Drain"))).
Proof.
  apply (closed_preserved (single_edge "Boil" "Drain")).
  apply closed_single_edge. discriminate.
Defined.

Lemma create_then_delete_graph_witness :
  ∃ svc1,
    tool_create_process_graph "Pasta" seeded_service
    = (svc1, Ret (_success [("graph", _graph_snapshot (mkGraph "Pasta" ∅))]))
    ∧ dict_get "Pasta" (_graphs svc1) = Some (mkGraph "Pasta" ∅)
    ∧ dict_keys (_graphs svc1) = dict_keys (_graphs seeded_service) ++ ["Pasta"]
    ∧ tool_create_process_graph "Pasta" svc1
      = (svc1, Ret (_error ("Graph " ++ repr "Pasta" ++ " already exists.")))
    ∧ tool_delete_process_graph "Pasta" svc1
      = (seeded_service,
         Ret (_success [("message", JStr ("Graph " ++ "Pasta" ++ " deleted."))]))
    ∧ tool_delete_process_graph "Pasta" seeded_service
      = (seeded_service, Ret (not_found "Pasta")).
Proof. apply (create_then_delete_graph "Pasta" seeded_service). reflexivity. Defined.

Lemma handle_tool_call_keeps_graphs_closed_witness :
  closed_service
    (_handle_tool_call
       [mkCall (Some "create_process_graph") (Some "1") (Some [("name", AStr "Pasta")]);
        mkCall (Some "add_process_transition") (Some "2")
          (Some [("graph_name", AStr "Pasta"); ("start", AStr "Boil");
                 ("end", AStr "Drain")]);
        mkCall (Some "update_process_step") (Some "3")
          (Some [("graph_name", AStr "Pasta"); ("old_step", AStr "Drain");
                 ("new_step", AStr "Boil")])]
       seeded_service).1.
Proof.
  apply handle_tool_call_keeps_graphs_closed. apply List.Forall_nil.
Defined.

Lemma delete_path_tool_call_witness :
  ∃ data',
    delete_path path_separator (PStr "Kitchen/Fridge") (_object_dict seeded_service)
    = (data', Ret true)
    ∧ _execute_tool_call "delete_path" [("path", AStr "Kitchen/Fridge")] seeded_service
      = ({| _graphs := _graphs seeded_service; _object_dict := data' |},
         _success [("message",
                    JStr ("Removed path " ++ str_of_path (PStr "Kitchen/Fridge") ++ "."))]).
Proof.
  exact (delete_path_tool_call (AStr "Kitchen/Fridge") (PStr "Kitchen/Fridge")
           seeded_service eq_refl).
Defined.
End Examples.
